(** * A shallow embedding of the OpenLayers rendering core

    The development follows the JavaScript sources module by module:
    - [Js]            values a callback may return, and their truthiness;
    - [Num]           JavaScript numbers without NaN (rationals and the two
                      infinities), with [Math.max] and [Math.min];
    - [LayerBase]     ol/layer/Base: [getLayerState];
    - [LayerBaseProperties]
                      ol/layer/Base: the constructor and the setters;
    - [MapRenderer]   ol/renderer/Map: [getLayerRenderer] and
                      [forEachFeatureAtCoordinate];
    - [MapRendererCache]
                      ol/renderer/Map: removing layer renderers, the
                      post-render functions and [hasFeatureAtCoordinate];
    - [Geom]          ol/geom/Geometry, LinearRing, MultiPolygon, Circle over
                      a heap of arrays: [getExtent], [clone];
    - [Circle]        ol/geom/Circle: [containsXY], [setCenter], [setRadius];
    - [MultiPolygon]  ol/geom/MultiPolygon: [setPolygons], [getPolygons],
                      [getPolygon] and [appendPolygon];
    - [TileCache]     ol/TileCache: [expireCache];
    - [VectorTile]    ol/renderer/canvas/VectorTileLayer:
                      [createReplayGroup_], [postCompose], [renderTileImage_],
                      [drawTileImage] and [forEachFeatureAtCoordinate];
    - [TileSource]    ol/source/Tile and ol/source/UrlTile:
                      [forEachLoadedTile], [expireCache], [useTile],
                      [handleTileChange]; ol/TileCache: [pruneExceptNewestZ]. *)

From Stdlib Require Import QArith Qround Lqa.
From stdpp Require Import gmap strings list pretty.

(** ** JavaScript values *)

Module Js.

(** What a feature callback can hand back.  Numbers are rationals; objects
    are known by their identity. *)
Inductive jsval : Type :=
  | JUndefined
  | JNull
  | JBool (b : bool)
  | JNum (q : Q)
  | JStr (s : string)
  | JObj (id : N).

(** [if (v)]: the values JavaScript treats as true. *)
Definition truthy (v : jsval) : bool :=
  match v with
  | JUndefined | JNull => false
  | JBool b => b
  | JNum q => negb (Qeq_bool q 0)
  | JStr s => negb (String.eqb s "")
  | JObj _ => true
  end.

(** [a || b] *)
Definition or_else (a : jsval) (b : jsval) : jsval :=
  if truthy a then a else b.

(** What a call does: it returns, or it throws. *)
Inductive outcome (A : Type) : Type :=
  | Return (a : A)
  | Throws (msg : string).
Arguments Return {A} a.
Arguments Throws {A} msg.

Lemma truthy_not_undefined v : truthy v = true → v ≠ JUndefined.
Proof. by destruct v. Qed.

End Js.

(** ** Numbers *)

Module Num.

(** A JavaScript number that is not NaN. *)
Inductive num : Type :=
  | Fin (q : Q)
  | PosInf
  | NegInf.

(** [a <= b] *)
Definition leb (a b : num) : bool :=
  match a, b with
  | NegInf, _ => true
  | _, PosInf => true
  | Fin x, Fin y => Qle_bool x y
  | _, _ => false
  end.

Definition le (a b : num) : Prop := leb a b = true.

(** [Math.max(a, b)] and [Math.min(a, b)] *)
Definition Math_max (a b : num) : num := if leb a b then b else a.
Definition Math_min (a b : num) : num := if leb a b then a else b.

(** [ol.Extent]: [minx, miny, maxx, maxy]. *)
Record Extent : Type := mkExtent {
  minX : num; minY : num; maxX : num; maxY : num
}.

Lemma leb_refl a : leb a a = true.
Proof. destruct a; simpl; try done. apply Qle_bool_iff, Qle_refl. Qed.

Lemma leb_total a b : leb a b = false → leb b a = true.
Proof.
  destruct a, b; simpl; try done.
  intros H. apply Qle_bool_iff. apply Qlt_le_weak, Qnot_le_lt.
  intros Hle. apply Qle_bool_iff in Hle. congruence.
Qed.

Lemma leb_trans a b c : leb a b = true → leb b c = true → leb a c = true.
Proof.
  destruct a, b, c; simpl; try done.
  rewrite !Qle_bool_iff. apply Qle_trans.
Qed.

Lemma Math_max_ge_r a b : le b (Math_max a b).
Proof.
  unfold le, Math_max. destruct (leb a b) eqn:E.
  - apply leb_refl.
  - by apply leb_total.
Qed.

Lemma Math_max_ge_l a b : le a (Math_max a b).
Proof.
  unfold le, Math_max. destruct (leb a b) eqn:E; [done | apply leb_refl].
Qed.

Lemma Math_min_le_r a b : le (Math_min a b) b.
Proof.
  unfold le, Math_min. destruct (leb a b) eqn:E; [done | apply leb_refl].
Qed.

Lemma Math_min_glb a b c : le c a → le c b → le c (Math_min a b).
Proof. unfold le, Math_min. by destruct (leb a b). Qed.

End Num.

(** ** ol/layer/Base *)

Module LayerBase.
Import Num.

(** Modelled from the spec: [clamp] of ol/math.js, which is not among the
    sources; the spec has the opacity "clamped to [0,1]".  It is written the
    way the library clamps everywhere, [Math.min(Math.max(value, min), max)]. *)
Definition clamp (value min max : num) : num :=
  Math_min (Math_max value min) max.

Section Base.

(** [ol.source.State], the answer of the abstract [getSourceState()]. *)
Variable SourceState : Type.

(** [ol.LayerState].  The fields that [getLayerState] fills are undefined
    (here [None]) on a layer that was never asked for its state. *)
Record LayerState : Type := mkLayerState {
  ls_layer : N;
  ls_managed : bool;
  ls_opacity : option num;
  ls_sourceState : option SourceState;
  ls_visible : option bool;
  ls_extent : option Extent;
  ls_zIndex : option num;
  ls_maxResolution : option num;
  ls_minResolution : option num
}.

(** A layer: its observable properties, what its [getSourceState()]
    answers, and the one [state_] object it keeps. *)
Record BaseLayer : Type := mkBaseLayer {
  uid : N;
  opacity : num;
  visible : bool;
  zIndex : num;
  maxResolution : num;
  minResolution : num;
  extent : option Extent;
  sourceState : SourceState;
  state_ : LayerState
}.

Definition getOpacity (L : BaseLayer) := opacity L.
Definition getSourceState (L : BaseLayer) := sourceState L.
Definition getVisible (L : BaseLayer) := visible L.
Definition getExtent (L : BaseLayer) := extent L.
Definition getZIndex (L : BaseLayer) := zIndex L.
Definition getMaxResolution (L : BaseLayer) := maxResolution L.
Definition getMinResolution (L : BaseLayer) := minResolution L.

Definition set_state_ (L : BaseLayer) (s : LayerState) : BaseLayer :=
  mkBaseLayer (uid L) (opacity L) (visible L) (zIndex L) (maxResolution L)
    (minResolution L) (extent L) (sourceState L) s.

(** [getLayerState()]: the fields of [this.state_] are overwritten one by
    one and that same object is returned. *)
Definition getLayerState (L : BaseLayer) : BaseLayer * LayerState :=
  let s := state_ L in
  let s := mkLayerState (ls_layer s) (ls_managed s)
             (Some (clamp (getOpacity L) (Fin 0) (Fin 1)))
             (Some (getSourceState L))
             (Some (getVisible L))
             (getExtent L)
             (Some (getZIndex L))
             (Some (getMaxResolution L))
             (Some (Math_max (getMinResolution L) (Fin 0))) in
  (set_state_ L s, s).

(** The sentence of the specification, field by field: opacity within
    [0,1], every other field equal to the layer's property. *)
Definition snapshot_reflects_properties (L : BaseLayer) : Prop :=
  let s := (getLayerState L).2 in
  (∃ o, ls_opacity s = Some o ∧ le (Fin 0) o ∧ le o (Fin 1)) ∧
  ls_visible s = Some (visible L) ∧
  ls_zIndex s = Some (zIndex L) ∧
  ls_maxResolution s = Some (maxResolution L) ∧
  ls_minResolution s = Some (minResolution L) ∧
  ls_sourceState s = Some (sourceState L) ∧
  ls_extent s = extent L.

End Base.

Arguments mkLayerState {SourceState}.
Arguments mkBaseLayer {SourceState}.
Arguments getLayerState {SourceState}.
Arguments snapshot_reflects_properties {SourceState}.
Arguments ls_opacity {SourceState}.
Arguments ls_minResolution {SourceState}.

(** A layer whose [minResolution] was set to -1. *)
Definition layer_below_zero : BaseLayer unit :=
  mkBaseLayer 1%N (Fin 1) true (Fin 0) PosInf (Fin (-1)) None tt
    (mkLayerState 1%N true None None None None None None None).

Lemma clamp_unit_interval v :
  le (Fin 0) (clamp v (Fin 0) (Fin 1)) ∧ le (clamp v (Fin 0) (Fin 1)) (Fin 1).
Proof.
  unfold clamp. split.
  - apply Math_min_glb; [apply Math_max_ge_r | done].
  - apply Math_min_le_r.
Qed.

(** C9, as stated, fails: on a layer with [minResolution = -1] the snapshot
    has [minResolution = 0], not the layer's property. *)
Lemma getLayerState_minResolution_differs :
  ¬ snapshot_reflects_properties layer_below_zero.
Proof.
  unfold snapshot_reflects_properties.
  intros (_ & _ & _ & _ & Hmin & _). vm_compute in Hmin. discriminate.
Qed.

(** C9 (amended): for every layer, whatever its opacity, the snapshot
    returned by [getLayerState] has an opacity within [0,1], namely the
    layer's opacity clamped; its [minResolution] is the layer's, raised to 0
    when negative; [visible], [zIndex], [maxResolution], [sourceState] and
    [extent] are the layer's current properties; and the snapshot is the
    layer's own [state_] object, with [layer] and [managed] kept. *)
Theorem getLayerState_snapshot {SourceState} (L : BaseLayer SourceState) :
  let s := (getLayerState L).2 in
  (∃ o, ls_opacity s = Some o ∧ o = clamp (opacity _ L) (Fin 0) (Fin 1) ∧
        le (Fin 0) o ∧ le o (Fin 1)) ∧
  ls_visible _ s = Some (visible _ L) ∧
  ls_zIndex _ s = Some (zIndex _ L) ∧
  ls_maxResolution _ s = Some (maxResolution _ L) ∧
  ls_minResolution s = Some (Math_max (minResolution _ L) (Fin 0)) ∧
  (∃ m, ls_minResolution s = Some m ∧ le (Fin 0) m ∧ le (minResolution _ L) m) ∧
  ls_sourceState _ s = Some (sourceState _ L) ∧
  ls_extent _ s = extent _ L ∧
  ls_layer _ s = ls_layer _ (state_ _ L) ∧
  ls_managed _ s = ls_managed _ (state_ _ L) ∧
  state_ _ (getLayerState L).1 = s.
Proof.
  simpl. repeat split.
  - eexists. split; [reflexivity |]. split; [reflexivity |].
    apply clamp_unit_interval.
  - eexists. split; [reflexivity |].
    split; [apply Math_max_ge_r | apply Math_max_ge_l].
Qed.

End LayerBase.

(** ** ol/layer/Base: the constructor and the setters *)

Module LayerBaseProperties.
Import Num LayerBase.

Section Properties.

Variable SourceState : Type.



Definition setExtent (extent : option Extent) (L : BaseLayer SourceState)
    : BaseLayer SourceState :=
  mkBaseLayer (uid _ L) (opacity _ L) (visible _ L) (zIndex _ L)
    (maxResolution _ L) (minResolution _ L) extent (sourceState _ L)
    (state_ _ L).

Definition setMaxResolution (maxResolution : num) (L : BaseLayer SourceState)
    : BaseLayer SourceState :=
  mkBaseLayer (uid _ L) (opacity _ L) (visible _ L) (zIndex _ L)
    maxResolution (minResolution _ L) (extent _ L) (sourceState _ L)
    (state_ _ L).

Definition setMinResolution (minResolution : num) (L : BaseLayer SourceState)
    : BaseLayer SourceState :=
  mkBaseLayer (uid _ L) (opacity _ L) (visible _ L) (zIndex _ L)
    (maxResolution _ L) minResolution (extent _ L) (sourceState _ L)
    (state_ _ L).

Definition setOpacity (opacity : num) (L : BaseLayer SourceState)
    : BaseLayer SourceState :=
  mkBaseLayer (uid _ L) opacity (visible _ L) (zIndex _ L)
    (maxResolution _ L) (minResolution _ L) (extent _ L) (sourceState _ L)
    (state_ _ L).

Definition setVisible (visible : bool) (L : BaseLayer SourceState)
    : BaseLayer SourceState :=
  mkBaseLayer (uid _ L) (opacity _ L) visible (zIndex _ L)
    (maxResolution _ L) (minResolution _ L) (extent _ L) (sourceState _ L)
    (state_ _ L).

Definition setZIndex (zindex : num) (L : BaseLayer SourceState)
    : BaseLayer SourceState :=
  mkBaseLayer (uid _ L) (opacity _ L) (visible _ L) zindex
    (maxResolution _ L) (minResolution _ L) (extent _ L) (sourceState _ L)
    (state_ _ L).

(** A run of setter calls. *)
Inductive Setter : Type :=
  | SetExtent (extent : option Extent)
  | SetMaxResolution (maxResolution : num)
  | SetMinResolution (minResolution : num)
  | SetOpacity (opacity : num)
  | SetVisible (visible : bool)
  | SetZIndex (zindex : num).

Definition call (s : Setter) (L : BaseLayer SourceState)
    : BaseLayer SourceState :=
  match s with
  | SetExtent e => setExtent e L
  | SetMaxResolution r => setMaxResolution r L
  | SetMinResolution r => setMinResolution r L
  | SetOpacity o => setOpacity o L
  | SetVisible v => setVisible v L
  | SetZIndex z => setZIndex z L
  end.

Definition callAll (ss : list Setter) (L : BaseLayer SourceState)
    : BaseLayer SourceState :=
  foldl (λ L s, call s L) L ss.


(** X2: the snapshot is one object, brought up to date by [getLayerState]
    and by nothing else.  Asking twice in a row changes nothing the second
    time.  Setters leave the state object as the last [getLayerState] left
    it, however many are called; the next [getLayerState] writes into that
    same object what the properties are then, and keeps [layer] and
    [managed]. *)
Theorem getLayerState_refreshes_on_demand (L : BaseLayer SourceState) setters :
  let L1 := (getLayerState L).1 in
  let s1 := (getLayerState L).2 in
  let L2 := callAll setters L1 in
  getLayerState L1 = (L1, s1) ∧
  state_ _ L2 = s1 ∧
  state_ _ (getLayerState L2).1 = (getLayerState L2).2 ∧
  (getLayerState L2).2
  = mkLayerState (ls_layer _ s1) (ls_managed _ s1)
      (Some (clamp (opacity _ L2) (Fin 0) (Fin 1)))
      (Some (sourceState _ L))
      (Some (visible _ L2)) (extent _ L2) (Some (zIndex _ L2))
      (Some (maxResolution _ L2))
      (Some (Math_max (minResolution _ L2) (Fin 0))) ∧
  (setters = [] → (getLayerState L2).2 = s1).
Proof.
  intros L1 s1 L2.
  assert (Hkeep : ∀ setters M,
            state_ _ (callAll setters M) = state_ _ M ∧
            sourceState _ (callAll setters M) = sourceState _ M).
  { clear. induction setters as [|s rest IH]; intros M; [done |].
    simpl. destruct (IH (call s M)) as [-> ->]. by destruct s. }
  destruct (Hkeep setters L1) as [Hstate Hsource].
  split; [done |]. split; [done |]. split; [done |]. split.
  - unfold L2, getLayerState at 1. cbn [snd].
    unfold getSourceState, getOpacity, getVisible, getExtent, getZIndex,
      getMaxResolution, getMinResolution.
    by rewrite Hstate, Hsource.
  - intros ->. done.
Qed.

End Properties.

(** The layer of the earlier example, made half transparent after its
    first snapshot: the state object still shows the old opacity. *)
Lemma getLayerState_refreshes_on_demand_witness :
  ls_opacity
    (state_ unit
       (callAll unit [SetOpacity (Fin (1 # 2))] (getLayerState layer_below_zero).1))
  = Some (Fin 1) ∧
  ls_opacity
    (getLayerState
       (callAll unit [SetOpacity (Fin (1 # 2))] (getLayerState layer_below_zero).1)).2
  = Some (Fin (1 # 2)).
Proof.
  destruct (getLayerState_refreshes_on_demand unit layer_below_zero
              [SetOpacity (Fin (1 # 2))]) as (_ & Hstale & _ & Hfresh & _).
  split; [by rewrite Hstale | by rewrite Hfresh].
Defined.

End LayerBaseProperties.

(** ** ol/renderer/Map *)

Module MapRenderer.
Import Js.

(** [ol.renderer.Type] and [ol.LayerType], by their string values. *)
Inductive RendererType : Type := CANVAS | WEBGL.
Inductive LayerType : Type := IMAGE | TILE | VECTOR_TILE | VECTOR.

Definition LayerType_to_string (t : LayerType) : string :=
  match t with
  | IMAGE => "IMAGE" | TILE => "TILE"
  | VECTOR_TILE => "VECTOR_TILE" | VECTOR => "VECTOR"
  end.

(** [ol.Coordinate], as far as the renderer reads it: [coordinate[0]] and
    [coordinate[1]]. *)
Definition Coordinate : Type := Q * Q.

Record Source : Type := mkSource { getWrapX : bool }.

(** A layer.  [getUid(layer)] is the number the library stamps on an object
    the first time it is asked for one; it never changes afterwards. *)
Record Layer : Type := mkLayer {
  getUid : N;
  getType : LayerType;
  getSource : option Source
}.

Record Projection : Type := mkProjection {
  canWrapX : bool;
  (* [minx, miny, maxx, maxy] *)
  getExtent : Q * Q * Q * Q
}.

(** [getWidth(extent)] of ol/extent.js: [extent[2] - extent[0]]. *)
Definition getWidth (e : Q * Q * Q * Q) : Q :=
  let '(minx, _, maxx, _) := e in (maxx - minx)%Q.

Record LayerState : Type := mkLayerState {
  layer : Layer;
  managed : bool;
  visible : bool;
  minResolution : Q;
  maxResolution : Num.num
}.

Record ViewState : Type := mkViewState {
  resolution : Q;
  projection : Projection
}.

Record FrameState : Type := mkFrameState {
  viewState : ViewState;
  layerStatesArray : list LayerState;
  layerStates : gmap string LayerState;
  skippedFeatureUids : gset string
}.

Section Renderer.

(** Features, known to this module only through [getUid(feature)]. *)
Variable Feature : Type.
Variable featureUid : Feature → N.

(** The callback handed to a layer renderer's hit-test, and the hit-test
    itself ([layerRenderer.forEachFeatureAtCoordinate]): either may throw. *)
Definition FeatureCallback : Type := Feature → Layer → outcome jsval.
Definition HitTest : Type :=
  Coordinate → FrameState → Q → FeatureCallback → outcome jsval.

(** A layer renderer: an object (its identity) with a hit-test method. *)
Record LayerRenderer : Type := mkLayerRenderer {
  lr_id : N;
  lr_forEachFeatureAtCoordinate : HitTest
}.

(** A registered renderer plugin: its ['handles'] predicate and its
    ['create'] factory, which builds a new object. *)
Record Plugin : Type := mkPlugin {
  handles : RendererType → Layer → bool;
  create : Layer → HitTest
}.

(** [listen(renderer, EventType.CHANGE, ...)] answers a key naming the
    target and the event type. *)
Record EventsKey : Type := mkEventsKey { target : N; type : string }.

(** The map renderer: its type, the two dictionaries of the constructor,
    and the identity the next created object gets. *)
Record MapRendererState : Type := mkMapRenderer {
  rendererType : RendererType;
  layerRenderers_ : gmap string LayerRenderer;
  layerRendererListeners_ : gmap string EventsKey;
  nextObject : N
}.

(** The [for] loop of [getLayerRenderer]: the first plugin that handles
    the layer creates the renderer; [renderer] stays undefined otherwise. *)
Fixpoint createFromPlugins (ty : RendererType) (l : Layer)
    (layerRendererPlugins : list Plugin) : option HitTest :=
  match layerRendererPlugins with
  | [] => None
  | plugin :: rest =>
      if handles plugin ty l then Some (create plugin l)
      else createFromPlugins ty l rest
  end.

Definition getLayerRenderer (layerRendererPlugins : list Plugin)
    (l : Layer) (this : MapRendererState)
    : outcome LayerRenderer * MapRendererState :=
  let layerKey := pretty (getUid l) in
  match layerRenderers_ this !! layerKey with
  | Some r => (Return r, this)
  | None =>
      match createFromPlugins (rendererType this) l layerRendererPlugins with
      | Some impl =>
          let renderer := mkLayerRenderer (nextObject this) impl in
          (Return renderer,
           mkMapRenderer (rendererType this)
             (<[layerKey := renderer]> (layerRenderers_ this))
             (<[layerKey := mkEventsKey (lr_id renderer) "change"]>
                (layerRendererListeners_ this))
             (N.succ (nextObject this)))
      | None =>
          (Throws ("Unable to create renderer for layer: " +:+
                   LayerType_to_string (getType l)), this)
      end
  end.

(** The inner function of [forEachFeatureAtCoordinate]: the user's callback
    is reached unless the feature is skipped and the layer unmanaged. *)
Definition skipAware (frameState : FrameState)
    (callback : Feature → option Layer → jsval) : FeatureCallback :=
  λ feature l,
    let key := pretty (featureUid feature) in
    match layerStates frameState !! pretty (getUid l) with
    | None => Throws "TypeError"
    | Some st =>
        let managed := managed st in
        if negb (bool_decide (key ∈ skippedFeatureUids frameState)
                 && negb managed)
        then Return (callback feature (if managed then Some l else None))
        else Return JUndefined
    end.

(** [a < b] on numbers. *)
Definition Qltb (a b : Q) : bool := negb (Qle_bool b a).

(** The coordinate moved into the projection's own world. *)
Definition translateCoordinate (p : Projection) (coordinate : Coordinate)
    : Coordinate :=
  if canWrapX p then
    let '(minx, _, maxx, _) := getExtent p in
    let worldWidth := getWidth (getExtent p) in
    let x := coordinate.1 in
    if Qltb x minx || Qltb maxx x then
      let worldsAway := Qceiling ((minx - x) / worldWidth)%Q in
      ((x + worldWidth * inject_Z worldsAway)%Q, coordinate.2)
    else coordinate
  else coordinate.

Section ForEach.

Variable visibleAtResolution : LayerState → Q → bool.
Variable layerRendererPlugins : list Plugin.
Variables (coordinate : Coordinate) (frameState : FrameState)
          (hitTolerance : Q).
Variable callback : Feature → option Layer → jsval.
Variable layerFilter : Layer → bool.

(** What the loop leaves behind: the renderer, and the hit-tests it asked
    for, oldest first, each with the layer and the coordinate it was given. *)
Definition HitLog : Type := list (Layer * Coordinate).

(** The loop [for (i = numLayers - 1; i >= 0; --i)], entered with [n = i+1];
    [result] is the variable declared before it. *)
Fixpoint layerLoop (n : nat) (result : jsval) (this : MapRendererState)
    (log : HitLog) : outcome jsval * MapRendererState * HitLog :=
  match n with
  | O => (Return JUndefined, this, log)
  | S i =>
      match layerStatesArray frameState !! i with
      | None => (Throws "TypeError", this, log)
      | Some layerState =>
          let l := layer layerState in
          if visibleAtResolution layerState (resolution (viewState frameState))
             && layerFilter l then
            match getLayerRenderer layerRendererPlugins l this with
            | (Throws msg, this) => (Throws msg, this, log)
            | (Return layerRenderer, this) =>
                match getSource l with
                | Some source =>
                    let c := if getWrapX source
                             then translateCoordinate
                                    (projection (viewState frameState))
                                    coordinate
                             else coordinate in
                    let log := log ++ [(l, c)] in
                    match lr_forEachFeatureAtCoordinate layerRenderer c
                            frameState hitTolerance
                            (skipAware frameState callback) with
                    | Throws msg => (Throws msg, this, log)
                    | Return r =>
                        if truthy r then (Return r, this, log)
                        else layerLoop i r this log
                    end
                | None =>
                    if truthy result then (Return result, this, log)
                    else layerLoop i result this log
                end
            end
          else layerLoop i result this log
      end
  end.

Definition forEachFeatureAtCoordinate (this : MapRendererState)
    : outcome jsval * MapRendererState * HitLog :=
  layerLoop (length (layerStatesArray frameState)) JUndefined this [].

(** One turn of the loop, for the proofs: either the loop goes on with a
    new [result], or the function is left. *)
Inductive turn : Type :=
  | GoOn (result : jsval) (this : MapRendererState) (log : HitLog)
  | Leave (o : outcome jsval) (this : MapRendererState) (log : HitLog).

Definition visitLayer (layerState : LayerState) (result : jsval)
    (this : MapRendererState) (log : HitLog) : turn :=
  let l := layer layerState in
  if visibleAtResolution layerState (resolution (viewState frameState))
     && layerFilter l then
    match getLayerRenderer layerRendererPlugins l this with
    | (Throws msg, this) => Leave (Throws msg) this log
    | (Return layerRenderer, this) =>
        match getSource l with
        | Some source =>
            let c := if getWrapX source
                     then translateCoordinate
                            (projection (viewState frameState)) coordinate
                     else coordinate in
            let log := log ++ [(l, c)] in
            match lr_forEachFeatureAtCoordinate layerRenderer c
                    frameState hitTolerance
                    (skipAware frameState callback) with
            | Throws msg => Leave (Throws msg) this log
            | Return r =>
                if truthy r then Leave (Return r) this log
                else GoOn r this log
            end
        | None =>
            if truthy result then Leave (Return result) this log
            else GoOn result this log
        end
    end
  else GoOn result this log.

(** The same loop over the layer states it will meet, in that order. *)
Fixpoint layerScan (lss : list LayerState) (result : jsval)
    (this : MapRendererState) (log : HitLog)
    : outcome jsval * MapRendererState * HitLog :=
  match lss with
  | [] => (Return JUndefined, this, log)
  | layerState :: rest =>
      match visitLayer layerState result this log with
      | Leave o this log => (o, this, log)
      | GoOn result this log => layerScan rest result this log
      end
  end.

Definition eligible (ls : LayerState) : bool :=
  visibleAtResolution ls (resolution (viewState frameState))
  && layerFilter (layer ls).

Definition askedOf (ls : LayerState) : option (Layer * Coordinate) :=
  match getSource (layer ls) with
  | Some source =>
      Some (layer ls,
            if getWrapX source
            then translateCoordinate
                   (projection (viewState frameState)) coordinate
            else coordinate)
  | None => None
  end.

(** The layers the loop looks at, topmost first: visible at the frame's
    resolution and accepted by the filter. *)
Definition candidates : list LayerState :=
  filter (λ ls, eligible ls = true) (reverse (layerStatesArray frameState)).

(** Of those, the ones with a source, each with the coordinate its
    renderer is asked about: the translated one when the source wraps. *)
Definition consultedOf (lss : list LayerState) : list (Layer * Coordinate) :=
  omap askedOf (filter (λ ls, eligible ls = true) lss).

Definition consulted : list (Layer * Coordinate) :=
  consultedOf (reverse (layerStatesArray frameState)).

(** The number the library stamps on a layer names that layer. *)
Definition uid_identifies (lss : list LayerState) : Prop :=
  ∀ a b, a ∈ lss → b ∈ lss →
    getUid (layer a) = getUid (layer b) → layer a = layer b.

(** The hit-test that answers for a layer: the cached renderer's, or that
    of the renderer the first handling plugin would create. *)
Definition rendererFor (this : MapRendererState) (l : Layer)
    : option HitTest :=
  match layerRenderers_ this !! pretty (getUid l) with
  | Some r => Some (lr_forEachFeatureAtCoordinate r)
  | None => createFromPlugins (rendererType this) l layerRendererPlugins
  end.

Definition hitWith (H : Layer → option HitTest) (lc : Layer * Coordinate)
    : outcome jsval :=
  match H lc.1 with
  | Some h => h lc.2 frameState hitTolerance (skipAware frameState callback)
  | None => Throws "Unable to create renderer"
  end.

Definition hitTestOf (this : MapRendererState) : Layer * Coordinate → outcome jsval :=
  hitWith (rendererFor this).


(** *** Lemmas on [getLayerRenderer] *)

Lemma getLayerRenderer_cached plugins l this r :
  layerRenderers_ this !! pretty (getUid l) = Some r →
  getLayerRenderer plugins l this = (Return r, this).
Proof. intros H. unfold getLayerRenderer. by rewrite H. Qed.

Lemma createFromPlugins_first ty l pre p post :
  Forall (λ q, handles q ty l = false) pre →
  handles p ty l = true →
  createFromPlugins ty l (pre ++ p :: post) = Some (create p l).
Proof.
  induction 1 as [|q pre Hq _ IH]; intros Hp; simpl.
  - by rewrite Hp.
  - rewrite Hq. by apply IH.
Qed.

Lemma createFromPlugins_none ty l plugins :
  Forall (λ q, handles q ty l = false) plugins →
  createFromPlugins ty l plugins = None.
Proof. induction 1 as [|q ps Hq _ IH]; simpl; [done | by rewrite Hq]. Qed.

Lemma getLayerRenderer_rendererFor l this h :
  rendererFor this l = Some h →
  ∃ r this',
    getLayerRenderer layerRendererPlugins l this = (Return r, this') ∧
    lr_forEachFeatureAtCoordinate r = h ∧
    ∀ l', (getUid l' = getUid l → l' = l) →
          rendererFor this' l' = rendererFor this l'.
Proof.
  unfold rendererFor, getLayerRenderer.
  destruct (layerRenderers_ this !! pretty (getUid l)) as [r|] eqn:E.
  - intros [= <-]. by exists r, this.
  - intros Hc. rewrite Hc. eexists _, _. split; [reflexivity |].
    split; [done |]. intros l' Hl'. simpl.
    destruct (decide (getUid l' = getUid l)) as [Heq|Hne].
    + rewrite (Hl' Heq), lookup_insert_eq, E. by rewrite Hc.
    + rewrite lookup_insert_ne; [done |].
      intros Hk. by apply (inj pretty) in Hk.
Qed.

(** *** The loop as a scan of the reversed array *)

Lemma layerLoop_unfold i result this log layerState :
  layerStatesArray frameState !! i = Some layerState →
  layerLoop (S i) result this log =
    match visitLayer layerState result this log with
    | Leave o this log => (o, this, log)
    | GoOn result this log => layerLoop i result this log
    end.
Proof.
  intros H. simpl. rewrite H. unfold visitLayer.
  destruct (_ && _); [| done].
  destruct (getLayerRenderer _ _ _) as [[r|msg] t]; [| done].
  destruct (getSource _); [| by destruct (truthy result)].
  destruct (lr_forEachFeatureAtCoordinate _ _ _ _ _) as [v|]; [| done].
  by destruct (truthy v).
Qed.

Lemma layerLoop_scan n result this log :
  (n ≤ length (layerStatesArray frameState))%nat →
  layerLoop n result this log =
  layerScan (reverse (take n (layerStatesArray frameState))) result this log.
Proof.
  revert result this log. induction n as [|n IH]; intros result this log Hn.
  - by rewrite take_0.
  - destruct (lookup_lt_is_Some_2 (layerStatesArray frameState) n)
      as [ls Hls]; [lia |].
    rewrite (layerLoop_unfold _ _ _ _ _ Hls).
    rewrite (take_S_r _ _ _ Hls), reverse_snoc. simpl.
    destruct (visitLayer ls result this log); [apply IH; lia | done].
Qed.

Lemma consultedOf_cons ls rest :
  consultedOf (ls :: rest) =
  if eligible ls then
    match askedOf ls with
    | Some lc => lc :: consultedOf rest
    | None => consultedOf rest
    end
  else consultedOf rest.
Proof.
  unfold consultedOf. rewrite filter_cons.
  destruct (eligible ls); case_decide; try done.
Qed.

Lemma layerScan_spec (H : Layer → option HitTest) lss :
  ∀ result this log,
  truthy result = false →
  uid_identifies lss →
  (∀ ls, ls ∈ lss → rendererFor this (layer ls) = H (layer ls)) →
  (∀ ls, ls ∈ lss → eligible ls = true → is_Some (H (layer ls))) →
  (∀ lc, lc ∈ consultedOf lss → ∃ v, hitWith H lc = Return v) →
  ∃ v this' k,
    layerScan lss result this log
      = (Return v, this', log ++ take k (consultedOf lss)) ∧
    (∀ j lc, (S j < k)%nat → consultedOf lss !! j = Some lc →
       ∃ r, hitWith H lc = Return r ∧ truthy r = false) ∧
    ((truthy v = true ∧
      ∃ i lc, k = S i ∧ consultedOf lss !! i = Some lc ∧
              hitWith H lc = Return v) ∨
     (v = JUndefined ∧ k = length (consultedOf lss) ∧
      ∀ lc, lc ∈ consultedOf lss →
        ∃ r, hitWith H lc = Return r ∧ truthy r = false)).
Proof.
  induction lss as [|ls rest IH]; intros result this log Hres Huid Hinv Hsome Hret.
  - exists JUndefined, this, 0%nat. simpl. rewrite app_nil_r.
    split; [done |]. split; [intros; lia |]. right.
    split; [done |]. split; [done |]. intros lc Hin. by apply elem_of_nil in Hin.
  - assert (Huid' : uid_identifies rest).
    { intros a b Ha Hb. apply Huid; by right. }
    assert (Hsome' : ∀ ls', ls' ∈ rest → eligible ls' = true →
                           is_Some (H (layer ls'))).
    { intros ls' Hin. apply Hsome. by right. }
    rewrite consultedOf_cons in Hret |- *.
    simpl layerScan. unfold visitLayer. fold (eligible ls).
    destruct (eligible ls) eqn:Hel.
    + destruct (Hsome ls) as [h Hh]; [by left | done |].
      assert (Hrf : rendererFor this (layer ls) = Some h).
      { rewrite Hinv; [done | by left]. }
      destruct (getLayerRenderer_rendererFor _ _ _ Hrf)
        as (r & this1 & Hg & Hr & Hstab).
      rewrite Hg.
      assert (Hinv1 : ∀ ls', ls' ∈ rest →
                        rendererFor this1 (layer ls') = H (layer ls')).
      { intros ls' Hls'. rewrite Hstab; [apply Hinv; by right |].
        intros Hu. apply Huid; [by right | by left | done]. }
      unfold askedOf in Hret |- *.
      destruct (getSource (layer ls)) as [src|] eqn:Hsrc.
      * set (c := if getWrapX src then _ else _) in *.
        destruct (Hret (layer ls, c)) as [v0 Hv0]; [by left |].
        assert (Hhit : lr_forEachFeatureAtCoordinate r c frameState
                         hitTolerance (skipAware frameState callback)
                       = Return v0).
        { rewrite Hr. unfold hitWith in Hv0. simpl in Hv0.
          by rewrite Hh in Hv0. }
        rewrite Hhit. destruct (truthy v0) eqn:Htr.
        -- exists v0, this1, 1%nat. simpl. rewrite take_0.
           split; [done |]. split; [intros; lia |]. left.
           split; [done |]. by exists 0%nat, (layer ls, c).
        -- destruct (IH v0 this1 (log ++ [(layer ls, c)]) Htr Huid' Hinv1 Hsome')
             as (v & this' & k & Hscan & Hbefore & Hcase).
           { intros lc Hlc. apply Hret. by right. }
           exists v, this', (S k). rewrite Hscan. simpl.
           rewrite <- app_assoc. split; [done |]. split.
           ++ intros [|j] lc Hj Hlk; simpl in Hlk.
              ** injection Hlk as <-. by exists v0.
              ** apply (Hbefore j); [lia | done].
           ++ destruct Hcase as [(Hv & i & lc & -> & Hlk & Hlc)
                                |(-> & -> & Hall)].
              ** left. split; [done |]. by exists (S i), lc.
              ** right. split; [done |]. split; [done |].
                 intros lc [->|Hin]%elem_of_cons; [by exists v0 | by apply Hall].
      * rewrite Hres.
        destruct (IH result this1 log Hres Huid' Hinv1 Hsome' Hret)
          as (v & this' & k & Hscan & Hrest).
        by exists v, this', k.
    + assert (Hinv' : ∀ ls', ls' ∈ rest →
                        rendererFor this (layer ls') = H (layer ls')).
      { intros ls' Hls'. apply Hinv. by right. }
      destruct (IH result this log Hres Huid' Hinv' Hsome' Hret)
        as (v & this' & k & Hscan & Hrest).
      by exists v, this', k.
Qed.



(** C5: [getLayerRenderer] is memoized under the key [getUid(layer)]: when
    the key is present the cached renderer is returned and nothing changes,
    whatever the registered plugins are; when it is absent the first plugin
    (in registration order) that handles (type, layer) creates the renderer,
    which is stored under the key, leaves the other keys alone, and is what
    every later call for that layer returns; and when no plugin handles
    the layer the call throws and stores nothing. *)
Theorem getLayerRenderer_memoized plugins l this :
  (∀ r, layerRenderers_ this !! pretty (getUid l) = Some r →
        ∀ plugins', getLayerRenderer plugins' l this = (Return r, this)) ∧
  (layerRenderers_ this !! pretty (getUid l) = None →
   ∀ pre p post, plugins = pre ++ p :: post →
     Forall (λ q, handles q (rendererType this) l = false) pre →
     handles p (rendererType this) l = true →
     ∃ r this',
       getLayerRenderer plugins l this = (Return r, this') ∧
       lr_forEachFeatureAtCoordinate r = create p l ∧
       lr_id r = nextObject this ∧
       layerRenderers_ this' !! pretty (getUid l) = Some r ∧
       (∀ l', getUid l' ≠ getUid l →
          layerRenderers_ this' !! pretty (getUid l')
          = layerRenderers_ this !! pretty (getUid l')) ∧
       (∀ plugins', getLayerRenderer plugins' l this' = (Return r, this'))) ∧
  (layerRenderers_ this !! pretty (getUid l) = None →
   Forall (λ q, handles q (rendererType this) l = false) plugins →
   ∃ msg, getLayerRenderer plugins l this = (Throws msg, this)).
Proof.
  split; [| split].
  - intros r Hr plugins'. by apply getLayerRenderer_cached.
  - intros Hmiss pre p post -> Hpre Hp.
    set (r := mkLayerRenderer (nextObject this) (create p l)).
    exists r,
      (mkMapRenderer (rendererType this)
         (<[pretty (getUid l) := r]> (layerRenderers_ this))
         (<[pretty (getUid l) := mkEventsKey (lr_id r) "change"]>
            (layerRendererListeners_ this))
         (N.succ (nextObject this))).
    split.
    { unfold getLayerRenderer. rewrite Hmiss.
      by rewrite (createFromPlugins_first _ _ _ _ _ Hpre Hp). }
    cbn [lr_forEachFeatureAtCoordinate lr_id layerRenderers_].
    split; [done |]. split; [done |].
    split; [by rewrite lookup_insert_eq |]. split.
    + intros l' Hne. rewrite lookup_insert_ne; [done |].
      intros Hk. apply (inj pretty) in Hk. congruence.
    + intros plugins'. apply getLayerRenderer_cached.
      cbn [layerRenderers_]. by rewrite lookup_insert_eq.
  - intros Hmiss Hnone. unfold getLayerRenderer. rewrite Hmiss.
    rewrite (createFromPlugins_none _ _ _ Hnone). by eexists.
Qed.


End ForEach.
End Renderer.

Arguments mkLayerRenderer {Feature}.
Arguments mkPlugin {Feature}.
Arguments mkMapRenderer {Feature}.

(** *** A map with two layers *)

(** Layer 1 lies under layer 2; neither source wraps. *)
Definition lowerLayer : Layer := mkLayer 1 VECTOR (Some (mkSource false)).
Definition upperLayer : Layer := mkLayer 2 VECTOR (Some (mkSource false)).
Definition tileLayer : Layer := mkLayer 3 TILE (Some (mkSource true)).

Definition stateOf (l : Layer) : LayerState :=
  mkLayerState l true true 0 Num.PosInf.

Definition twoLayerFrame : FrameState :=
  mkFrameState
    (mkViewState 1 (mkProjection false (0, 0, 1, 1)%Q))
    [stateOf lowerLayer; stateOf upperLayer]
    (<["1" := stateOf lowerLayer]> (<["2" := stateOf upperLayer]> ∅))
    ∅.

(** A renderer whose hit-test finds one feature, numbered like its layer,
    and answers what the callback answered. *)
Definition reportingPlugin : Plugin N :=
  mkPlugin (λ ty l, match getType l with VECTOR => true | _ => false end)
           (λ l _ _ _ cb, cb (getUid l) l).

Definition imagePlugin : Plugin N :=
  mkPlugin (λ ty l, match getType l with IMAGE => true | _ => false end)
           (λ l _ _ _ _, Return JUndefined).


Definition freshMapRenderer : MapRendererState N := mkMapRenderer CANVAS ∅ ∅ 10.

(** A renderer that already holds the renderer of [upperLayer]. *)
Definition upperRenderer : LayerRenderer N :=
  mkLayerRenderer 7 (λ _ _ _ _, Return JUndefined).

Definition warmMapRenderer : MapRendererState N :=
  mkMapRenderer CANVAS (<["2" := upperRenderer]> ∅)
    (<["2" := mkEventsKey 7 "change"]> ∅) 10.

Definition visibleFlag (ls : LayerState) (resolution : Q) : bool := visible ls.

Definition acceptAll (l : Layer) : bool := true.

Definition queryPoint : Coordinate := (1 # 2, 1 # 2)%Q.

Lemma getLayerRenderer_memoized_witness :
  (∀ plugins', getLayerRenderer N plugins' upperLayer warmMapRenderer
               = (Return upperRenderer, warmMapRenderer)) ∧
  (∃ r this',
     getLayerRenderer N [imagePlugin; reportingPlugin] lowerLayer
       freshMapRenderer = (Return r, this') ∧
     lr_forEachFeatureAtCoordinate N r = create N reportingPlugin lowerLayer ∧
     ∀ plugins', getLayerRenderer N plugins' lowerLayer this'
                 = (Return r, this')) ∧
  (∃ msg, getLayerRenderer N [imagePlugin; reportingPlugin] tileLayer
            freshMapRenderer = (Throws msg, freshMapRenderer)).
Proof.
  split; [| split].
  - apply (getLayerRenderer_memoized N [] upperLayer warmMapRenderer).
    reflexivity.
  - destruct (getLayerRenderer_memoized N [imagePlugin; reportingPlugin]
                lowerLayer freshMapRenderer) as (_ & Hmiss & _).
    destruct (Hmiss eq_refl [imagePlugin] reportingPlugin [] eq_refl)
      as (r & this' & Hg & Himpl & _ & _ & _ & Hagain).
    + repeat constructor.
    + reflexivity.
    + by exists r, this'.
  - apply (getLayerRenderer_memoized N [imagePlugin; reportingPlugin]
             tileLayer freshMapRenderer); [reflexivity |].
    repeat constructor.
Defined.



End MapRenderer.

(** ** ol/renderer/Map: the cache of layer renderers over the frames *)

Module MapRendererCache.
Import Js MapRenderer.

(** [ol.PostRenderFunction]s the map renderer schedules. *)
Inductive PostRenderFunction : Type :=
  | ExpireIconCache
  | RemoveUnusedLayerRenderers.

Lemma omap_agree_on {A B} (f g : A → option B) (l : list A) :
  (∀ x, x ∈ l → f x = g x) → omap f l = omap g l.
Proof.
  intros Hfg. apply list_omap_ext, Forall2_same_length_lookup.
  split; [done |]. intros i x y Hx Hy.
  assert (x = y) by congruence. subst y.
  apply Hfg. by eapply list_elem_of_lookup_2.
Qed.

Section Cache.

Variable Feature : Type.
Variable featureUid : Feature → N.

(** The order in which [for (const key in this.layerRenderers_)] visits the
    keys of the dictionary. *)
Variable forIn : gmap string (LayerRenderer Feature) → list string.

(** [forIn] lists the keys of a dictionary, each once. *)
Definition enumerates (m : gmap string (LayerRenderer Feature)) : Prop :=
  NoDup (forIn m) ∧ ∀ k, k ∈ forIn m ↔ is_Some (m !! k).

(** What removals leave behind besides the map renderer: the renderers
    whose [dispose()] was called and the listener keys handed to
    [unlistenByKey], oldest first. *)
Record Trail : Type := mkTrail {
  disposed : list (LayerRenderer Feature);
  unlistened : list EventsKey
}.

(** [removeLayerRendererByKey_(layerKey)]; [unlistenByKey] of an undefined
    key does nothing. *)
Definition removeLayerRendererByKey_ (layerKey : string)
    (this : MapRendererState Feature) (t : Trail)
    : option (LayerRenderer Feature) * MapRendererState Feature * Trail :=
  let layerRenderer := layerRenderers_ _ this !! layerKey in
  (layerRenderer,
   mkMapRenderer (rendererType _ this)
     (delete layerKey (layerRenderers_ _ this))
     (delete layerKey (layerRendererListeners_ _ this))
     (nextObject _ this),
   mkTrail (disposed t)
     (unlistened t ++
      match layerRendererListeners_ _ this !! layerKey with
      | Some key => [key]
      | None => []
      end)).

(** [.dispose()] on what [removeLayerRendererByKey_] returned. *)
Definition dispose (r : option (LayerRenderer Feature)) (t : Trail)
    : outcome Trail :=
  match r with
  | Some r => Return (mkTrail (disposed t ++ [r]) (unlistened t))
  | None => Throws "TypeError"
  end.

(** The loop of [removeLayerRenderers]; a key deleted before its turn is
    not visited. *)
Fixpoint removeLayerRenderersLoop (keys : list string)
    (this : MapRendererState Feature) (t : Trail)
    : outcome (MapRendererState Feature * Trail) :=
  match keys with
  | [] => Return (this, t)
  | key :: rest =>
      if bool_decide (is_Some (layerRenderers_ _ this !! key)) then
        let '(r, this, t) := removeLayerRendererByKey_ key this t in
        match dispose r t with
        | Return t => removeLayerRenderersLoop rest this t
        | Throws msg => Throws msg
        end
      else removeLayerRenderersLoop rest this t
  end.

Definition removeLayerRenderers (this : MapRendererState Feature) (t : Trail)
    : outcome (MapRendererState Feature * Trail) :=
  removeLayerRenderersLoop (forIn (layerRenderers_ _ this)) this t.

(** [!frameState || !(layerKey in frameState.layerStates)] *)
Definition unused (frameState : option FrameState) (layerKey : string) : bool :=
  match frameState with
  | None => true
  | Some fs => negb (bool_decide (is_Some (layerStates fs !! layerKey)))
  end.

Fixpoint removeUnusedLoop (frameState : option FrameState)
    (keys : list string) (this : MapRendererState Feature) (t : Trail)
    : outcome (MapRendererState Feature * Trail) :=
  match keys with
  | [] => Return (this, t)
  | layerKey :: rest =>
      if bool_decide (is_Some (layerRenderers_ _ this !! layerKey)) then
        if unused frameState layerKey then
          let '(r, this, t) := removeLayerRendererByKey_ layerKey this t in
          match dispose r t with
          | Return t => removeUnusedLoop frameState rest this t
          | Throws msg => Throws msg
          end
        else removeUnusedLoop frameState rest this t
      else removeUnusedLoop frameState rest this t
  end.

(** [removeUnusedLayerRenderers_(map, frameState)]; the frame state may be
    [null]. *)
Definition removeUnusedLayerRenderers_ (frameState : option FrameState)
    (this : MapRendererState Feature) (t : Trail)
    : outcome (MapRendererState Feature * Trail) :=
  removeUnusedLoop frameState (forIn (layerRenderers_ _ this)) this t.

(** The loop of [scheduleRemoveUnusedLayerRenderers]: one push, then
    [return]. *)
Fixpoint scheduleLoop (frameState : FrameState) (keys : list string)
    (postRenderFunctions : list PostRenderFunction)
    : list PostRenderFunction :=
  match keys with
  | [] => postRenderFunctions
  | layerKey :: rest =>
      if negb (bool_decide (is_Some (layerStates frameState !! layerKey)))
      then postRenderFunctions ++ [RemoveUnusedLayerRenderers]
      else scheduleLoop frameState rest postRenderFunctions
  end.

(** [scheduleRemoveUnusedLayerRenderers(frameState)], on the frame's
    [postRenderFunctions]. *)
Definition scheduleRemoveUnusedLayerRenderers
    (this : MapRendererState Feature) (frameState : FrameState)
    (postRenderFunctions : list PostRenderFunction)
    : list PostRenderFunction :=
  scheduleLoop frameState (forIn (layerRenderers_ _ this)) postRenderFunctions.

(** [scheduleExpireIconCache(frameState)] *)
Definition scheduleExpireIconCache
    (postRenderFunctions : list PostRenderFunction)
    : list PostRenderFunction :=
  postRenderFunctions ++ [ExpireIconCache].


(** *** The loops *)

Lemma removeUnusedLoop_spec frameState keys : ∀ this t,
  NoDup keys →
  ∃ this' t',
    removeUnusedLoop frameState keys this t = Return (this', t') ∧
    rendererType _ this' = rendererType _ this ∧
    nextObject _ this' = nextObject _ this ∧
    (∀ k, layerRenderers_ _ this' !! k =
          if bool_decide (k ∈ keys) && unused frameState k then None
          else layerRenderers_ _ this !! k) ∧
    (∀ k, layerRendererListeners_ _ this' !! k =
          if bool_decide (k ∈ keys) && unused frameState k
             && bool_decide (is_Some (layerRenderers_ _ this !! k))
          then None
          else layerRendererListeners_ _ this !! k) ∧
    disposed t' = disposed t ++
      omap (λ k, if unused frameState k then layerRenderers_ _ this !! k
                 else None) keys ∧
    unlistened t' = unlistened t ++
      omap (λ k, if unused frameState k
                    && bool_decide (is_Some (layerRenderers_ _ this !! k))
                 then layerRendererListeners_ _ this !! k
                 else None) keys.
Proof.
  induction keys as [|key rest IH]; intros this t Hnd.
  - exists this, t. simpl. rewrite !app_nil_r.
    repeat split; try done.
  - apply NoDup_cons in Hnd as [Hkey Hnd]. simpl removeUnusedLoop.
    assert (Hskip :
      (unused frameState key = false ∨ layerRenderers_ _ this !! key = None) →
      ∃ this' t',
        removeUnusedLoop frameState rest this t = Return (this', t') ∧
        rendererType _ this' = rendererType _ this ∧
        nextObject _ this' = nextObject _ this ∧
        (∀ k, layerRenderers_ _ this' !! k =
              if bool_decide (k ∈ key :: rest) && unused frameState k
              then None else layerRenderers_ _ this !! k) ∧
        (∀ k, layerRendererListeners_ _ this' !! k =
              if bool_decide (k ∈ key :: rest) && unused frameState k
                 && bool_decide (is_Some (layerRenderers_ _ this !! k))
              then None
              else layerRendererListeners_ _ this !! k) ∧
        disposed t' = disposed t ++
          omap (λ k, if unused frameState k then layerRenderers_ _ this !! k
                     else None) (key :: rest) ∧
        unlistened t' = unlistened t ++
          omap (λ k, if unused frameState k
                        && bool_decide (is_Some (layerRenderers_ _ this !! k))
                     then layerRendererListeners_ _ this !! k
                     else None) (key :: rest)).
    { intros Hwhy.
      destruct (IH this t Hnd)
        as (this' & t' & Hrun & Hty & Hnext & Hr & Hl & Hd & Hu).
      exists this', t'. split; [done |]. split; [done |]. split; [done |].
      split; [| split; [| split]].
      - intros k. rewrite Hr.
        destruct (decide (k = key)) as [->|Hne].
        + rewrite (bool_decide_eq_false_2 (key ∈ rest)) by done.
          rewrite (bool_decide_eq_true_2 (key ∈ key :: rest)) by left.
          simpl. destruct Hwhy as [-> | ->]; [done |].
          by destruct (unused frameState key).
        + assert (Hiff : bool_decide (k ∈ key :: rest) = bool_decide (k ∈ rest)).
          { apply bool_decide_ext. set_solver. }
          by rewrite Hiff.
      - intros k. rewrite Hl.
        destruct (decide (k = key)) as [->|Hne].
        + rewrite (bool_decide_eq_false_2 (key ∈ rest)) by done.
          rewrite (bool_decide_eq_true_2 (key ∈ key :: rest)) by left.
          simpl. destruct Hwhy as [-> | ->]; [done |].
          rewrite (bool_decide_eq_false_2 (is_Some None));
            [by rewrite andb_false_r | by intros [? ?]].
        + assert (Hiff : bool_decide (k ∈ key :: rest) = bool_decide (k ∈ rest)).
          { apply bool_decide_ext. set_solver. }
          by rewrite Hiff.
      - rewrite Hd. f_equal. simpl.
        destruct Hwhy as [-> | ->]; [done |].
        by destruct (unused frameState key).
      - rewrite Hu. f_equal. simpl.
        destruct Hwhy as [-> | ->]; [done |].
        rewrite (bool_decide_eq_false_2 (is_Some None));
          [by rewrite andb_false_r | by intros [? ?]]. }
    case_bool_decide as Hin; [| apply Hskip; right;
      by apply eq_None_not_Some].
    destruct (unused frameState key) eqn:Hun; [| apply Hskip; by left].
    destruct Hin as [r Hr0]. unfold removeLayerRendererByKey_.
    rewrite Hr0. cbn [dispose].
    set (this1 := mkMapRenderer _ _ _ _).
    set (t1 := mkTrail _ _).
    destruct (IH this1 t1 Hnd)
      as (this' & t' & Hrun & Hty & Hnext & Hr & Hl & Hd & Hu).
    exists this', t'. split; [done |]. split; [done |]. split; [done |].
    split; [| split; [| split]].
    + intros k. rewrite Hr. unfold this1. cbn [layerRenderers_].
      destruct (decide (k = key)) as [->|Hne].
      * rewrite (bool_decide_eq_true_2 (key ∈ key :: rest)) by left.
        rewrite Hun. simpl. rewrite lookup_delete_eq.
        by destruct (_ && _).
      * assert (Hiff : bool_decide (k ∈ key :: rest) = bool_decide (k ∈ rest)).
        { apply bool_decide_ext. set_solver. }
        rewrite Hiff. by rewrite lookup_delete_ne.
    + intros k. rewrite Hl. unfold this1.
      cbn [layerRenderers_ layerRendererListeners_].
      destruct (decide (k = key)) as [->|Hne].
      * rewrite (bool_decide_eq_true_2 (key ∈ key :: rest)) by left.
        rewrite Hun, Hr0. simpl.
        rewrite !lookup_delete_eq. by destruct (_ && _).
      * assert (Hiff : bool_decide (k ∈ key :: rest) = bool_decide (k ∈ rest)).
        { apply bool_decide_ext. set_solver. }
        rewrite Hiff. by rewrite !lookup_delete_ne.
    + rewrite Hd. unfold t1, this1. cbn [disposed layerRenderers_].
      simpl omap. rewrite Hun, Hr0. rewrite <- app_assoc. simpl. do 2 f_equal.
      apply omap_agree_on. intros k Hk.
      destruct (unused frameState k); [| done].
      rewrite lookup_delete_ne; [done |]. intros ->. done.
    + rewrite Hu. unfold t1, this1.
      cbn [unlistened layerRenderers_ layerRendererListeners_].
      simpl omap. rewrite Hun, Hr0. simpl.
      rewrite <- app_assoc.
      assert (Hrest :
        omap (λ k, if unused frameState k
                      && bool_decide (is_Some (delete key (layerRenderers_ _ this) !! k))
                   then delete key (layerRendererListeners_ _ this) !! k
                   else None) rest
        = omap (λ k, if unused frameState k
                        && bool_decide (is_Some (layerRenderers_ _ this !! k))
                     then layerRendererListeners_ _ this !! k
                     else None) rest).
      { apply omap_agree_on. intros k Hk.
        rewrite !lookup_delete_ne; [done | |]; intros ->; done. }
      rewrite Hrest.
      by destruct (layerRendererListeners_ _ this !! key).
Qed.

Lemma removeUnusedLoop_noop frameState keys this t :
  (∀ k, k ∈ keys →
     unused frameState k = false ∨ layerRenderers_ _ this !! k = None) →
  removeUnusedLoop frameState keys this t = Return (this, t).
Proof.
  induction keys as [|key rest IH]; intros Hall; [done |]. simpl.
  assert (Hrest : removeUnusedLoop frameState rest this t = Return (this, t)).
  { apply IH. intros k Hk. apply Hall. by right. }
  case_bool_decide as Hin; [| done].
  destruct (Hall key) as [-> | Hnone]; [by left | done |].
  rewrite Hnone in Hin. by destruct Hin.
Qed.

Lemma removeLayerRenderersLoop_unused keys : ∀ this t,
  removeLayerRenderersLoop keys this t = removeUnusedLoop None keys this t.
Proof.
  induction keys as [|key rest IH]; intros this t; [done |]. simpl.
  case_bool_decide; [| apply IH].
  destruct (dispose _ _); [apply IH | done].
Qed.

Lemma scheduleLoop_spec frameState keys post :
  (Exists (λ k, layerStates frameState !! k = None) keys ∧
   scheduleLoop frameState keys post = post ++ [RemoveUnusedLayerRenderers]) ∨
  (Forall (λ k, is_Some (layerStates frameState !! k)) keys ∧
   scheduleLoop frameState keys post = post).
Proof.
  induction keys as [|key rest IH]; [right; by split |]. simpl.
  case_bool_decide as Hin; simpl.
  - destruct IH as [[Hex Hrun]|[Hall Hrun]].
    + left. split; [by right | done].
    + right. split; [by constructor | done].
  - left. split; [| done]. left. by apply eq_None_not_Some.
Qed.





(** X3: [removeUnusedLayerRenderers_] returns, having removed exactly the
    cached renderers whose key is not among the frame's [layerStates] (all
    of them when the frame state is null): each of those was taken out of
    both dictionaries and disposed once, in the order the keys were visited,
    and the renderers of the frame's layers stay cached with their
    listeners.  [removeLayerRenderers] is the same with no frame. *)
Theorem removeUnusedLayerRenderers_keeps_frame_layers frameState this t :
  enumerates (layerRenderers_ _ this) →
  ∃ this' t',
    removeUnusedLayerRenderers_ frameState this t = Return (this', t') ∧
    rendererType _ this' = rendererType _ this ∧
    nextObject _ this' = nextObject _ this ∧
    (∀ k, layerRenderers_ _ this' !! k =
          if unused frameState k then None else layerRenderers_ _ this !! k) ∧
    (∀ k, layerRendererListeners_ _ this' !! k =
          if unused frameState k
             && bool_decide (is_Some (layerRenderers_ _ this !! k))
          then None else layerRendererListeners_ _ this !! k) ∧
    disposed t' = disposed t ++
      omap (λ k, if unused frameState k then layerRenderers_ _ this !! k
                 else None) (forIn (layerRenderers_ _ this)) ∧
    (∀ r, r ∈ disposed t' ↔
          r ∈ disposed t ∨
          ∃ k, unused frameState k = true ∧
               layerRenderers_ _ this !! k = Some r) ∧
    (frameState = None → removeLayerRenderers this t = Return (this', t')).
Proof.
  intros [Hnd Hkeys]. unfold removeUnusedLayerRenderers_.
  destruct (removeUnusedLoop_spec frameState (forIn (layerRenderers_ _ this))
              this t Hnd)
    as (this' & t' & Hrun & Hty & Hnext & Hr & Hl & Hd & Hu).
  exists this', t'. split; [done |]. split; [done |]. split; [done |].
  split; [| split; [| split; [| split]]].
  - intros k. rewrite Hr. case_bool_decide as Hin; [done |]. simpl.
    assert (Hnone : layerRenderers_ _ this !! k = None).
    { apply eq_None_not_Some. intros Hs. by apply Hin, Hkeys. }
    rewrite Hnone. by destruct (unused frameState k).
  - intros k. rewrite Hl.
    destruct (unused frameState k); [| by rewrite andb_false_r].
    rewrite andb_true_r. simpl.
    case_bool_decide as Hin; simpl; [done |].
    rewrite bool_decide_eq_false_2; [done |].
    intros Hs. by apply Hin, Hkeys.
  - done.
  - intros r. rewrite Hd, elem_of_app, list_elem_of_omap.
    split; intros [Hold|Hnew]; [by left | | by left |]; right.
    + destruct Hnew as (k & Hk & Hf). exists k.
      destruct (unused frameState k); [done | discriminate].
    + destruct Hnew as (k & Hun & Hk). exists k. rewrite Hun.
      split; [| done]. apply Hkeys. by eexists.
  - intros ->. unfold removeLayerRenderers.
    by rewrite removeLayerRenderersLoop_unused.
Qed.

(** X4: [scheduleRemoveUnusedLayerRenderers] pushes
    [removeUnusedLayerRenderers_] onto the frame's post-render functions
    once, however many cached renderers have no layer state in the frame,
    and pushes nothing exactly when running [removeUnusedLayerRenderers_]
    for that frame would change nothing. *)
Theorem scheduleRemoveUnusedLayerRenderers_when_needed
    this frameState post t :
  enumerates (layerRenderers_ _ this) →
  let stale := ∃ k, is_Some (layerRenderers_ _ this !! k) ∧
                    layerStates frameState !! k = None in
  (stale →
   scheduleRemoveUnusedLayerRenderers this frameState post
   = post ++ [RemoveUnusedLayerRenderers]) ∧
  (¬ stale →
   scheduleRemoveUnusedLayerRenderers this frameState post = post) ∧
  (¬ stale ↔
   removeUnusedLayerRenderers_ (Some frameState) this t = Return (this, t)).
Proof.
  intros [Hnd Hkeys] stale.
  unfold scheduleRemoveUnusedLayerRenderers.
  destruct (scheduleLoop_spec frameState (forIn (layerRenderers_ _ this)) post)
    as [[Hex Hrun]|[Hall Hrun]].
  - assert (Hstale : stale).
    { apply Exists_exists in Hex as (k & Hk & Hnone).
      exists k. split; [by apply Hkeys | done]. }
    split; [done |]. split; [done |]. split; [done |].
    intros Hnoop. exfalso.
    destruct Hstale as (k & [r Hr] & Hnone).
    destruct (removeUnusedLoop_spec (Some frameState)
                (forIn (layerRenderers_ _ this)) this t Hnd)
      as (this' & t' & Hrun' & _ & _ & Hlook & _).
    unfold removeUnusedLayerRenderers_ in Hnoop. rewrite Hrun' in Hnoop.
    injection Hnoop as -> ->. specialize (Hlook k).
    rewrite bool_decide_eq_true_2 in Hlook by (apply Hkeys; by eexists).
    simpl in Hlook. rewrite Hnone in Hlook.
    rewrite bool_decide_eq_false_2 in Hlook by (by intros [? ?]).
    simpl in Hlook. congruence.
  - assert (Hfresh : ¬ stale).
    { intros (k & Hk & Hnone). apply Hkeys in Hk.
      pose proof (proj1 (Forall_forall _ _) Hall k Hk) as [? ?]. congruence. }
    split; [done |]. split; [done |]. split; [| done]. intros _.
    apply removeUnusedLoop_noop. intros k Hk. left. simpl.
    rewrite bool_decide_eq_true_2; [done |].
    by apply (proj1 (Forall_forall _ _) Hall).
Qed.



Section HasFeature.

Variable visibleAtResolution : LayerState → Q → bool.
Variable layerRendererPlugins : list (Plugin Feature).
Variables (coordinate : Coordinate) (frameState : FrameState)
          (hitTolerance : Q).
Variable layerFilter : Layer → bool.

(** [TRUE] of ol/functions.js: "always returns true". *)
Definition TRUE (feature : Feature) (l : option Layer) : jsval := JBool true.

(** [hasFeatureAtCoordinate]: [hasFeature !== undefined]. *)
Definition hasFeatureAtCoordinate (this : MapRendererState Feature)
    : outcome bool * MapRendererState Feature * HitLog :=
  match forEachFeatureAtCoordinate Feature featureUid visibleAtResolution
          layerRendererPlugins coordinate frameState hitTolerance TRUE
          layerFilter this with
  | (Return hasFeature, this, log) =>
      (Return (match hasFeature with JUndefined => false | _ => true end),
       this, log)
  | (Throws msg, this, log) => (Throws msg, this, log)
  end.

(** X7: [hasFeatureAtCoordinate] answers [true] exactly when the hit-test
    of some layer that is visible, accepted by the filter and has a source
    gives a truthy result; a layer whose hit-test answers a defined but
    falsy value does not count.  It consults the layers topmost first and
    no further than the first truthy answer. *)
Theorem hasFeatureAtCoordinate_iff_truthy_hit this :
  let consulted :=
    consulted visibleAtResolution coordinate frameState layerFilter in
  let hitTestOf :=
    hitTestOf Feature featureUid layerRendererPlugins frameState
      hitTolerance TRUE this in
  uid_identifies (layerStatesArray frameState) →
  (∀ ls, ls ∈ candidates visibleAtResolution frameState layerFilter →
         is_Some (rendererFor Feature layerRendererPlugins this (layer ls))) →
  (∀ lc, lc ∈ consulted → ∃ v, hitTestOf lc = Return v) →
  ∃ b this' k,
    hasFeatureAtCoordinate this = (Return b, this', take k consulted) ∧
    (b = true ↔
     ∃ lc r, lc ∈ consulted ∧ hitTestOf lc = Return r ∧ truthy r = true) ∧
    (b = true →
     ∃ i lc r, k = S i ∧ consulted !! i = Some lc ∧
               hitTestOf lc = Return r ∧ truthy r = true) ∧
    (b = false → k = length consulted).
Proof.
  intros cons hit Huid Hsome Hret.
  destruct (layerScan_spec Feature featureUid visibleAtResolution
              layerRendererPlugins coordinate frameState hitTolerance TRUE
              layerFilter
              (rendererFor Feature layerRendererPlugins this)
              (reverse (layerStatesArray frameState)) JUndefined this [])
    as (v & this' & k & Hscan & Hbefore & Hcase).
  - done.
  - intros a b Ha Hb. apply Huid; by apply elem_of_reverse.
  - done.
  - intros ls Hin Hel. apply Hsome. unfold candidates.
    by apply list_elem_of_filter.
  - exact Hret.
  - assert (Hrun : forEachFeatureAtCoordinate Feature featureUid
                     visibleAtResolution layerRendererPlugins coordinate
                     frameState hitTolerance TRUE layerFilter this
                   = (Return v, this', take k cons)).
    { unfold forEachFeatureAtCoordinate.
      rewrite layerLoop_scan, firstn_all; [| done]. exact Hscan. }
    unfold hasFeatureAtCoordinate. rewrite Hrun.
    destruct Hcase as [(Hv & i & lc & -> & Hlk & Hlc)|(-> & -> & Hall)].
    + exists true, this', (S i).
      split; [by destruct v |]. split; [| split; [| done]].
      * split; [| done]. intros _. exists lc, v.
        split; [by eapply list_elem_of_lookup_2 | done].
      * intros _. by exists i, lc, v.
    + exists false, this', (length cons).
      split; [done |]. split; [| split; [done | done]].
      split; [done |]. intros (lc & r & Hin & Hr & Htr).
      destruct (Hall lc Hin) as (r' & Hr' & Hfalse).
      fold (hitTestOf Feature featureUid layerRendererPlugins frameState
              hitTolerance TRUE this lc) in Hr'.
      fold hit in Hr'. congruence.
Qed.

End HasFeature.

End Cache.

(** *** A map renderer holding the renderers of two layers *)

(** The keys in the order of the dictionary's listing. *)
Definition listing {A} (m : gmap string A) : list string :=
  (map_to_list m).*1.

Lemma listing_enumerates {Feature} (m : gmap string (LayerRenderer Feature)) :
  enumerates Feature listing m.
Proof.
  split; [apply NoDup_fst_map_to_list |].
  intros k. unfold listing. rewrite list_elem_of_fmap. split.
  - intros ([k' r] & -> & Hin). apply elem_of_map_to_list in Hin. by eexists.
  - intros [r Hr]. exists (k, r). split; [done |].
    by apply elem_of_map_to_list.
Qed.

(** The map renderer once it was asked for the renderers of the upper and
    of the lower layer. *)
Definition twoRenderers : MapRendererState N :=
  (getLayerRenderer N [reportingPlugin] lowerLayer
     (getLayerRenderer N [reportingPlugin] upperLayer freshMapRenderer).2).2.

Definition upperCreated : LayerRenderer N :=
  mkLayerRenderer 10 (create N reportingPlugin upperLayer).
Definition lowerCreated : LayerRenderer N :=
  mkLayerRenderer 11 (create N reportingPlugin lowerLayer).

(** A frame that shows the upper layer only. *)
Definition upperFrame : FrameState :=
  mkFrameState
    (mkViewState 1 (mkProjection false (0, 0, 1, 1)%Q))
    [stateOf upperLayer]
    (<["2" := stateOf upperLayer]> ∅)
    ∅.


Lemma removeUnusedLayerRenderers_keeps_frame_layers_witness :
  ∃ this' t',
    removeUnusedLayerRenderers_ N listing (Some upperFrame) twoRenderers
      (mkTrail N [] []) = Return (this', t') ∧
    layerRenderers_ _ this' !! "2" = Some upperCreated ∧
    layerRenderers_ _ this' !! "1" = None ∧
    disposed N t' = [lowerCreated].
Proof.
  destruct (removeUnusedLayerRenderers_keeps_frame_layers N listing
              (Some upperFrame) twoRenderers (mkTrail N [] [])
              (listing_enumerates _))
    as (this' & t' & Hrun & _ & _ & Hr & _ & Hd & _).
  exists this', t'. split; [done |].
  split; [by rewrite Hr |]. split; [by rewrite Hr |].
  rewrite Hd. vm_compute. reflexivity.
Defined.

Lemma scheduleRemoveUnusedLayerRenderers_when_needed_witness :
  scheduleRemoveUnusedLayerRenderers N listing twoRenderers upperFrame
    [ExpireIconCache]
  = [ExpireIconCache; RemoveUnusedLayerRenderers].
Proof.
  apply (proj1 (scheduleRemoveUnusedLayerRenderers_when_needed N listing
                  twoRenderers upperFrame [ExpireIconCache] (mkTrail N [] [])
                  (listing_enumerates _))).
  exists "1". split; [by eexists | reflexivity].
Defined.



(** A plugin whose renderers answer [false]: defined, and falsy. *)
Definition falsePlugin : Plugin N :=
  mkPlugin (λ ty l, true) (λ l _ _ _ _, Return (JBool false)).

Lemma hasFeatureAtCoordinate_iff_truthy_hit_witness :
  ∃ this' k,
    hasFeatureAtCoordinate N id visibleFlag [falsePlugin] queryPoint
      twoLayerFrame 0 acceptAll freshMapRenderer
    = (Return false, this',
       take k (consulted visibleFlag queryPoint twoLayerFrame acceptAll)).
Proof.
  destruct (hasFeatureAtCoordinate_iff_truthy_hit N id visibleFlag
              [falsePlugin] queryPoint twoLayerFrame 0 acceptAll
              freshMapRenderer)
    as (b & this' & k & Hrun & Hiff & _).
  - intros a b Ha Hb Hu. simpl in Ha, Hb. set_unfold.
    destruct Ha as [->|[->|[]]], Hb as [->|[->|[]]]; done.
  - intros ls Hin.
    replace (candidates visibleFlag twoLayerFrame acceptAll)
      with [stateOf upperLayer; stateOf lowerLayer] in Hin by reflexivity.
    set_unfold. destruct Hin as [->|[->|[]]]; vm_compute; eauto.
  - intros lc Hin.
    replace (consulted visibleFlag queryPoint twoLayerFrame acceptAll)
      with [(upperLayer, queryPoint); (lowerLayer, queryPoint)] in Hin
      by reflexivity.
    set_unfold. destruct Hin as [->|[->|[]]]; vm_compute; eauto.
  - exists this', k. destruct b; [| done]. exfalso.
    destruct (proj1 Hiff eq_refl) as (lc & r & Hin & Hr & Htr).
    replace (consulted visibleFlag queryPoint twoLayerFrame acceptAll)
      with [(upperLayer, queryPoint); (lowerLayer, queryPoint)] in Hin
      by reflexivity.
    set_unfold.
    destruct Hin as [->|[->|[]]]; vm_compute in Hr; injection Hr as <-;
      discriminate.
Defined.

End MapRendererCache.

(** ** ol/geom: Geometry, LinearRing, MultiPolygon, Circle *)

Module Geom.
Import Num.

(** *** The heap of arrays

    Arrays are objects: two geometries may hold the same array, and writing
    through one is seen through the other.  A cell is an array of numbers
    (flat coordinates, one [ends]) or an array of arrays ([endss]). *)
Abbreviation loc := positive (only parsing).

Inductive cell : Type :=
  | Numbers (a : list Q)
  | Arrays (a : list loc).

Abbreviation heap := (gmap loc cell) (only parsing).

(** A new array object. *)
Definition alloc (h : heap) (c : cell) : heap * loc :=
  let l := fresh (dom h) in (<[l := c]> h, l).

(** [a.slice()]: a new array with the elements of [a]; a TypeError when
    [a] is not an array. *)
Definition slice (h : heap) (l : loc) : option (heap * loc) :=
  c ← h !! l; Some (alloc h c).

(** [a[i] = v] on an array of numbers, within its length. *)
Definition writeAt (h : heap) (l : loc) (i : nat) (v : Q) : heap :=
  match h !! l with
  | Some (Numbers a) => <[l := Numbers (<[i := v]> a)]> h
  | _ => h
  end.

Inductive GeometryLayout : Type := XY | XYZ | XYM | XYZM.
Inductive GeometryType : Type := LINEAR_RING | MULTI_POLYGON | CIRCLE.

(** A geometry object: the fields of [ol.Object] (the revision counter),
    of [Geometry] (the extent cache), of [SimpleGeometry] (layout, stride,
    the flat coordinates, which may be [null]) and of [MultiPolygon]
    ([endss_], absent on the other types). *)
Record Geometry : Type := mkGeometry {
  getType : GeometryType;
  revision_ : Z;
  extent_ : Extent;
  extentRevision_ : Z;
  layout : GeometryLayout;
  stride : nat;
  flatCoordinates : option loc;
  endss_ : option loc
}.

(** Modelled from the spec: [getStrideForLayout] of SimpleGeometry, which
    is not among the sources; "stride: number of numeric components per
    coordinate (2 for XY, up to 4 for XYZM)". *)
Definition getStrideForLayout (l : GeometryLayout) : nat :=
  match l with XY => 2 | XYZ => 3 | XYM => 3 | XYZM => 4 end.

Definition getRevision (g : Geometry) : Z := revision_ g.

(** Modelled from the spec: [changed()] of ol/Observable, which is not among
    the sources; "Revision: a monotonically increasing counter bumped on
    every mutation". *)
Definition changed (g : Geometry) : Geometry :=
  mkGeometry (getType g) (revision_ g + 1) (extent_ g) (extentRevision_ g)
    (layout g) (stride g) (flatCoordinates g) (endss_ g).

(** Modelled from the spec: [setFlatCoordinatesInternal] of SimpleGeometry,
    which is not among the sources; it "replaces the buffer", with the
    layout and the stride that goes with it. *)
Definition setFlatCoordinatesInternal (g : Geometry) (l : GeometryLayout)
    (fc : option loc) : Geometry :=
  mkGeometry (getType g) (revision_ g) (extent_ g) (extentRevision_ g)
    l (getStrideForLayout l) fc (endss_ g).

Definition set_endss_ (g : Geometry) (endss : option loc) : Geometry :=
  mkGeometry (getType g) (revision_ g) (extent_ g) (extentRevision_ g)
    (layout g) (stride g) (flatCoordinates g) endss.

Definition set_extent (g : Geometry) (e : Extent) (rev : Z) : Geometry :=
  mkGeometry (getType g) (revision_ g) e rev
    (layout g) (stride g) (flatCoordinates g) (endss_ g).

(** [setFlatCoordinates(layout, flatCoordinates)] of LinearRing and Circle,
    [setFlatCoordinates(layout, flatCoordinates, endss)] of MultiPolygon. *)
Definition setFlatCoordinates (g : Geometry) (l : GeometryLayout)
    (fc : option loc) (endss : option loc) : Geometry :=
  match getType g with
  | MULTI_POLYGON =>
      changed (set_endss_ (setFlatCoordinatesInternal g l fc) endss)
  | LINEAR_RING | CIRCLE =>
      changed (setFlatCoordinatesInternal g l fc)
  end.

(** [flatCoordinates] as numbers; nothing when it is [null]. *)
Definition coordinatesOf (h : heap) (g : Geometry) : option (list Q) :=
  l ← flatCoordinates g;
  match h !! l with Some (Numbers a) => Some a | _ => None end.

Definition numbersAt (h : heap) (l : loc) : option (list Q) :=
  match h !! l with Some (Numbers a) => Some a | _ => None end.

(** [endss_] as numbers: one list of ring ends per polygon. *)
Definition endssOf (h : heap) (g : Geometry) : option (list (list Q)) :=
  l ← endss_ g;
  match h !! l with
  | Some (Arrays ls) => mapM (numbersAt h) ls
  | _ => None
  end.

(** What a geometry holds, by value. *)
Definition valueOf (h : heap) (g : Geometry)
    : GeometryType * GeometryLayout * nat * option (list Q)
      * option (list (list Q)) :=
  (getType g, layout g, stride g, coordinatesOf h g, endssOf h g).

(** The arrays a geometry holds. *)
Definition owned (h : heap) (g : Geometry) : gset loc :=
  (match flatCoordinates g with Some l => {[l]} | None => ∅ end) ∪
  (match endss_ g with
   | Some l =>
       {[l]} ∪ (match h !! l with
                | Some (Arrays ls) => list_to_set ls
                | _ => ∅
                end)
   | None => ∅
   end).

Section Extent.

(** [createEmpty()] and [createOrUpdateFromFlatCoordinates(flatCoordinates,
    0, flatCoordinates.length, stride, extent)] of ol/extent.js, which is
    not among the sources; the second is what SimpleGeometry computes the
    extent of a ring or a multi-polygon with. *)
Variable createEmpty : Extent.
Variable createOrUpdateFromFlatCoordinates : list Q → nat → Extent.

(** [computeExtent(extent)]: of Circle, from the centre and the point to
    its right; of the other types, from all coordinates.  Nothing when the
    buffer is [null] or too short for the reads. *)
Definition computeExtent (h : heap) (g : Geometry) : option Extent :=
  a ← coordinatesOf h g;
  match getType g with
  | CIRCLE =>
      x ← a !! 0%nat; y ← a !! 1%nat; xr ← a !! stride g;
      let radius := (xr - x)%Q in
      Some (mkExtent (Fin (x - radius)) (Fin (y - radius))
                     (Fin (x + radius)) (Fin (y + radius)))
  | LINEAR_RING | MULTI_POLYGON =>
      Some (createOrUpdateFromFlatCoordinates a (stride g))
  end.

(** [getExtent()] *)
Definition getExtent (h : heap) (g : Geometry) : option (Geometry * Extent) :=
  if bool_decide (extentRevision_ g ≠ getRevision g) then
    e ← computeExtent h g;
    Some (set_extent g e (getRevision g), e)
  else Some (g, extent_ g).

(** [new LinearRing(null)], [new Circle(null)]: the fields of the
    constructors, then [setFlatCoordinates(GeometryLayout.XY, null)]. *)
Definition newSimple (ty : GeometryType) : Geometry :=
  setFlatCoordinates
    (mkGeometry ty 0 createEmpty (-1) XY 2 None None) XY None None.

(** [new MultiPolygon(null)]: [endss_] is a new empty array. *)
Definition newMultiPolygon (h : heap) : heap * Geometry :=
  let '(h, e) := alloc h (Arrays []) in
  (h, setFlatCoordinates
        (mkGeometry MULTI_POLYGON 0 createEmpty (-1) XY 2 None (Some e))
        XY None (Some e)).

(** The loop of [MultiPolygon.clone]: [newEndss[i] = this.endss_[i].slice()]. *)
Fixpoint sliceEach (h : heap) (ends : list loc) : option (heap * list loc) :=
  match ends with
  | [] => Some (h, [])
  | l :: rest =>
      '(h, l') ← slice h l;
      '(h, ls') ← sliceEach h rest;
      Some (h, l' :: ls')
  end.

(** [clone()] *)
Definition clone (h : heap) (g : Geometry) : option (heap * Geometry) :=
  match getType g with
  | LINEAR_RING | CIRCLE =>
      let c := newSimple (getType g) in
      fc ← flatCoordinates g;
      '(h, fc') ← slice h fc;
      Some (h, setFlatCoordinates c (layout g) (Some fc') None)
  | MULTI_POLYGON =>
      let '(h, multiPolygon) := newMultiPolygon h in
      e ← endss_ g;
      match h !! e with
      | Some (Arrays ends) =>
          (* new Array(len), filled by the loop *)
          let '(h, newEndss) := alloc h (Arrays []) in
          '(h, copies) ← sliceEach h ends;
          let h := <[newEndss := Arrays copies]> h in
          fc ← flatCoordinates g;
          '(h, fc') ← slice h fc;
          Some (h, setFlatCoordinates multiPolygon (layout g) (Some fc')
                     (Some newEndss))
      | _ => None
      end
  end.

(** [Circle.setRadius(radius)]: a write into the buffer, then [changed()]. *)
Definition setRadius (h : heap) (g : Geometry) (radius : Q)
    : option (heap * Geometry) :=
  fc ← flatCoordinates g;
  a ← numbersAt h fc;
  x ← a !! 0%nat;
  Some (writeAt h fc (stride g) (x + radius)%Q, changed g).

(** The cache is in step with the geometry: it was filled at a revision
    the geometry has reached, and when that is the current one it holds
    the extent of the current coordinates. *)
Definition cache_ok (h : heap) (g : Geometry) : Prop :=
  (extentRevision_ g ≤ revision_ g)%Z ∧
  (extentRevision_ g = revision_ g → computeExtent h g = Some (extent_ g)).


(** *** The heap under allocation *)

Lemma alloc_spec h c h' l :
  alloc h c = (h', l) →
  (l ∉ dom h) ∧ h' = <[l := c]> h ∧ h ⊆ h' ∧ dom h' = {[l]} ∪ dom h.
Proof.
  unfold alloc. intros [= <- <-].
  assert (Hf : fresh (dom h) ∉ dom h) by apply is_fresh.
  split; [done |]. split; [done |]. split.
  - apply insert_subseteq. by apply not_elem_of_dom.
  - apply dom_insert_L.
Qed.





(** *** What a geometry holds depends on its own arrays only *)






(** *** [clone] copies every array *)





Lemma cache_ok_changed h h' g : cache_ok h g → cache_ok h' (changed g).
Proof. intros [Hle _]. split; simpl; lia. Qed.

Lemma getExtent_stale h g :
  extentRevision_ g ≠ revision_ g →
  getExtent h g =
    (e ← computeExtent h g; Some (set_extent g e (revision_ g), e)).
Proof.
  intros Hne. unfold getExtent, getRevision. by rewrite bool_decide_eq_true_2.
Qed.

Lemma getExtent_in_step h g e :
  cache_ok h g → computeExtent h g = Some e →
  ∃ g', getExtent h g = Some (g', e) ∧
        extent_ g' = e ∧ extentRevision_ g' = revision_ g' ∧
        revision_ g' = revision_ g ∧ valueOf h g' = valueOf h g ∧
        cache_ok h g'.
Proof.
  intros [Hle Hok] He. unfold getExtent, getRevision. case_bool_decide as Hrev.
  - rewrite He. simpl. eexists. split; [done |]. simpl.
    repeat split; first [done | simpl; lia].
  - specialize (Hok Hrev). rewrite He in Hok. injection Hok as ->.
    exists g. repeat split; try done.
Qed.

(** C6: [getExtent] hands out the cached extent exactly when the stored
    revision equals the geometry's revision, and then recomputes nothing;
    otherwise it recomputes with [computeExtent] and stores the result with
    the current revision.  On a geometry whose cache is in step, what it
    returns is therefore the extent of the current coordinates, and it
    returns one whenever [computeExtent] does.  [setFlatCoordinates] bumps
    the revision, so the next [getExtent] recomputes from the new
    coordinates, whatever was cached. *)
Theorem getExtent_cache h g :
  (extentRevision_ g = revision_ g → getExtent h g = Some (g, extent_ g)) ∧
  (extentRevision_ g ≠ revision_ g →
   getExtent h g =
     (e ← computeExtent h g; Some (set_extent g e (revision_ g), e))) ∧
  (cache_ok h g →
   (∀ e, computeExtent h g = Some e →
      ∃ g', getExtent h g = Some (g', e) ∧
            extent_ g' = e ∧ extentRevision_ g' = revision_ g' ∧
            revision_ g' = revision_ g ∧ valueOf h g' = valueOf h g ∧
            cache_ok h g') ∧
   (∀ g' e, getExtent h g = Some (g', e) → computeExtent h g = Some e) ∧
   (∀ h2 l fc endss,
      let g2 := setFlatCoordinates g l fc endss in
      revision_ g2 = (revision_ g + 1)%Z ∧
      extentRevision_ g2 ≠ revision_ g2 ∧
      cache_ok h2 g2 ∧
      getExtent h2 g2 =
        (e ← computeExtent h2 g2; Some (set_extent g2 e (revision_ g2), e)))).
Proof.
  split; [| split].
  - intros Heq. unfold getExtent, getRevision.
    by rewrite bool_decide_eq_false_2 by (intros Hne; by apply Hne).
  - apply getExtent_stale.
  - intros Hcache. pose proof Hcache as [Hle Hok]. split; [| split].
    + intros e He. by apply getExtent_in_step.
    + intros g' e. unfold getExtent, getRevision. case_bool_decide as Hrev.
      * destruct (computeExtent h g) as [e'|]; simpl; [| done].
        by intros [= _ <-].
      * intros [= <- <-]. by apply Hok.
    + intros h2 l fc endss g2.
      assert (Hrev : revision_ g2 = (revision_ g + 1)%Z ∧
                     extentRevision_ g2 = extentRevision_ g).
      { unfold g2, setFlatCoordinates. by destruct (getType g). }
      destruct Hrev as [Hr He].
      split; [done |]. split; [lia |]. split; [split; lia |].
      unfold getExtent, getRevision. rewrite bool_decide_eq_true_2; [done | lia].
Qed.


End Extent.

(** *** A circle and a square on the heap *)

(** An extent function for the examples: the box around the first two
    components of the coordinates. *)
Definition boxOf (a : list Q) (stride : nat) : Extent :=
  let at_ (k : nat) := omap (λ i, a !! (i * stride + k)%nat)
                            (seq 0 (length a `div` stride)) in
  mkExtent (foldr (λ q, Math_min (Fin q)) PosInf (at_ 0%nat))
           (foldr (λ q, Math_min (Fin q)) PosInf (at_ 1%nat))
           (foldr (λ q, Math_max (Fin q)) NegInf (at_ 0%nat))
           (foldr (λ q, Math_max (Fin q)) NegInf (at_ 1%nat)).

Definition emptyExtent : Extent := mkExtent PosInf PosInf NegInf NegInf.

(** The circle of radius 3 around (1, 2), never asked for its extent. *)
Definition circleHeap : gmap positive cell :=
  <[1%positive := Numbers [1; 2; 4; 2]%Q]> ∅.

Definition circle : Geometry :=
  mkGeometry CIRCLE 1 emptyExtent (-1) XY 2 (Some 1%positive) None.



(** A ring built with [new LinearRing(null)]: no buffer. *)
Definition nullRing : Geometry := newSimple emptyExtent LINEAR_RING.

(** Without a buffer there is nothing to copy: [this.flatCoordinates.slice()]
    throws. *)
Example clone_without_buffer : clone emptyExtent ∅ nullRing = None.
Proof. reflexivity. Qed.

(** [setRadius] on the clone of the circle writes into the clone's buffer;
    the circle keeps its radius and its extent. *)
Example setRadius_on_clone :
  ∃ h' c h2 c2,
    clone emptyExtent circleHeap circle = Some (h', c) ∧
    setRadius h' c 5 = Some (h2, c2) ∧
    coordinatesOf h2 c2 = Some [1; 2; 6; 2]%Q ∧
    coordinatesOf h2 circle = Some [1; 2; 4; 2]%Q ∧
    snd <$> getExtent boxOf h2 circle
      = Some (mkExtent (Fin (-2)) (Fin (-1)) (Fin 4) (Fin 5)).
Proof. eexists _, _, _, _. repeat split; reflexivity. Qed.

Lemma getExtent_cache_witness :
  ∃ g', getExtent boxOf circleHeap circle
        = Some (g', mkExtent (Fin (-2)) (Fin (-1)) (Fin 4) (Fin 5)) ∧
        extentRevision_ g' = revision_ g'.
Proof.
  destruct (getExtent_cache boxOf circleHeap circle) as (_ & _ & Hok).
  destruct Hok as (Hcomputed & _ & _).
  - split; [simpl; lia | discriminate].
  - destruct (Hcomputed (mkExtent (Fin (-2)) (Fin (-1)) (Fin 4) (Fin 5)))
      as (g' & Hg & _ & Hrev & _); [reflexivity |].
    by exists g'.
Defined.


End Geom.

(** ** ol/geom/Circle: centre, radius and containment *)

Module Circle.
Import Num Geom.









Section Extent.

Variable createOrUpdateFromFlatCoordinates : list Q → nat → Extent.

Abbreviation computeExtent :=
  (computeExtent createOrUpdateFromFlatCoordinates).









End Extent.

(** *** The circle of radius 3 around (1, 2) *)







End Circle.

(** ** ol/geom/MultiPolygon: polygons in and out *)

Module MultiPolygon.
Import Num Geom.

(** *** Numbers as array indices *)

(** A length as a number. *)
Definition ofNat (n : nat) : Q := inject_Z (Z.of_nat n).

(** The integer a number stands for where an index is wanted: its
    fraction is dropped. *)
Definition toInteger (q : Q) : Z :=
  if Qlt_le_dec q 0 then Qceiling q else Qfloor q.

(** A bound of [slice] within an array of length [len]: counted from the
    end when negative, and kept within the array. *)
Definition clampIndex (len : nat) (k : Z) : nat :=
  if (k <? 0)%Z then Z.to_nat (Z.max (Z.of_nat len + k) 0)
  else Z.to_nat (Z.min k (Z.of_nat len)).

(** [a.slice(start, end)]; a bound that is [undefined] is the array's. *)
Definition sliceBetween (a : list Q) (start end_ : option Q) : list Q :=
  let len := length a in
  let from :=
    match start with Some q => clampIndex len (toInteger q) | None => 0%nat end in
  let to :=
    match end_ with Some q => clampIndex len (toInteger q) | None => len end in
  take (to - from) (drop from a).

(** [a[index]] for a number [index]: an element only at a whole number
    within the array. *)
Definition elementAt {A} (a : list A) (index : Q) : option A :=
  if Qeq_bool (inject_Z (Qfloor index)) index && (0 <=? Qfloor index)%Z
  then a !! Z.to_nat (Qfloor index)
  else None.

Definition arraysAt (h : gmap positive cell) (l : positive)
    : option (list positive) :=
  match h !! l with Some (Arrays ls) => Some ls | _ => None end.

(** *** Polygons *)

(** Modelled from the spec: [ol.geom.Polygon], which is not among the
    sources; "Polygon (flat coordinates + ends: ordered sequence marking the
    end offset of each ring within the flat array)".  What MultiPolygon
    uses of it: [getLayout()], [getFlatCoordinates()], [getEnds()], and
    [new Polygon(null)] followed by
    [setFlatCoordinates(layout, flatCoordinates, ends)]. *)
Record Polygon : Type := mkPolygon {
  getLayout : GeometryLayout;
  getFlatCoordinates : option positive;
  getEnds : positive
}.

(** Modelled from the spec: [new Polygon(null)], a polygon with a new,
    empty array of ends and no coordinates. *)
Definition newPolygon (h : gmap positive cell)
    : gmap positive cell * Polygon :=
  let '(h, ends) := alloc h (Numbers []) in (h, mkPolygon XY None ends).

(** Modelled from the spec: "setFlatCoordinates(layout, coords, [ends|endss])
    replaces the buffer"; the arrays handed in are the polygon's from then
    on. *)
Definition polygon_setFlatCoordinates (p : Polygon) (layout : GeometryLayout)
    (flatCoordinates : option positive) (ends : positive) : Polygon :=
  mkPolygon layout flatCoordinates ends.

(** What a polygon holds, by value. *)
Definition polygonValue (h : gmap positive cell) (p : Polygon)
    : GeometryLayout * option (list Q) * option (list Q) :=
  (getLayout p, getFlatCoordinates p ≫= numbersAt h, numbersAt h (getEnds p)).

(** *** [getPolygon] and [getPolygons] *)

(** [offset !== 0], for an offset that may be [undefined]. *)
Definition nonZero (offset : option Q) : bool :=
  match offset with Some o => negb (Qeq_bool o 0) | None => true end.

(** The loop [ends[i] -= offset].  Nothing when a number would have
    [undefined] taken off it, which gives NaN. *)
Definition takeOff (offset : option Q) (ends : list Q) : option (list Q) :=
  if nonZero offset then
    match offset, ends with
    | Some o, _ => Some ((λ v, (v - o)%Q) <$> ends)
    | None, [] => Some []
    | None, _ :: _ => None
    end
  else Some ends.

(** What [getPolygon] and the loop of [getPolygons] do alike, from the
    copy of the polygon's [ends] to [polygon.setFlatCoordinates]; [end] is
    handed back for the next turn.  Nothing on a TypeError (a null buffer,
    an [ends] that is no array) and where the arrays would take NaN. *)
Definition polygonAt (g : Geometry) (h : gmap positive cell) (e : positive)
    (offset : option Q)
    : option (gmap positive cell * Polygon * option Q) :=
  '(h, ends) ← slice h e;
  a ← numbersAt h ends;
  let end_ := last a in
  a ← takeOff offset a;
  let h := <[ends := Numbers a]> h in
  let '(h, polygon) := newPolygon h in
  fc ← flatCoordinates g;
  fa ← numbersAt h fc;
  let '(h, flat) := alloc h (Numbers (sliceBetween fa offset end_)) in
  Some (h, polygon_setFlatCoordinates polygon (layout g) (Some flat) ends,
        end_).

Fixpoint getPolygonsLoop (g : Geometry) (endss : list positive)
    (offset : option Q) (h : gmap positive cell)
    : option (gmap positive cell * list Polygon) :=
  match endss with
  | [] => Some (h, [])
  | e :: rest =>
      '(h, polygon, end_) ← polygonAt g h e offset;
      '(h, polygons) ← getPolygonsLoop g rest end_ h;
      Some (h, polygon :: polygons)
  end.

(** [getPolygons()] *)
Definition getPolygons (h : gmap positive cell) (g : Geometry)
    : option (gmap positive cell * list Polygon) :=
  e ← endss_ g;
  endss ← arraysAt h e;
  getPolygonsLoop g endss (Some 0%Q) h.

(** [getPolygon(index)]; the answer is [null] for an index outside the
    array. *)
Definition getPolygon (h : gmap positive cell) (g : Geometry) (index : Q)
    : option (gmap positive cell * option Polygon) :=
  if Qlt_le_dec index 0 then Some (h, None)
  else
  e ← endss_ g;
  endss ← arraysAt h e;
  if Qlt_le_dec index (ofNat (length endss)) then
    offset ←
      (if Qeq_bool index 0 then Some (Some 0%Q)
       else
         prevEnds ← elementAt endss (index - 1);
         prev ← numbersAt h prevEnds;
         Some (last prev));
    cur ← elementAt endss index;
    '(h, polygon, _) ← polygonAt g h cur offset;
    Some (h, Some polygon)
  else Some (h, None).

(** *** [setPolygons] and [appendPolygon] *)

(** What the loop of [setPolygons] carries: [layout] and the two arrays
    under construction. *)
Record Gathering : Type := mkGathering {
  g_layout : GeometryLayout;
  g_flatCoordinates : positive;
  g_endss : positive
}.

(** The loop of [setPolygons], entered at index [i].  The [ends] array of
    each polygon is shifted in place and is itself pushed onto [endss].
    [extend(arr, data)] of ol/array.js, which is not among the sources, adds
    the elements of [data] at the end of [arr].  Nothing on a TypeError and
    for a polygon without coordinates, whose [null] would be added to the
    numbers. *)
Fixpoint setPolygonsLoop (polygons : list Polygon) (i : nat) (s : Gathering)
    (h : gmap positive cell) : option (gmap positive cell * Gathering) :=
  match polygons with
  | [] => Some (h, s)
  | polygon :: rest =>
      let layout := if decide (i = 0%nat) then getLayout polygon
                    else g_layout s in
      flat ← numbersAt h (g_flatCoordinates s);
      let offset := ofNat (length flat) in
      let ends := getEnds polygon in
      a ← numbersAt h ends;
      let h := <[ends := Numbers ((λ v, (v + offset)%Q) <$> a)]> h in
      (* extend(flatCoordinates, polygon.getFlatCoordinates()) *)
      pf ← getFlatCoordinates polygon;
      extension ← numbersAt h pf;
      flat ← numbersAt h (g_flatCoordinates s);
      let h := <[g_flatCoordinates s := Numbers (flat ++ extension)]> h in
      endss ← arraysAt h (g_endss s);
      let h := <[g_endss s := Arrays (endss ++ [ends])]> h in
      setPolygonsLoop rest (S i)
        (mkGathering layout (g_flatCoordinates s) (g_endss s)) h
  end.

(** [setPolygons(polygons)] *)
Definition setPolygons (h : gmap positive cell) (g : Geometry)
    (polygons : list Polygon) : option (gmap positive cell * Geometry) :=
  let layout := layout g in
  let '(h, flatCoordinates) := alloc h (Numbers []) in
  let '(h, endss) := alloc h (Arrays []) in
  '(h, s) ← setPolygonsLoop polygons 0
            (mkGathering layout flatCoordinates endss) h;
  Some (h, setFlatCoordinates g (g_layout s) (Some flatCoordinates)
             (Some endss)).

Definition set_flatCoordinates (g : Geometry) (fc : option positive)
    : Geometry :=
  mkGeometry (getType g) (revision_ g) (extent_ g) (extentRevision_ g)
    (layout g) (stride g) fc (endss_ g).

(** [appendPolygon(polygon)] *)
Definition appendPolygon (h : gmap positive cell) (g : Geometry)
    (polygon : Polygon) : option (gmap positive cell * Geometry) :=
  '(h, g, ends) ←
    match flatCoordinates g with
    | None =>
        pf ← getFlatCoordinates polygon;
        '(h, fc) ← slice h pf;
        '(h, ends) ← slice h (getEnds polygon);
        (* this.endss_.push() pushes nothing *)
        Some (h, set_flatCoordinates g (Some fc), ends)
    | Some fc =>
        flat ← numbersAt h fc;
        let offset := ofNat (length flat) in
        pf ← getFlatCoordinates polygon;
        extension ← numbersAt h pf;
        let h := <[fc := Numbers (flat ++ extension)]> h in
        '(h, ends) ← slice h (getEnds polygon);
        a ← numbersAt h ends;
        let h := <[ends := Numbers ((λ v, (v + offset)%Q) <$> a)]> h in
        Some (h, g, ends)
    end;
  e ← endss_ g;
  endss ← arraysAt h e;
  let h := <[e := Arrays (endss ++ [ends])]> h in
  Some (h, changed g).

(** *** Whole numbers as bounds *)

Lemma toInteger_ofNat q n : (q == ofNat n)%Q → toInteger q = Z.of_nat n.
Proof.
  intros Hq. unfold toInteger.
  assert (Hnn : (0 <= q)%Q).
  { rewrite Hq. unfold ofNat. rewrite <- (Zle_Qle 0). lia. }
  destruct (Qlt_le_dec q 0) as [Hlt|Hle]; [by apply Qlt_not_le in Hlt |].
  rewrite (Qfloor_comp _ _ Hq). apply Qfloor_Z.
Qed.

Lemma clampIndex_nat len n : clampIndex len (Z.of_nat n) = (n `min` len)%nat.
Proof.
  unfold clampIndex. destruct (Z.ltb_spec (Z.of_nat n) 0); lia.
Qed.

Lemma sliceBetween_window a o e n m :
  (o == ofNat n)%Q → (e == ofNat m)%Q →
  (n ≤ m)%nat → (m ≤ length a)%nat →
  sliceBetween a (Some o) (Some e) = take (m - n) (drop n a).
Proof.
  intros Ho He Hnm Hm. unfold sliceBetween.
  rewrite (toInteger_ofNat _ _ Ho), (toInteger_ofNat _ _ He).
  rewrite !clampIndex_nat.
  by rewrite (Nat.min_l n), (Nat.min_l m) by lia.
Qed.

(** *** One polygon out of the arrays *)

Lemma polygonAt_spec g h e offset ea ea' fc fa :
  h !! e = Some (Numbers ea) →
  flatCoordinates g = Some fc →
  h !! fc = Some (Numbers fa) →
  takeOff offset ea = Some ea' →
  ∃ h' ends flat,
    polygonAt g h e offset
    = Some (h', mkPolygon (layout g) (Some flat) ends, last ea) ∧
    h ⊆ h' ∧ (ends ∉ dom h) ∧ (flat ∉ dom h) ∧ flat ≠ ends ∧
    h' !! ends = Some (Numbers ea') ∧
    h' !! flat = Some (Numbers (sliceBetween fa offset (last ea))).
Proof.
  intros He Hfc Hfa Htake.
  destruct (alloc h (Numbers ea)) as [h1 ends] eqn:Ha1.
  pose proof (alloc_spec _ _ _ _ Ha1) as (Hf1 & Hh1 & Hsub1 & Hdom1).
  set (h2 := <[ends := Numbers ea']> h1).
  destruct (alloc h2 (Numbers [])) as [h3 garbage] eqn:Ha3.
  pose proof (alloc_spec _ _ _ _ Ha3) as (Hf3 & Hh3 & Hsub3 & Hdom3).
  destruct (alloc h3 (Numbers (sliceBetween fa offset (last ea))))
    as [h4 flat] eqn:Ha4.
  pose proof (alloc_spec _ _ _ _ Ha4) as (Hf4 & Hh4 & Hsub4 & Hdom4).
  assert (Hdom2 : dom h2 = {[ends]} ∪ dom h).
  { unfold h2. rewrite dom_insert_L, Hdom1. set_solver. }
  assert (Hfcd : fc ∈ dom h) by by eapply elem_of_dom_2.
  assert (Hn1 : numbersAt h1 ends = Some ea).
  { unfold numbersAt. by rewrite Hh1, lookup_insert_eq. }
  assert (Hn3 : numbersAt h3 fc = Some fa).
  { unfold numbersAt. rewrite Hh3, lookup_insert_ne by set_solver.
    unfold h2. rewrite lookup_insert_ne by set_solver.
    rewrite Hh1, lookup_insert_ne by set_solver. by rewrite Hfa. }
  exists h4, ends, flat. split.
  { unfold polygonAt, slice. rewrite He. cbn [mbind option_bind].
    rewrite Ha1. cbn [mbind option_bind]. rewrite Hn1.
    cbn [mbind option_bind]. rewrite Htake. cbn [mbind option_bind].
    fold h2. unfold newPolygon. rewrite Ha3. rewrite Hfc.
    cbn [mbind option_bind]. rewrite Hn3. cbn [mbind option_bind].
    by rewrite Ha4. }
  split.
  { etrans; [| exact Hsub4]. etrans; [| exact Hsub3].
    unfold h2. rewrite Hh1, insert_insert_eq.
    apply insert_subseteq. by apply not_elem_of_dom. }
  split; [done |]. split; [set_solver |]. split; [set_solver |]. split.
  - rewrite Hh4, lookup_insert_ne by set_solver.
    rewrite Hh3, lookup_insert_ne by set_solver.
    unfold h2. by rewrite lookup_insert_eq.
  - by rewrite Hh4, lookup_insert_eq.
Qed.

(** *** All polygons out of the arrays *)

(** What [getPolygons] reads off the flat coordinates [fa] and the ends
    [endss], by value: for each polygon its coordinates and its ends. *)
Fixpoint pieces (fa : list Q) (endss : list (list Q)) (offset : option Q)
    : option (list (list Q * list Q)) :=
  match endss with
  | [] => Some []
  | ea :: rest =>
      ea' ← takeOff offset ea;
      ps ← pieces fa rest (last ea);
      Some ((sliceBetween fa offset (last ea), ea') :: ps)
  end.

(** A polygon made by [getPolygon] or [getPolygons] in a heap that grew
    from [h] to [h']: the layout of the multi-polygon, and two arrays that
    [h] did not have, holding the values [v]. *)
Definition madeFrom (g : Geometry) (h h' : gmap positive cell)
    (p : Polygon) (v : list Q * list Q) : Prop :=
  getLayout p = layout g ∧
  ∃ flat, getFlatCoordinates p = Some flat ∧
          (flat ∉ dom h) ∧ (getEnds p ∉ dom h) ∧ flat ≠ getEnds p ∧
          flat ∈ dom h' ∧ getEnds p ∈ dom h' ∧
          h' !! flat = Some (Numbers v.1) ∧
          h' !! getEnds p = Some (Numbers v.2).

Lemma madeFrom_weaken g h0 h h' h'' p v :
  h0 ⊆ h → h' ⊆ h'' → madeFrom g h h' p v → madeFrom g h0 h'' p v.
Proof.
  intros H0 H1 (Hl & flat & Hf & Hn1 & Hn2 & Hne & Hd1 & Hd2 & Hv1 & Hv2).
  split; [done |]. exists flat. split; [done |].
  pose proof (subseteq_dom _ _ H0). pose proof (subseteq_dom _ _ H1).
  split; [set_solver |]. split; [set_solver |]. split; [done |].
  split; [set_solver |]. split; [set_solver |].
  split; by eapply lookup_weaken.
Qed.

(** The arrays of a polygon. *)
Definition arraysOf (p : Polygon) : list positive :=
  getEnds p :: option_list (getFlatCoordinates p).

Lemma getPolygonsLoop_spec g fc fa es : ∀ offset h eas vs,
  flatCoordinates g = Some fc →
  h !! fc = Some (Numbers fa) →
  Forall2 (λ e ea, h !! e = Some (Numbers ea)) es eas →
  pieces fa eas offset = Some vs →
  ∃ h' ps,
    getPolygonsLoop g es offset h = Some (h', ps) ∧
    h ⊆ h' ∧
    Forall2 (madeFrom g h h') ps vs ∧
    NoDup (ps ≫= arraysOf).
Proof.
  induction es as [|e es IH]; intros offset h eas vs Hfc Hfa Hes Hvs.
  - apply Forall2_nil_inv_l in Hes as ->. simpl in Hvs.
    injection Hvs as <-. exists h, []. simpl.
    split; [done |]. split; [done |]. split; constructor.
  - apply Forall2_cons_inv_l in Hes as (ea & eas' & He & Hes & ->).
    simpl in Hvs.
    destruct (takeOff offset ea) as [ea'|] eqn:Htake; simpl in Hvs; [| done].
    destruct (pieces fa eas' (last ea)) as [vs'|] eqn:Hrest; simpl in Hvs;
      [| done].
    injection Hvs as <-.
    destruct (polygonAt_spec g h e offset ea ea' fc fa He Hfc Hfa Htake)
      as (h1 & ends & flat & Hrun & Hsub1 & Hnew1 & Hnew2 & Hne & Hv2 & Hv1).
    destruct (IH (last ea) h1 eas' vs' Hfc) as (h' & ps & Hloop & Hsub & Hall & Hnd).
    { by eapply lookup_weaken. }
    { eapply Forall2_impl; [exact Hes |]. intros x y Hx. cbv beta in *.
      exact (lookup_weaken _ _ _ _ Hx Hsub1). }
    { done. }
    exists h', (mkPolygon (layout g) (Some flat) ends :: ps).
    split.
    { simpl. rewrite Hrun. cbn [mbind option_bind]. rewrite Hloop. done. }
    split; [by etrans |]. split.
    + constructor.
      * apply (madeFrom_weaken g h h h1 h'); [done | done |].
        split; [done |]. exists flat. simpl.
        split; [done |]. split; [done |]. split; [done |]. split; [done |].
        split; [by eapply elem_of_dom_2 |].
        split; [by eapply elem_of_dom_2 |]. done.
      * eapply Forall2_impl; [exact Hall |]. intros p v Hp.
        by apply (madeFrom_weaken g h h1 h' h').
    + rewrite bind_cons. apply NoDup_app. split; [| split; [| done]].
      * unfold arraysOf. simpl. apply NoDup_cons. split; [| apply NoDup_singleton].
        intros Hin. apply list_elem_of_singleton in Hin. done.
      * intros l Hl Hl'.
        apply list_elem_of_bind in Hl' as (p & Hlp & Hp).
        apply list_elem_of_lookup in Hp as [i Hp].
        destruct (Forall2_lookup_l _ _ _ _ _ Hall Hp) as (v & _ & Hmade).
        destruct Hmade as (_ & fl & Hfl & Hn1 & Hn2 & _).
        assert (Hl1 : l ∈ dom h1).
        { unfold arraysOf in Hl. simpl in Hl.
          apply elem_of_cons in Hl as [->|Hl]; [by eapply elem_of_dom_2 |].
          apply list_elem_of_singleton in Hl as ->.
          by eapply elem_of_dom_2. }
        unfold arraysOf in Hlp. rewrite Hfl in Hlp. simpl in Hlp.
        apply elem_of_cons in Hlp as [->|Hlp]; [done |].
        apply list_elem_of_singleton in Hlp as ->. done.
Qed.

(** *** Polygons by value, put together and taken apart *)

(** The ends [setPolygons] leaves, for polygons given by value, the
    coordinates before them being [off] long. *)
Fixpoint shiftedEnds (off : nat) (vs : list (list Q * list Q))
    : list (list Q) :=
  match vs with
  | [] => []
  | v :: rest =>
      ((λ x, (x + ofNat off)%Q) <$> v.2)
        :: shiftedEnds (off + length v.1) rest
  end.

(** The last end of a polygon is the length of its coordinates. *)
Definition closed (v : list Q * list Q) : Prop :=
  ∃ e, last v.2 = Some e ∧ (e == ofNat (length v.1))%Q.

(** The same polygon by value, its ends equal as numbers. *)
Definition sameValue (w v : list Q * list Q) : Prop :=
  w.1 = v.1 ∧ Forall2 Qeq w.2 v.2.

Lemma ofNat_plus a b : (ofNat (a + b) == ofNat a + ofNat b)%Q.
Proof.
  unfold ofNat. rewrite Nat2Z.inj_add, inject_Z_plus. reflexivity.
Qed.

Lemma takeOff_shifted o off e :
  (o == ofNat off)%Q →
  ∃ e', takeOff (Some o) ((λ x, (x + ofNat off)%Q) <$> e) = Some e' ∧
        Forall2 Qeq e' e.
Proof.
  generalize (ofNat off). intros k Ho. unfold takeOff, nonZero.
  destruct (Qeq_bool o 0) eqn:Hz; cbn [negb].
  - apply Qeq_bool_iff in Hz. eexists. split; [reflexivity |].
    apply Forall2_fmap_l, Forall_Forall2_diag, Forall_forall.
    intros x _. unfold compose. cbv beta. lra.
  - eexists. split; [reflexivity |].
    rewrite <- list_fmap_compose.
    apply Forall2_fmap_l, Forall_Forall2_diag, Forall_forall.
    intros x _. cbv beta. unfold compose. lra.
Qed.

Lemma pieces_shifted post : ∀ vs pre o,
  (o == ofNat (length pre))%Q →
  Forall closed vs →
  ∃ ws,
    pieces (pre ++ concat vs.*1 ++ post) (shiftedEnds (length pre) vs) (Some o)
    = Some ws ∧
    Forall2 sameValue ws vs.
Proof.
  induction vs as [|[a e] vs IH]; intros pre o Ho Hcl.
  - exists []. split; [done | constructor].
  - apply Forall_cons in Hcl as [(le & Hlast & Hle) Hcl]. simpl in Hlast, Hle.
    cbn [shiftedEnds pieces fst snd].
    destruct (takeOff_shifted o (length pre) e Ho) as (e' & Htake & He').
    rewrite Htake. cbn [mbind option_bind].
    assert (Hnext : last ((λ x, (x + ofNat (length pre))%Q) <$> e)
                    = Some (le + ofNat (length pre))%Q).
    { by rewrite fmap_last, Hlast. }
    rewrite Hnext.
    assert (Hend : (le + ofNat (length pre) == ofNat (length (pre ++ a)))%Q).
    { rewrite length_app, ofNat_plus, Hle. ring. }
    rewrite fmap_cons, concat_cons. cbn [fst].
    assert (Hfa : pre ++ (a ++ concat vs.*1) ++ post
                  = (pre ++ a) ++ concat vs.*1 ++ post).
    { by rewrite <- !app_assoc. }
    destruct (IH (pre ++ a) (le + ofNat (length pre))%Q Hend Hcl)
      as (ws & Hws & Hsame).
    rewrite Hfa. rewrite length_app in Hws. rewrite Hws.
    cbn [mbind option_bind]. eexists. split; [reflexivity |].
    constructor; [| done]. split; [| done]. cbn [fst].
    rewrite (sliceBetween_window _ _ _ (length pre) (length (pre ++ a)) Ho Hend).
    + rewrite length_app.
      replace (length pre + length a - length pre)%nat with (length a) by lia.
      rewrite <- app_assoc. rewrite drop_app_length.
      by rewrite take_app_length.
    + rewrite length_app. lia.
    + rewrite !length_app. lia.
Qed.

(** *** Polygons into the arrays *)

(** The polygon has its two arrays in the heap, holding the values [v]. *)
Definition held (h : gmap positive cell) (p : Polygon) (v : list Q * list Q)
    : Prop :=
  ∃ f, getFlatCoordinates p = Some f ∧
       h !! f = Some (Numbers v.1) ∧
       h !! getEnds p = Some (Numbers v.2).

(** No array of coordinates is at the same time the [ends] of one of the
    polygons, and no two polygons have the same [ends]. *)
Definition separate (ps : list Polygon) : Prop :=
  NoDup (getEnds <$> ps) ∧
  ∀ p f, p ∈ ps → getFlatCoordinates p = Some f → f ∉ getEnds <$> ps.

Lemma separate_tail p ps : separate (p :: ps) → separate ps.
Proof.
  intros [Hnd Hf]. rewrite fmap_cons in Hnd.
  apply NoDup_cons in Hnd as [_ Hnd]. split; [done |].
  intros q f Hq Hqf Hin. apply (Hf q f); [by right | done |].
  rewrite fmap_cons. by right.
Qed.

Lemma setPolygonsLoop_spec fl es : ∀ ps vs i layout h pre esl,
  Forall2 (held h) ps vs →
  separate ps →
  fl ≠ es →
  (∀ p, p ∈ ps → getEnds p ≠ fl ∧ getEnds p ≠ es ∧
                 getFlatCoordinates p ≠ Some fl ∧
                 getFlatCoordinates p ≠ Some es) →
  h !! fl = Some (Numbers pre) →
  h !! es = Some (Arrays esl) →
  ∃ h',
    setPolygonsLoop ps i (mkGathering layout fl es) h
    = Some (h', mkGathering
                  (match ps with
                   | p :: _ => if decide (i = 0%nat) then getLayout p else layout
                   | [] => layout
                   end) fl es) ∧
    h' !! fl = Some (Numbers (pre ++ concat vs.*1)) ∧
    h' !! es = Some (Arrays (esl ++ (getEnds <$> ps))) ∧
    Forall2 (λ p w, h' !! getEnds p = Some (Numbers w)) ps
      (shiftedEnds (length pre) vs) ∧
    (∀ l, l ≠ fl → l ≠ es → l ∉ getEnds <$> ps → h' !! l = h !! l).
Proof.
  induction ps as [|p ps IH]; intros vs i layout h pre esl Hheld Hsep Hne Hap Hfl Hes.
  - apply Forall2_nil_inv_l in Hheld as ->. exists h. simpl.
    rewrite !app_nil_r. repeat split; try done.
  - apply Forall2_cons_inv_l in Hheld as ([a e] & vs' & Hp & Hheld & ->).
    destruct Hp as (f & Hf & Hfa & Hpe). simpl in Hfa, Hpe.
    destruct (Hap p) as (Hpfl & Hpes & Hffl & Hfes); [by left |].
    pose proof Hsep as [Hnd Hflat]. rewrite fmap_cons in Hnd.
    apply NoDup_cons in Hnd as [Hpnew Hnd].
    assert (Hfne : f ≠ getEnds p).
    { intros ->. apply (Hflat p (getEnds p)); [by left | done |].
      rewrite fmap_cons. by left. }
    assert (Hffl' : f ≠ fl) by congruence.
    assert (Hfes' : f ≠ es) by congruence.
    set (shifted := (λ v, (v + ofNat (length pre))%Q) <$> e).
    set (h1 := <[getEnds p := Numbers shifted]> h).
    set (h2 := <[fl := Numbers (pre ++ a)]> h1).
    set (h3 := <[es := Arrays (esl ++ [getEnds p])]> h2).
    assert (Hstep :
      setPolygonsLoop (p :: ps) i (mkGathering layout fl es) h
      = setPolygonsLoop ps (S i)
          (mkGathering (if decide (i = 0%nat) then getLayout p else layout)
             fl es) h3).
    { cbn [setPolygonsLoop g_flatCoordinates g_endss g_layout].
      assert (H0 : numbersAt h fl = Some pre).
      { unfold numbersAt. by rewrite Hfl. }
      assert (H0' : numbersAt h (getEnds p) = Some e).
      { unfold numbersAt. by rewrite Hpe. }
      rewrite H0. cbn [mbind option_bind].
      rewrite H0'. cbn [mbind option_bind].
      rewrite Hf. cbn [mbind option_bind]. fold shifted. fold h1.
      assert (H1 : numbersAt h1 f = Some a).
      { unfold numbersAt, h1. rewrite lookup_insert_ne by done. by rewrite Hfa. }
      assert (H2 : numbersAt h1 fl = Some pre).
      { unfold numbersAt, h1. rewrite lookup_insert_ne by done. by rewrite Hfl. }
      rewrite H1. cbn [mbind option_bind]. rewrite H2.
      cbn [mbind option_bind]. fold h2.
      assert (H3 : arraysAt h2 es = Some esl).
      { unfold arraysAt, h2, h1. rewrite lookup_insert_ne by done.
        rewrite lookup_insert_ne by done. by rewrite Hes. }
      rewrite H3. cbn [mbind option_bind]. done. }
    destruct (IH vs' (S i) (if decide (i = 0%nat) then getLayout p else layout)
                h3 (pre ++ a) (esl ++ [getEnds p]))
      as (h' & Hrun & Hfl' & Hes' & Hends & Hframe).
    { apply Forall2_same_length_lookup_2; [by eapply Forall2_length |].
      intros k q v Hkq Hkv.
      pose proof (Forall2_lookup_lr _ _ _ _ _ _ Hheld Hkq Hkv)
        as (fq & Hfq & Hfqa & Hqe).
      assert (Hq : q ∈ ps) by by eapply list_elem_of_lookup_2.
      destruct (Hap q) as (Hqfl & Hqes & Hqffl & Hqfes); [by right |].
      assert (Hqne : getEnds q ≠ getEnds p).
      { intros Heq. apply Hpnew. rewrite <- Heq.
        by apply list_elem_of_fmap_2. }
      assert (Hfqne : fq ≠ getEnds p).
      { intros ->. apply (Hflat q (getEnds p)); [by right | done |].
        rewrite fmap_cons. by left. }
      exists fq. split; [done |]. unfold h3, h2, h1.
      rewrite !lookup_insert_ne by congruence. done. }
    { by eapply separate_tail. }
    { done. }
    { intros q Hq. apply Hap. by right. }
    { unfold h3, h2. rewrite lookup_insert_ne by done.
      by rewrite lookup_insert_eq. }
    { unfold h3. by rewrite lookup_insert_eq. }
    exists h'. rewrite Hstep.
    split.
    { rewrite Hrun. do 2 f_equal.
      destruct ps as [|q ps']; [done |]. by rewrite decide_False by lia. }
    split.
    { rewrite Hfl'. rewrite fmap_cons, concat_cons. cbn [fst].
      by rewrite <- app_assoc. }
    split.
    { rewrite Hes', fmap_cons. by rewrite <- app_assoc. }
    split.
    + cbn [shiftedEnds snd fst]. constructor.
      * rewrite Hframe; [| done | done | done].
        unfold h3, h2. rewrite !lookup_insert_ne by done.
        unfold h1. by rewrite lookup_insert_eq.
      * by rewrite length_app in Hends.
    + intros l Hlfl Hles Hl. rewrite fmap_cons in Hl.
      apply not_elem_of_cons in Hl as [Hlp Hl].
      rewrite Hframe by done. unfold h3, h2, h1.
      by rewrite !lookup_insert_ne by done.
Qed.

Lemma setPolygons_run h g ps vs :
  getType g = MULTI_POLYGON →
  Forall2 (held h) ps vs →
  separate ps →
  ∃ h' fl es,
    let layout' := match ps with p :: _ => getLayout p | [] => layout g end in
    setPolygons h g ps
    = Some (h', setFlatCoordinates g layout' (Some fl) (Some es)) ∧
    (fl ∉ dom h) ∧ (es ∉ dom h) ∧ fl ≠ es ∧
    h' !! fl = Some (Numbers (concat vs.*1)) ∧
    h' !! es = Some (Arrays (getEnds <$> ps)) ∧
    Forall2 (λ p w, h' !! getEnds p = Some (Numbers w)) ps (shiftedEnds 0 vs) ∧
    (∀ l, l ∈ dom h → l ∉ getEnds <$> ps → h' !! l = h !! l).
Proof.
  intros Hty Hheld Hsep.
  destruct (alloc h (Numbers [])) as [h1 fl] eqn:Ha1.
  pose proof (alloc_spec _ _ _ _ Ha1) as (Hf1 & Hh1 & Hsub1 & Hdom1).
  destruct (alloc h1 (Arrays [])) as [h2 es] eqn:Ha2.
  pose proof (alloc_spec _ _ _ _ Ha2) as (Hf2 & Hh2 & Hsub2 & Hdom2).
  assert (Hne : fl ≠ es) by set_solver.
  assert (Hin : ∀ p, p ∈ ps →
            getEnds p ∈ dom h ∧
            ∃ f, getFlatCoordinates p = Some f ∧ f ∈ dom h).
  { intros p Hp. apply list_elem_of_lookup in Hp as [k Hk].
    destruct (Forall2_lookup_l _ _ _ _ _ Hheld Hk) as (v & _ & f & Hf & Hfa & Hpe).
    split; [by eapply elem_of_dom_2 |]. exists f.
    split; [done | by eapply elem_of_dom_2]. }
  destruct (setPolygonsLoop_spec fl es ps vs 0 (layout g) h2 [] [])
    as (h' & Hrun & Hfl & Hes & Hends & Hframe).
  { eapply Forall2_impl; [exact Hheld |].
    intros p v (f & Hf & Hfa & Hpe). exists f. split; [done |].
    split; eapply lookup_weaken; try eassumption; by etrans. }
  { done. }
  { done. }
  { intros p Hp. destruct (Hin p Hp) as (He & f & Hf & Hfd).
    rewrite Hf. split; [set_solver |]. split; [set_solver |].
    split; intros [= ->]; set_solver. }
  { rewrite Hh2, lookup_insert_ne by done. by rewrite Hh1, lookup_insert_eq. }
  { by rewrite Hh2, lookup_insert_eq. }
  exists h', fl, es. cbv zeta. split.
  { unfold setPolygons. rewrite Ha1, Ha2, Hrun. cbn [mbind option_bind g_layout].
    by destruct ps. }
  split; [done |]. split; [set_solver |]. split; [done |].
  split; [done |]. split; [done |]. split; [done |].
  intros l Hl Hnot. rewrite Hframe; [| set_solver | set_solver | done].
  rewrite Hh2, lookup_insert_ne by set_solver.
  by rewrite Hh1, lookup_insert_ne by set_solver.
Qed.

(** X11: [setPolygons] on polygons whose [ends] arrays are pairwise distinct
    and are not coordinate arrays: the multi-polygon gets a new array of
    coordinates, the polygons' coordinates one after the other, and a new
    [endss] array whose elements are the polygons' own [ends] arrays, which
    have been shifted in place by the number of coordinates before each
    polygon.  The layout is the first polygon's (the multi-polygon's own
    without polygons), the revision goes up by one, and every other array
    is as it was. *)
Theorem setPolygons_takes_over_ends h g ps vs :
  getType g = MULTI_POLYGON →
  Forall2 (held h) ps vs →
  separate ps →
  ∃ h' g' fl es,
    setPolygons h g ps = Some (h', g') ∧
    flatCoordinates g' = Some fl ∧ endss_ g' = Some es ∧
    (fl ∉ dom h) ∧ (es ∉ dom h) ∧
    coordinatesOf h' g' = Some (concat vs.*1) ∧
    h' !! es = Some (Arrays (getEnds <$> ps)) ∧
    Forall2 (λ p w, numbersAt h' (getEnds p) = Some w) ps (shiftedEnds 0 vs) ∧
    (∀ l, l ∈ dom h → l ∉ getEnds <$> ps → h' !! l = h !! l) ∧
    layout g' = match ps with p :: _ => getLayout p | [] => layout g end ∧
    getRevision g' = (getRevision g + 1)%Z.
Proof.
  intros Hty Hheld Hsep.
  destruct (setPolygons_run h g ps vs Hty Hheld Hsep)
    as (h' & fl & es & Hrun & Hfl & Hes & Hne & Hvfl & Hves & Hends & Hframe).
  cbv zeta in Hrun. eexists h', _, fl, es. split; [exact Hrun |].
  unfold setFlatCoordinates. rewrite Hty.
  split; [done |]. split; [done |]. split; [done |]. split; [done |].
  split.
  { unfold coordinatesOf. cbn. by rewrite Hvfl. }
  split; [done |]. split.
  { eapply Forall2_impl; [exact Hends |]. intros p w Hw.
    unfold numbersAt. by rewrite Hw. }
  split; [done |]. split; [done |]. done.
Qed.

(** X12: [getPolygons] after [setPolygons], on polygons as before each of
    whose last end is the length of its coordinates: as many polygons come
    back, in the same order, each with the layout of the multi-polygon, with
    the coordinates its polygon had and with ends equal as numbers to those
    its polygon had before [setPolygons] shifted them; the arrays of the
    polygons that come back are new and pairwise distinct. *)
Theorem getPolygons_after_setPolygons h g ps vs :
  getType g = MULTI_POLYGON →
  Forall2 (held h) ps vs →
  separate ps →
  Forall closed vs →
  ∃ h1 g1 h2 qs ws,
    setPolygons h g ps = Some (h1, g1) ∧
    getPolygons h1 g1 = Some (h2, qs) ∧
    Forall2 (madeFrom g1 h1 h2) qs ws ∧
    Forall2 sameValue ws vs ∧
    NoDup (qs ≫= arraysOf).
Proof.
  intros Hty Hheld Hsep Hcl.
  destruct (setPolygons_run h g ps vs Hty Hheld Hsep)
    as (h1 & fl & es & Hrun & Hfl & Hes & Hne & Hvfl & Hves & Hends & Hframe).
  cbv zeta in Hrun.
  set (g1 := setFlatCoordinates g
               match ps with p :: _ => getLayout p | [] => layout g end
               (Some fl) (Some es)) in *.
  assert (Hg1f : flatCoordinates g1 = Some fl).
  { unfold g1, setFlatCoordinates. by rewrite Hty. }
  assert (Hg1e : endss_ g1 = Some es).
  { unfold g1, setFlatCoordinates. by rewrite Hty. }
  destruct (pieces_shifted [] vs [] 0%Q) as (ws & Hws & Hsame); [done | done |].
  rewrite app_nil_l, app_nil_r in Hws. cbn [length] in Hws.
  destruct (getPolygonsLoop_spec g1 fl (concat vs.*1) (getEnds <$> ps)
              (Some 0%Q) h1 (shiftedEnds 0 vs) ws Hg1f Hvfl)
    as (h2 & qs & Hloop & Hsub & Hmade & Hnd).
  { by apply Forall2_fmap_l. }
  { done. }
  exists h1, g1, h2, qs, ws. split; [done |]. split.
  { unfold getPolygons. rewrite Hg1e. cbn [mbind option_bind].
    unfold arraysAt. rewrite Hves. done. }
  done.
Qed.

(** *** One polygon and all of them *)

Lemma elementAt_nat {A} (a : list A) q n :
  (q == ofNat n)%Q → elementAt a q = a !! n.
Proof.
  intros Hq. unfold elementAt.
  assert (Hfl : Qfloor q = Z.of_nat n).
  { rewrite (Qfloor_comp _ _ Hq). apply Qfloor_Z. }
  rewrite Hfl. fold (ofNat n).
  assert (Hb : Qeq_bool (ofNat n) q = true).
  { apply Qeq_bool_iff. by symmetry. }
  rewrite Hb. cbn [andb].
  destruct (Z.leb_spec 0 (Z.of_nat n)); [| lia]. by rewrite Nat2Z.id.
Qed.

Lemma polygonAt_fails g h e offset ea :
  h !! e = Some (Numbers ea) → takeOff offset ea = None →
  polygonAt g h e offset = None.
Proof.
  intros He Htake.
  destruct (alloc h (Numbers ea)) as [h1 ends] eqn:Ha1.
  pose proof (alloc_spec _ _ _ _ Ha1) as (Hf1 & Hh1 & Hsub1 & Hdom1).
  assert (Hn1 : numbersAt h1 ends = Some ea).
  { unfold numbersAt. by rewrite Hh1, lookup_insert_eq. }
  unfold polygonAt, slice. rewrite He. cbn [mbind option_bind].
  rewrite Ha1. cbn [mbind option_bind]. rewrite Hn1.
  cbn [mbind option_bind]. by rewrite Htake.
Qed.

Lemma getPolygonsLoop_fails g fc fa es : ∀ offset h eas,
  flatCoordinates g = Some fc →
  h !! fc = Some (Numbers fa) →
  Forall2 (λ e ea, h !! e = Some (Numbers ea)) es eas →
  pieces fa eas offset = None →
  getPolygonsLoop g es offset h = None.
Proof.
  induction es as [|e es IH]; intros offset h eas Hfc Hfa Hes Hvs.
  - by apply Forall2_nil_inv_l in Hes as ->.
  - apply Forall2_cons_inv_l in Hes as (ea & eas' & He & Hes & ->).
    simpl in Hvs.
    destruct (takeOff offset ea) as [ea'|] eqn:Htake.
    + destruct (polygonAt_spec g h e offset ea ea' fc fa He Hfc Hfa Htake)
        as (h1 & ends & flat & Hrun & Hsub1 & _).
      cbn [getPolygonsLoop]. rewrite Hrun. cbn [mbind option_bind].
      rewrite (IH (last ea) h1 eas'); [done | done | | |].
      * by eapply lookup_weaken.
      * eapply Forall2_impl; [exact Hes |]. intros x y Hx. cbv beta in *.
        exact (lookup_weaken _ _ _ _ Hx Hsub1).
      * simpl in Hvs. by destruct (pieces fa eas' (last ea)).
    + cbn [getPolygonsLoop]. by rewrite (polygonAt_fails g h e offset ea).
Qed.

(** The offset at which polygon [i] starts: the last end of the polygon
    before it. *)
Definition offsetBefore (eas : list (list Q)) (first : option Q) (i : nat)
    : option Q :=
  match i with
  | O => first
  | S j => eas !! j ≫= last
  end.

Lemma pieces_lookup fa : ∀ eas offset vs i v,
  pieces fa eas offset = Some vs →
  vs !! i = Some v →
  ∃ ea, eas !! i = Some ea ∧
        takeOff (offsetBefore eas offset i) ea = Some v.2 ∧
        v.1 = sliceBetween fa (offsetBefore eas offset i) (last ea).
Proof.
  induction eas as [|ea eas IH]; intros offset vs i v Hvs Hi.
  - injection Hvs as <-. done.
  - simpl in Hvs.
    destruct (takeOff offset ea) as [ea'|] eqn:Htake; simpl in Hvs; [| done].
    destruct (pieces fa eas (last ea)) as [vs'|] eqn:Hrest; simpl in Hvs;
      [| done].
    injection Hvs as <-. destruct i as [|i].
    + injection Hi as <-. exists ea. by simpl.
    + simpl in Hi. destruct (IH _ _ _ _ Hrest Hi) as (ea1 & Hea1 & Ht & Hs).
      exists ea1. split; [done |]. destruct i as [|i]; [done |]. done.
Qed.

(** The arrays of a multi-polygon are in the heap, with these numbers. *)
Lemma endssOf_arrays h g eas :
  endssOf h g = Some eas →
  ∃ e es, endss_ g = Some e ∧ h !! e = Some (Arrays es) ∧
          Forall2 (λ x ea, h !! x = Some (Numbers ea)) es eas.
Proof.
  unfold endssOf. intros Hes.
  destruct (endss_ g) as [e|]; [| done]. cbn [mbind option_bind] in Hes.
  destruct (h !! e) as [[|es]|] eqn:He; try done.
  exists e, es. split; [done |]. split; [done |].
  apply mapM_Some in Hes. eapply Forall2_impl; [exact Hes |].
  intros x ea Hx. unfold numbersAt in Hx.
  by destruct (h !! x) as [[|]|]; simplify_eq.
Qed.

Lemma coordinatesOf_array h g fa :
  coordinatesOf h g = Some fa →
  ∃ fc, flatCoordinates g = Some fc ∧ h !! fc = Some (Numbers fa).
Proof.
  unfold coordinatesOf. intros Hfa.
  destruct (flatCoordinates g) as [fc|]; [| done]. exists fc.
  cbn [mbind option_bind] in Hfa.
  by destruct (h !! fc) as [[|]|]; simplify_eq.
Qed.

Lemma getPolygon_at h g fc fa e es eas i x ea ea' :
  flatCoordinates g = Some fc → h !! fc = Some (Numbers fa) →
  endss_ g = Some e → h !! e = Some (Arrays es) →
  Forall2 (λ x ea, h !! x = Some (Numbers ea)) es eas →
  es !! i = Some x → eas !! i = Some ea →
  takeOff (offsetBefore eas (Some 0%Q) i) ea = Some ea' →
  ∃ h2 ends flat,
    getPolygon h g (ofNat i)
    = Some (h2, Some (mkPolygon (layout g) (Some flat) ends)) ∧
    h ⊆ h2 ∧ (ends ∉ dom h) ∧ (flat ∉ dom h) ∧ flat ≠ ends ∧
    h2 !! ends = Some (Numbers ea') ∧
    h2 !! flat
    = Some (Numbers (sliceBetween fa (offsetBefore eas (Some 0%Q) i) (last ea))).
Proof.
  intros Hfc Hfa He Hes Heas Hx Hea Htake.
  pose proof (Forall2_lookup_lr _ _ _ _ _ _ Heas Hx Hea) as Hxea.
  cbv beta in Hxea.
  assert (Hi : (i < length es)%nat) by by eapply lookup_lt_Some.
  set (offset := offsetBefore eas (Some 0%Q) i) in *.
  destruct (polygonAt_spec g h x offset ea ea' fc fa Hxea Hfc Hfa Htake)
    as (h2 & ends & flat & Hrun & Hsub2 & Hn1 & Hn2 & Hne & Hv2 & Hv1).
  exists h2, ends, flat. split; [| done].
  unfold getPolygon.
  destruct (Qlt_le_dec (ofNat i) 0) as [Hneg|_].
  { exfalso. unfold ofNat in Hneg. rewrite <- (Zlt_Qlt _ 0) in Hneg. lia. }
  rewrite He. cbn [mbind option_bind]. unfold arraysAt. rewrite Hes.
  cbn [mbind option_bind].
  destruct (Qlt_le_dec (ofNat i) (ofNat (length es))) as [_|Hge].
  2: { exfalso. unfold ofNat in Hge. rewrite <- Zle_Qle in Hge. lia. }
  assert (Hoff :
    (if Qeq_bool (ofNat i) 0 then Some (Some 0%Q)
     else prevEnds ← elementAt es (ofNat i - 1);
          prev ← numbersAt h prevEnds; Some (last prev))
    = Some offset).
  { destruct i as [|j].
    - done.
    - assert (Hnz : Qeq_bool (ofNat (S j)) 0 = false).
      { apply not_true_is_false. intros Hz. apply Qeq_bool_iff in Hz.
        unfold ofNat, Qeq in Hz. cbn [Qnum Qden inject_Z] in Hz. lia. }
      rewrite Hnz.
      rewrite (elementAt_nat es _ j).
      2: { unfold ofNat. rewrite Nat2Z.inj_succ, <- Z.add_1_r.
           rewrite inject_Z_plus. ring. }
      assert (Hj : (j < length es)%nat) by lia.
      destruct (lookup_lt_is_Some_2 es j Hj) as [y Hy].
      destruct (Forall2_lookup_l _ _ _ _ _ Heas Hy) as (eb & Heb & Hyeb).
      rewrite Hy. cbn [mbind option_bind]. unfold numbersAt.
      rewrite Hyeb. cbn [mbind option_bind].
      unfold offset, offsetBefore. rewrite Heb. done. }
  rewrite Hoff. cbn [mbind option_bind].
  rewrite (elementAt_nat es _ i) by reflexivity. rewrite Hx.
  cbn [mbind option_bind]. rewrite Hrun. done.
Qed.

(** X13: [getPolygon(index)] against [getPolygons()], on a multi-polygon whose
    arrays are in the heap and on which [getPolygons()] returns: an index
    below zero or not below the number of polygons gives [null] and writes
    nothing; a whole index within gives a polygon with the layout, the
    coordinates and the ends of the polygon at that place of
    [getPolygons()], in arrays that were not there before. *)
Theorem getPolygon_agrees_with_getPolygons h g fa eas h1 ps :
  coordinatesOf h g = Some fa →
  endssOf h g = Some eas →
  getPolygons h g = Some (h1, ps) →
  (∀ index, (index < 0 ∨ ofNat (length ps) <= index)%Q →
            getPolygon h g index = Some (h, None)) ∧
  (∀ i p, ps !! i = Some p →
          ∃ h2 q, getPolygon h g (ofNat i) = Some (h2, Some q) ∧
                  polygonValue h2 q = polygonValue h1 p ∧
                  Forall (λ l, l ∉ dom h) (arraysOf q)).
Proof.
  intros Hco Hen Hall.
  destruct (coordinatesOf_array _ _ _ Hco) as (fc & Hfc & Hfa).
  destruct (endssOf_arrays _ _ _ Hen) as (e & es & He & Hes & Heas).
  unfold getPolygons in Hall. rewrite He in Hall.
  cbn [mbind option_bind] in Hall. unfold arraysAt in Hall at 1.
  rewrite Hes in Hall. cbn [mbind option_bind] in Hall.
  destruct (pieces fa eas (Some 0%Q)) as [vs|] eqn:Hvs.
  2: { by rewrite (getPolygonsLoop_fails g fc fa es _ h eas) in Hall. }
  destruct (getPolygonsLoop_spec g fc fa es (Some 0%Q) h eas vs Hfc Hfa Heas Hvs)
    as (h1' & ps' & Hloop & Hsub & Hmade & Hnd).
  rewrite Hloop in Hall. injection Hall as -> ->.
  assert (Hlen : length ps = length es).
  { rewrite (Forall2_length _ _ _ Hmade). apply Forall2_length in Heas.
    rewrite Heas. clear -Hvs. revert vs Hvs. generalize (Some 0%Q).
    induction eas as [|ea eas IH]; intros o vs Hvs.
    - by injection Hvs as <-.
    - simpl in Hvs. destruct (takeOff o ea); simpl in Hvs; [| done].
      destruct (pieces fa eas (last ea)) eqn:Hr; simpl in Hvs; [| done].
      injection Hvs as <-. simpl. f_equal. by eapply IH. }
  split.
  - intros index Hout. unfold getPolygon.
    destruct (Qlt_le_dec index 0) as [|Hnn]; [done |].
    rewrite He. cbn [mbind option_bind]. unfold arraysAt. rewrite Hes.
    cbn [mbind option_bind].
    destruct (Qlt_le_dec index (ofNat (length es))) as [Hlt|]; [| done].
    exfalso. destruct Hout as [Hneg|Hge].
    + by apply Qlt_not_le in Hneg.
    + rewrite Hlen in Hge. by apply Qlt_not_le in Hlt.
  - intros i p Hp.
    destruct (Forall2_lookup_l _ _ _ _ _ Hmade Hp) as (v & Hv & Hpv).
    destruct (pieces_lookup fa eas _ vs i v Hvs Hv) as (ea & Hea & Htake & Hsl).
    destruct (Forall2_lookup_r _ _ _ _ _ Heas Hea) as (x & Hx & Hxea).
    destruct (getPolygon_at h g fc fa e es eas i x ea v.2
                Hfc Hfa He Hes Heas Hx Hea Htake)
      as (h2 & ends & flat & Hrun & Hsub2 & Hn1 & Hn2 & Hne & Hv2 & Hv1).
    exists h2, (mkPolygon (layout g) (Some flat) ends). split; [done |].
    split.
    + destruct Hpv as (Hl & fp & Hfp & _ & _ & _ & _ & _ & Hp1 & Hp2).
      unfold polygonValue, numbersAt. cbn [getLayout getFlatCoordinates getEnds].
      rewrite Hl, Hfp. cbn [mbind option_bind].
      by rewrite Hv1, Hv2, Hp1, Hp2, Hsl.
    + unfold arraysOf. cbn. by repeat constructor.
Qed.

(** *** One more polygon *)

(** A multi-polygon with its arrays in the heap: the coordinates [fa], and
    one array of ends per polygon, [eas], none of which is the array of
    coordinates. *)
Definition stored (h : gmap positive cell) (g : Geometry) (fa : list Q)
    (eas : list (list Q)) : Prop :=
  ∃ fc e es,
    flatCoordinates g = Some fc ∧ endss_ g = Some e ∧
    h !! fc = Some (Numbers fa) ∧ h !! e = Some (Arrays es) ∧
    Forall2 (λ x ea, h !! x = Some (Numbers ea)) es eas ∧
    fc ∉ es.

Lemma appendPolygon_run h g p fa eas a e fc e_ es :
  flatCoordinates g = Some fc → endss_ g = Some e_ →
  h !! fc = Some (Numbers fa) → h !! e_ = Some (Arrays es) →
  Forall2 (λ x ea, h !! x = Some (Numbers ea)) es eas →
  held h p (a, e) →
  Forall (λ l, flatCoordinates g ≠ Some l) (arraysOf p) →
  ∃ h' ends,
    appendPolygon h g p = Some (h', changed g) ∧
    (ends ∉ dom h) ∧
    h' !! fc = Some (Numbers (fa ++ a)) ∧
    h' !! e_ = Some (Arrays (es ++ [ends])) ∧
    h' !! ends = Some (Numbers ((λ v, (v + ofNat (length fa))%Q) <$> e)) ∧
    (∀ l, l ∈ dom h → l ≠ fc → l ≠ e_ → h' !! l = h !! l).
Proof.
  intros Hfc He Hfa Hes Heas (pf & Hpf & Hpa & Hpe) Hapart.
  cbn [fst snd] in Hpa, Hpe.
  assert (Hpfne : pf ≠ fc).
  { intros ->. rewrite Forall_forall in Hapart. apply (Hapart fc); [| done].
    unfold arraysOf. rewrite Hpf. right. by left. }
  assert (Hpene : getEnds p ≠ fc).
  { intros Heq. rewrite Forall_forall in Hapart.
    apply (Hapart (getEnds p)); [by left | by rewrite Heq]. }
  assert (Hene : e_ ≠ fc) by (intros ->; congruence).
  set (h1 := <[fc := Numbers (fa ++ a)]> h).
  destruct (alloc h1 (Numbers e)) as [h2 ends] eqn:Ha2.
  pose proof (alloc_spec _ _ _ _ Ha2) as (Hf2 & Hh2 & Hsub2 & Hdom2).
  assert (Hdom1 : dom h1 = dom h).
  { unfold h1. rewrite dom_insert_L.
    assert (fc ∈ dom h) by by eapply elem_of_dom_2. set_solver. }
  rewrite Hdom1 in Hf2.
  set (shifted := (λ v, (v + ofNat (length fa))%Q) <$> e).
  set (h3 := <[ends := Numbers shifted]> h2).
  assert (Hed : e_ ∈ dom h) by by eapply elem_of_dom_2.
  exists (<[e_ := Arrays (es ++ [ends])]> h3), ends. split.
  { unfold appendPolygon. rewrite Hfc.
    assert (H0 : numbersAt h fc = Some fa).
    { unfold numbersAt. by rewrite Hfa. }
    assert (H1 : numbersAt h pf = Some a).
    { unfold numbersAt. by rewrite Hpa. }
    rewrite H0. cbn [mbind option_bind]. rewrite Hpf.
    cbn [mbind option_bind]. rewrite H1. cbn [mbind option_bind].
    fold h1. unfold slice.
    assert (H2 : h1 !! getEnds p = Some (Numbers e)).
    { unfold h1. by rewrite lookup_insert_ne. }
    rewrite H2. cbn [mbind option_bind]. rewrite Ha2.
    assert (H3 : numbersAt h2 ends = Some e).
    { unfold numbersAt. by rewrite Hh2, lookup_insert_eq. }
    rewrite H3. cbn [mbind option_bind]. fold shifted. fold h3.
    rewrite He. cbn [mbind option_bind].
    assert (H4 : arraysAt h3 e_ = Some es).
    { unfold arraysAt, h3. rewrite lookup_insert_ne by set_solver.
      rewrite Hh2, lookup_insert_ne by set_solver.
      unfold h1. rewrite lookup_insert_ne by done. by rewrite Hes. }
    rewrite H4. done. }
  split; [done |]. split.
  { rewrite lookup_insert_ne by done. unfold h3.
    rewrite lookup_insert_ne by (intros ->; apply Hf2; by eapply elem_of_dom_2).
    rewrite Hh2.
    rewrite lookup_insert_ne by (intros ->; apply Hf2; by eapply elem_of_dom_2).
    unfold h1. by rewrite lookup_insert_eq. }
  split; [by rewrite lookup_insert_eq |]. split.
  { rewrite lookup_insert_ne by set_solver. unfold h3.
    by rewrite lookup_insert_eq. }
  intros l Hl Hlfc Hle. rewrite lookup_insert_ne by done. unfold h3.
  rewrite lookup_insert_ne by set_solver.
  rewrite Hh2, lookup_insert_ne by set_solver.
  unfold h1. by rewrite lookup_insert_ne.
Qed.

(** X14: [appendPolygon] on a multi-polygon that has coordinates, with a
    polygon none of whose arrays is the multi-polygon's array of
    coordinates: the polygon's coordinates are added after the
    multi-polygon's, and a new array is pushed onto [endss_] that holds the
    polygon's ends, each raised by the number of coordinates there were.
    The polygon keeps its arrays and their contents, the multi-polygon's
    other ends are as before, and the revision goes up by one. *)
Theorem appendPolygon_copies_ends h g p fa eas a e :
  stored h g fa eas →
  held h p (a, e) →
  Forall (λ l, flatCoordinates g ≠ Some l) (arraysOf p) →
  ∃ h' g' ends,
    appendPolygon h g p = Some (h', g') ∧
    stored h' g' (fa ++ a)
      (eas ++ [(λ v, (v + ofNat (length fa))%Q) <$> e]) ∧
    (ends ∉ dom h) ∧
    owned h' g' = owned h g ∪ {[ends]} ∧
    held h' p (a, e) ∧
    getRevision g' = (getRevision g + 1)%Z.
Proof.
  intros (fc & e_ & es & Hfc & He & Hfa & Hes & Heas & Hnot) Hheld Hapart.
  destruct (appendPolygon_run h g p fa eas a e fc e_ es
              Hfc He Hfa Hes Heas Hheld Hapart)
    as (h' & ends & Hrun & Hnew & Hvfc & Hve & Hvends & Hframe).
  assert (Hene : e_ ≠ fc) by (intros ->; congruence).
  exists h', (changed g), ends. split; [done |]. split.
  { exists fc, e_, (es ++ [ends]). split; [done |]. split; [done |].
    split; [done |]. split; [done |]. split.
    - apply Forall2_app; [| by repeat constructor].
      apply Forall2_same_length_lookup_2; [by eapply Forall2_length |].
      intros k x ea Hx Hea.
      pose proof (Forall2_lookup_lr _ _ _ _ _ _ Heas Hx Hea) as Hxea.
      cbv beta in Hxea. rewrite Hframe; [done | by eapply elem_of_dom_2 | |].
      + intros ->. apply Hnot. by eapply list_elem_of_lookup_2.
      + intros ->. congruence.
    - intros Hin. apply elem_of_app in Hin as [Hin|Hin]; [done |].
      apply list_elem_of_singleton in Hin as ->. apply Hnew.
      by eapply elem_of_dom_2. }
  split; [done |]. split.
  { unfold owned. cbn [changed flatCoordinates endss_]. rewrite Hfc, He.
    rewrite Hve, Hes, list_to_set_app_L. set_solver. }
  split; [| done].
  destruct Hheld as (pf & Hpf & Hpa & Hpe). exists pf. split; [done |].
  rewrite Forall_forall in Hapart.
  split.
  - rewrite Hframe; [done | by eapply elem_of_dom_2 | |].
    + intros ->. apply (Hapart fc); [| done]. unfold arraysOf.
      rewrite Hpf. right. by left.
    + intros ->. cbn [fst] in Hpa. congruence.
  - rewrite Hframe; [done | by eapply elem_of_dom_2 | |].
    + intros Heq. apply (Hapart (getEnds p)); [by left | by rewrite Heq].
    + intros Heq. cbn [snd] in Hpe. rewrite Heq in Hpe. congruence.
Qed.

(** X15: [appendPolygon] on a multi-polygon without coordinates
    ([flatCoordinates] is [null]): the multi-polygon gets copies of the
    polygon's two arrays, the ends as they are; its layout and its stride
    stay what they were, whatever the polygon's layout. *)
Theorem appendPolygon_without_coordinates h g p e_ es a e :
  flatCoordinates g = None →
  endss_ g = Some e_ →
  h !! e_ = Some (Arrays es) →
  held h p (a, e) →
  ∃ h' g' fc ends,
    appendPolygon h g p = Some (h', g') ∧
    h ⊆ <[e_ := Arrays es]> h' ∧
    flatCoordinates g' = Some fc ∧ endss_ g' = Some e_ ∧
    (fc ∉ dom h) ∧ (ends ∉ dom h) ∧ fc ≠ ends ∧
    h' !! fc = Some (Numbers a) ∧
    h' !! ends = Some (Numbers e) ∧
    h' !! e_ = Some (Arrays (es ++ [ends])) ∧
    layout g' = layout g ∧ stride g' = stride g ∧
    getRevision g' = (getRevision g + 1)%Z.
Proof.
  intros Hfc He Hes (pf & Hpf & Hpa & Hpe). cbn [fst snd] in Hpa, Hpe.
  destruct (alloc h (Numbers a)) as [h1 fc] eqn:Ha1.
  pose proof (alloc_spec _ _ _ _ Ha1) as (Hf1 & Hh1 & Hsub1 & Hdom1).
  destruct (alloc h1 (Numbers e)) as [h2 ends] eqn:Ha2.
  pose proof (alloc_spec _ _ _ _ Ha2) as (Hf2 & Hh2 & Hsub2 & Hdom2).
  assert (Hed : e_ ∈ dom h) by by eapply elem_of_dom_2.
  exists (<[e_ := Arrays (es ++ [ends])]> h2),
    (changed (set_flatCoordinates g (Some fc))), fc, ends.
  split.
  { unfold appendPolygon, slice. rewrite Hfc, Hpf. cbn [mbind option_bind].
    rewrite Hpa. cbn [mbind option_bind]. rewrite Ha1.
    rewrite (lookup_weaken _ _ _ _ Hpe Hsub1). cbn [mbind option_bind].
    rewrite Ha2. cbn [mbind option_bind].
    assert (Hee : endss_ (set_flatCoordinates g (Some fc)) = Some e_) by done.
    rewrite Hee. cbn [mbind option_bind]. unfold arraysAt.
    rewrite (lookup_weaken _ _ _ _ (lookup_weaken _ _ _ _ Hes Hsub1) Hsub2).
    done. }
  split.
  { rewrite insert_insert_eq, insert_id.
    - by etrans.
    - exact (lookup_weaken _ _ _ _ (lookup_weaken _ _ _ _ Hes Hsub1) Hsub2). }
  split; [done |]. split; [done |]. split; [done |].
  split; [set_solver |]. split; [set_solver |]. split.
  { rewrite lookup_insert_ne by set_solver.
    rewrite Hh2, lookup_insert_ne by set_solver.
    by rewrite Hh1, lookup_insert_eq. }
  split.
  { rewrite lookup_insert_ne by set_solver. by rewrite Hh2, lookup_insert_eq. }
  split; [by rewrite lookup_insert_eq |]. done.
Qed.

(** The coordinates end where the last polygon ends: the last end of the
    last polygon is the number of coordinates (zero without polygons). *)
Definition complete (fa : list Q) (eas : list (list Q)) : Prop :=
  ∃ o, offsetBefore eas (Some 0%Q) (length eas) = Some o ∧
       (o == ofNat (length fa))%Q.

Lemma offsetBefore_app eas more first i :
  (i ≤ length eas)%nat →
  offsetBefore (eas ++ more) first i = offsetBefore eas first i.
Proof.
  intros Hi. destruct i as [|j]; [done |]. simpl.
  by rewrite lookup_app_l by lia.
Qed.

(** X16: [getPolygon] of the last index after [appendPolygon], on a
    multi-polygon whose coordinates end where its last polygon ends and a
    polygon whose last end is the length of its coordinates: the polygon
    that comes back has the multi-polygon's layout, the coordinates of the
    appended polygon and ends equal as numbers to its ends, in arrays that
    are new. *)
Theorem getPolygon_after_appendPolygon h g p fa eas a e :
  stored h g fa eas →
  complete fa eas →
  held h p (a, e) →
  closed (a, e) →
  Forall (λ l, flatCoordinates g ≠ Some l) (arraysOf p) →
  ∃ h1 g1 h2 q w,
    appendPolygon h g p = Some (h1, g1) ∧
    getPolygon h1 g1 (ofNat (length eas)) = Some (h2, Some q) ∧
    madeFrom g1 h1 h2 q w ∧
    sameValue w (a, e).
Proof.
  intros (fc & e_ & es & Hfc & He & Hfa & Hes & Heas & Hnot)
         (o & Ho & Hofa) Hheld Hcl Hapart.
  destruct (appendPolygon_run h g p fa eas a e fc e_ es
              Hfc He Hfa Hes Heas Hheld Hapart)
    as (h1 & ends & Hrun & Hnew & Hvfc & Hve & Hvends & Hframe).
  set (shifted := (λ v, (v + ofNat (length fa))%Q) <$> e) in *.
  assert (Hlen : length es = length eas) by by eapply Forall2_length.
  assert (Heas1 : Forall2 (λ x ea, h1 !! x = Some (Numbers ea))
                    (es ++ [ends]) (eas ++ [shifted])).
  { apply Forall2_app; [| by repeat constructor].
    apply Forall2_same_length_lookup_2; [done |].
    intros k x ea Hx Hea.
    pose proof (Forall2_lookup_lr _ _ _ _ _ _ Heas Hx Hea) as Hxea.
    cbv beta in Hxea. rewrite Hframe; [done | by eapply elem_of_dom_2 | |].
    - intros ->. apply Hnot. by eapply list_elem_of_lookup_2.
    - intros ->. congruence. }
  destruct (pieces_shifted [] [(a, e)] fa o Hofa) as (ws & Hws & Hsame).
  { by constructor. }
  assert (Hw : ∃ w, ws = [w] ∧ sameValue w (a, e)).
  { apply Forall2_cons_inv_r in Hsame as (w & ws' & Hw & Hnil & ->).
    apply Forall2_nil_inv_r in Hnil as ->. by exists w. }
  destruct Hw as (w & -> & Hw).
  cbn [fmap list_fmap fst concat shiftedEnds snd] in Hws.
  rewrite !app_nil_r in Hws.
  destruct (pieces_lookup _ _ _ _ 0 w Hws eq_refl) as (ea & Hea & Htake & Hsl).
  injection Hea as <-. cbn [offsetBefore] in Htake, Hsl.
  fold shifted in Htake, Hsl.
  assert (Hoff : offsetBefore (eas ++ [shifted]) (Some 0%Q) (length eas)
                 = Some o).
  { by rewrite offsetBefore_app. }
  destruct (getPolygon_at h1 (changed g) fc (fa ++ a) e_ (es ++ [ends])
              (eas ++ [shifted]) (length eas) ends shifted w.2)
    as (h2 & ends' & flat & Hget & Hsub2 & Hn1 & Hn2 & Hne & Hv2 & Hv1);
    try done.
  { rewrite <- Hlen. by rewrite lookup_app_r, Nat.sub_diag by lia. }
  { by rewrite lookup_app_r, Nat.sub_diag by lia. }
  { by rewrite Hoff. }
  rewrite Hoff in Hv1. rewrite <- Hsl in Hv1.
  exists h1, (changed g), h2, (mkPolygon (layout g) (Some flat) ends'), w.
  split; [done |]. split; [done |]. split; [| done].
  split; [done |]. exists flat. cbn [getFlatCoordinates getEnds].
  split; [done |]. split; [done |]. split; [done |]. split; [done |].
  split; [by eapply elem_of_dom_2 |]. split; [by eapply elem_of_dom_2 |].
  done.
Qed.

(** *** Examples *)

Definition unitSquare : list Q := [0; 0; 1; 0; 1; 1; 0; 0]%Q.
Definition farSquare : list Q := [5; 5; 6; 5; 6; 6; 5; 5]%Q.
Definition triangle : list Q := [2; 2; 3; 2; 2; 3]%Q.

(** Two polygons of one ring each, in arrays 1 to 4. *)
Definition polygonsHeap : gmap positive cell :=
  <[1%positive := Numbers unitSquare]>
    (<[2%positive := Numbers [8%Q]]>
       (<[3%positive := Numbers farSquare]>
          (<[4%positive := Numbers [8%Q]]> ∅))).

Definition twoPolygons : list Polygon :=
  [mkPolygon XY (Some 1%positive) 2%positive;
   mkPolygon XY (Some 3%positive) 4%positive].

Definition twoValues : list (list Q * list Q) :=
  [(unitSquare, [8%Q]); (farSquare, [8%Q])].

(** [new MultiPolygon(null)] beside the two polygons. *)
Definition emptyMultiPolygon : gmap positive cell * Geometry :=
  newMultiPolygon emptyExtent polygonsHeap.

(** A multi-polygon of the two squares, and a triangle beside it. *)
Definition squaresHeap : gmap positive cell :=
  <[1%positive := Numbers (unitSquare ++ farSquare)]>
    (<[2%positive := Arrays [3%positive; 4%positive]]>
       (<[3%positive := Numbers [8%Q]]>
          (<[4%positive := Numbers [16%Q]]>
             (<[5%positive := Numbers triangle]>
                (<[6%positive := Numbers [6%Q]]> ∅))))).

Definition squares : Geometry :=
  mkGeometry MULTI_POLYGON 1 emptyExtent (-1) XY 2
    (Some 1%positive) (Some 2%positive).

Definition trianglePolygon : Polygon :=
  mkPolygon XY (Some 5%positive) 6%positive.

Lemma twoPolygons_held h :
  polygonsHeap ⊆ h → Forall2 (held h) twoPolygons twoValues.
Proof.
  intros Hsub. repeat constructor.
  - exists 1%positive. split; [done |].
    split; eapply lookup_weaken; try exact Hsub; reflexivity.
  - exists 3%positive. split; [done |].
    split; eapply lookup_weaken; try exact Hsub; reflexivity.
Qed.

Lemma polygonsHeap_kept : polygonsHeap ⊆ emptyMultiPolygon.1.
Proof.
  unfold emptyMultiPolygon, newMultiPolygon.
  destruct (alloc polygonsHeap (Arrays [])) as [h e] eqn:Ha.
  by destruct (alloc_spec _ _ _ _ Ha) as (_ & _ & Hsub & _).
Qed.

Lemma twoPolygons_separate : separate twoPolygons.
Proof.
  split.
  - apply (bool_decide_unpack _). by vm_compute.
  - intros p f Hp Hf Hin. unfold twoPolygons in *.
    apply elem_of_cons in Hp as [->|Hp].
    { injection Hf as <-. set_solver. }
    apply list_elem_of_singleton in Hp as ->.
    injection Hf as <-. set_solver.
Qed.

Lemma twoValues_closed : Forall closed twoValues.
Proof.
  repeat constructor.
  - exists 8%Q. split; reflexivity.
  - exists 8%Q. split; reflexivity.
Qed.

Lemma squares_stored :
  stored squaresHeap squares (unitSquare ++ farSquare) [[8%Q]; [16%Q]].
Proof.
  exists 1%positive, 2%positive, [3%positive; 4%positive].
  split; [done |]. split; [done |]. split; [done |]. split; [done |].
  split; [by repeat constructor | set_solver].
Qed.

Lemma triangle_held : held squaresHeap trianglePolygon (triangle, [6%Q]).
Proof. by exists 5%positive. Qed.

Lemma triangle_apart :
  Forall (λ l, flatCoordinates squares ≠ Some l) (arraysOf trianglePolygon).
Proof. by repeat constructor. Qed.

Lemma setPolygons_takes_over_ends_witness :
  ∃ h' g' es,
    setPolygons emptyMultiPolygon.1 emptyMultiPolygon.2 twoPolygons
    = Some (h', g') ∧
    endss_ g' = Some es ∧
    coordinatesOf h' g' = Some (unitSquare ++ farSquare) ∧
    h' !! es = Some (Arrays [2%positive; 4%positive]) ∧
    Forall2 (λ p w, numbersAt h' (getEnds p) = Some w) twoPolygons
      (shiftedEnds 0 twoValues).
Proof.
  destruct (setPolygons_takes_over_ends emptyMultiPolygon.1
              emptyMultiPolygon.2 twoPolygons twoValues)
    as (h' & g' & fl & es & Hrun & _ & Hes & _ & _ & Hco & Hves & Hends & _).
  - reflexivity.
  - exact (twoPolygons_held _ polygonsHeap_kept).
  - exact twoPolygons_separate.
  - by exists h', g', es.
Defined.

Lemma getPolygons_after_setPolygons_witness :
  ∃ h1 g1 h2 qs ws,
    setPolygons emptyMultiPolygon.1 emptyMultiPolygon.2 twoPolygons
    = Some (h1, g1) ∧
    getPolygons h1 g1 = Some (h2, qs) ∧
    Forall2 (madeFrom g1 h1 h2) qs ws ∧
    Forall2 sameValue ws twoValues ∧
    NoDup (qs ≫= arraysOf).
Proof.
  apply (getPolygons_after_setPolygons emptyMultiPolygon.1
           emptyMultiPolygon.2 twoPolygons twoValues).
  - reflexivity.
  - exact (twoPolygons_held _ polygonsHeap_kept).
  - exact twoPolygons_separate.
  - exact twoValues_closed.
Defined.

Lemma getPolygon_agrees_with_getPolygons_witness :
  ∃ h1 p0 p1,
    getPolygons squaresHeap squares = Some (h1, [p0; p1]) ∧
    getPolygon squaresHeap squares (-1) = Some (squaresHeap, None) ∧
    getPolygon squaresHeap squares 2 = Some (squaresHeap, None) ∧
    ∃ h2 q, getPolygon squaresHeap squares (ofNat 1) = Some (h2, Some q) ∧
            polygonValue h2 q = polygonValue h1 p1.
Proof.
  destruct (getPolygons squaresHeap squares) as [[h1 ps]|] eqn:Hall;
    [| by vm_compute in Hall].
  assert (Hps : ∃ p0 p1, ps = [p0; p1]).
  { vm_compute in Hall. injection Hall as _ <-. by eexists _, _. }
  destruct Hps as (p0 & p1 & ->).
  destruct (getPolygon_agrees_with_getPolygons squaresHeap squares
              (unitSquare ++ farSquare) [[8%Q]; [16%Q]] h1 [p0; p1])
    as [Hout Hin].
  - reflexivity.
  - reflexivity.
  - exact Hall.
  - exists h1, p0, p1. split; [done |].
    split; [apply Hout; by left |].
    split; [apply Hout; right; by vm_compute |].
    destruct (Hin 1%nat p1 eq_refl) as (h2 & q & Hget & Hval & _).
    by exists h2, q.
Defined.

Lemma appendPolygon_copies_ends_witness :
  ∃ h' g',
    appendPolygon squaresHeap squares trianglePolygon = Some (h', g') ∧
    stored h' g' ((unitSquare ++ farSquare) ++ triangle)
      ([[8%Q]; [16%Q]] ++ [[6 + ofNat 16]%Q]) ∧
    held h' trianglePolygon (triangle, [6%Q]).
Proof.
  destruct (appendPolygon_copies_ends squaresHeap squares trianglePolygon
              (unitSquare ++ farSquare) [[8%Q]; [16%Q]] triangle [6%Q])
    as (h' & g' & ends & Hrun & Hst & _ & _ & Hheld & _).
  - exact squares_stored.
  - exact triangle_held.
  - exact triangle_apart.
  - by exists h', g'.
Defined.

Lemma appendPolygon_without_coordinates_witness :
  ∃ h' g' fc,
    appendPolygon emptyMultiPolygon.1 emptyMultiPolygon.2
      (mkPolygon XYZ (Some 1%positive) 2%positive) = Some (h', g') ∧
    flatCoordinates g' = Some fc ∧
    h' !! fc = Some (Numbers unitSquare) ∧
    layout g' = XY ∧ stride g' = 2%nat.
Proof.
  destruct (appendPolygon_without_coordinates emptyMultiPolygon.1
              emptyMultiPolygon.2 (mkPolygon XYZ (Some 1%positive) 2%positive)
              5%positive [] unitSquare [8%Q])
    as (h' & g' & fc & ends & Hrun & _ & Hfc & _ & _ & _ & _ & Hv & _ & _
        & Hl & Hs & _).
  - reflexivity.
  - reflexivity.
  - reflexivity.
  - by exists 1%positive.
  - exists h', g', fc. by rewrite Hl, Hs.
Defined.

Lemma getPolygon_after_appendPolygon_witness :
  ∃ h1 g1 h2 q w,
    appendPolygon squaresHeap squares trianglePolygon = Some (h1, g1) ∧
    getPolygon h1 g1 (ofNat 2) = Some (h2, Some q) ∧
    madeFrom g1 h1 h2 q w ∧
    sameValue w (triangle, [6%Q]).
Proof.
  apply (getPolygon_after_appendPolygon squaresHeap squares trianglePolygon
           (unitSquare ++ farSquare) [[8%Q]; [16%Q]] triangle [6%Q]).
  - exact squares_stored.
  - exists 16%Q. split; reflexivity.
  - exact triangle_held.
  - exists 6%Q. split; reflexivity.
  - exact triangle_apart.
Defined.

End MultiPolygon.

(** ** ol/TileCache *)

Module TileCache.
Import Js.

(** [ol.TileCoord]: [z, x, y]. *)
Definition TileCoord : Type := Z * Z * Z.

(** A tile, as far as the cache looks at it; [name] tells tiles apart. *)
Record Tile : Type := mkTile { name : string; tileCoord : TileCoord }.

(** Modelled from the spec: [ol.TileRange], which is not among the sources;
    "the corresponding tile range contains its tile coordinate".  The
    bounds are the fields ol/source/Tile loops over. *)
Record TileRange : Type := mkTileRange {
  minX : Z; maxX : Z; minY : Z; maxY : Z
}.

Definition contains (r : TileRange) (c : TileCoord) : bool :=
  let '(_, x, y) := c in
  bool_decide (minX r ≤ x ∧ x ≤ maxX r ∧ minY r ≤ y ∧ y ≤ maxY r)%Z.

(** Modelled from the spec: ol/structs/LRUCache, which is not among the
    sources; "an LRU structure mapping a z/x/y key to a Tile; enforces a
    high-water-mark capacity".  Entries are kept oldest first; [disposed]
    collects, in order, the tiles whose [dispose()] was called. *)
Record Cache : Type := mkCache {
  highWaterMark : Z;
  entries : list (string * Tile);
  disposed : list Tile
}.

Definition getCount (c : Cache) : Z := Z.of_nat (length (entries c)).

(** "count above the high-water mark" *)
Definition canExpireCache (c : Cache) : bool :=
  bool_decide (highWaterMark c < getCount c)%Z.

(** [getKey(tileCoord)]: "z/x/y". *)
Definition getKey (c : TileCoord) : string :=
  let '(z, x, y) := c in
  pretty z +:+ "/" +:+ pretty x +:+ "/" +:+ pretty y.

(** [set(key, value)]: a key may be set once; the entry becomes the newest. *)
Definition set (key : string) (value : Tile) (c : Cache) : outcome Cache :=
  if bool_decide (key ∈ (entries c).*1) then Throws "AssertionError"
  else Return (mkCache (highWaterMark c) (entries c ++ [(key, value)])
                 (disposed c)).

(** [get(key)]: the entry becomes the newest. *)
Definition get (key : string) (c : Cache) : outcome (Tile * Cache) :=
  match list_find (λ e, e.1 = key) (entries c) with
  | Some (i, e) =>
      Return (e.2, mkCache (highWaterMark c)
                     (delete i (entries c) ++ [e]) (disposed c))
  | None => Throws "AssertionError"
  end.

(** The loop of [expireCache], on the entries oldest first: [peekLast()]
    is the head, [pop()] removes it, [dispose()] records it. *)
Fixpoint expireLoop (usedTiles : gmap string TileRange) (hwm : Z)
    (es : list (string * Tile)) (gone : list Tile)
    : outcome (list (string * Tile) * list Tile) :=
  if bool_decide (hwm < Z.of_nat (length es))%Z then
    match es with
    | [] => Throws "TypeError"
    | (_, tile) :: rest =>
        let zKey := pretty (tileCoord tile).1.1 in
        match usedTiles !! zKey with
        | Some range =>
            if contains range (tileCoord tile) then Return (es, gone)
            else expireLoop usedTiles hwm rest (gone ++ [tile])
        | None => expireLoop usedTiles hwm rest (gone ++ [tile])
        end
    end
  else Return (es, gone).

Definition expireCache (usedTiles : gmap string TileRange) (c : Cache)
    : outcome Cache :=
  match expireLoop usedTiles (highWaterMark c) (entries c) (disposed c) with
  | Return (es, gone) => Return (mkCache (highWaterMark c) es gone)
  | Throws msg => Throws msg
  end.

(** A tile the frame uses: its z-level is a key of [usedTiles] and the
    range under that key contains its coordinate. *)
Definition used (usedTiles : gmap string TileRange) (t : Tile) : bool :=
  match usedTiles !! pretty (tileCoord t).1.1 with
  | Some range => contains range (tileCoord t)
  | None => false
  end.

(** Three tiles and the cache they are put in, A first. *)
Definition tileA : Tile := mkTile "A" (0, 0, 0)%Z.
Definition tileB : Tile := mkTile "B" (1, 0, 0)%Z.
Definition tileC : Tile := mkTile "C" (1, 1, 0)%Z.

Definition andThen {A B} (o : outcome A) (f : A → outcome B) : outcome B :=
  match o with Return a => f a | Throws msg => Throws msg end.

Definition cacheABC : outcome Cache :=
  andThen (set (getKey (tileCoord tileA)) tileA (mkCache 2 [] []))
    (λ c, andThen (set (getKey (tileCoord tileB)) tileB c)
       (set (getKey (tileCoord tileC)) tileC)).

Lemma expireLoop_spec usedTiles hwm es : ∀ gone,
  (0 ≤ hwm)%Z →
  ∃ k,
    expireLoop usedTiles hwm es gone
      = Return (drop k es, gone ++ (take k es).*2) ∧
    (∀ i e, (i < k)%nat → es !! i = Some e →
       used usedTiles e.2 = false ∧
       (hwm < Z.of_nat (length es) - Z.of_nat i)%Z) ∧
    ((Z.of_nat (length (drop k es)) ≤ hwm)%Z ∨
     ((hwm < Z.of_nat (length (drop k es)))%Z ∧
      ∃ e, drop k es !! 0%nat = Some e ∧ used usedTiles e.2 = true)).
Proof.
  induction es as [|[key tile] rest IH]; intros gone Hhwm.
  - exists 0%nat. simpl. rewrite bool_decide_eq_false_2 by lia.
    rewrite app_nil_r. split; [done |]. split; [intros; lia |]. left. lia.
  - simpl expireLoop. case_bool_decide as Hcan.
    + assert (Hpop : used usedTiles tile = false →
        ∃ k, expireLoop usedTiles hwm rest (gone ++ [tile])
             = Return (drop k ((key, tile) :: rest),
                       gone ++ (take k ((key, tile) :: rest)).*2) ∧
          (∀ i e, (i < k)%nat → ((key, tile) :: rest) !! i = Some e →
             used usedTiles e.2 = false ∧
             (hwm < Z.of_nat (length ((key, tile) :: rest)) - Z.of_nat i)%Z) ∧
          ((Z.of_nat (length (drop k ((key, tile) :: rest))) ≤ hwm)%Z ∨
           ((hwm < Z.of_nat (length (drop k ((key, tile) :: rest))))%Z ∧
            ∃ e, drop k ((key, tile) :: rest) !! 0%nat = Some e ∧
                 used usedTiles e.2 = true))).
      { intros Hfree.
        destruct (IH (gone ++ [tile]) Hhwm) as (k & Hrun & Hgone & Hstop).
        exists (S k). simpl. rewrite Hrun, <- app_assoc. simpl.
        split; [done |]. split; [| done].
        intros [|i] e Hi He; simpl in He.
        - injection He as <-. simpl in *. split; [done | lia].
        - destruct (Hgone i e) as [Hu Hc]; [lia | done |].
          split; [done |]. simpl length. lia. }
      unfold used in Hpop.
      destruct (usedTiles !! pretty (tileCoord tile).1.1) as [range|] eqn:Hz;
        [| by apply Hpop].
      destruct (contains range (tileCoord tile)) eqn:Hin; [| by apply Hpop].
      exists 0%nat. simpl. rewrite app_nil_r.
      split; [done |]. split; [intros; lia |]. right.
      split; [simpl in Hcan; lia |]. exists (key, tile).
      split; [done |]. unfold used. simpl. by rewrite Hz.
    + exists 0%nat. simpl drop. simpl take. rewrite app_nil_r.
      split; [done |]. split; [intros; lia |]. left. simpl in *. lia.
Qed.

(** C8: [expireCache] looks at the least-recently-used entry as long as
    the count is above the high-water mark.  Entries are popped and
    disposed oldest first, each one examined while the count was above the
    mark and found not to be used (its z-level is no key of [usedTiles], or
    the range under that key does not contain its coordinate); it stops at
    the first used entry, or when the count has come down to the mark.
    With mark 2 and A, B, C set in that order, expiring with no used tiles
    disposes A and keeps B and C. *)
Theorem expireCache_least_recently_used :
  (∀ usedTiles c,
     (0 ≤ highWaterMark c)%Z →
     ∃ k,
       expireCache usedTiles c
         = Return (mkCache (highWaterMark c) (drop k (entries c))
                     (disposed c ++ (take k (entries c)).*2)) ∧
       (∀ i e, (i < k)%nat → entries c !! i = Some e →
          used usedTiles e.2 = false ∧
          (highWaterMark c < getCount c - Z.of_nat i)%Z) ∧
       ((Z.of_nat (length (drop k (entries c))) ≤ highWaterMark c)%Z ∨
        ((highWaterMark c < Z.of_nat (length (drop k (entries c))))%Z ∧
         ∃ e, drop k (entries c) !! 0%nat = Some e ∧
              used usedTiles e.2 = true))) ∧
  (∃ c, cacheABC = Return c ∧
        (entries c).*2 = [tileA; tileB; tileC] ∧
        andThen (expireCache ∅ c)
          (λ c', Return ((entries c').*2, disposed c'))
        = Return ([tileB; tileC], [tileA])).
Proof.
  split.
  - intros usedTiles c Hhwm.
    destruct (expireLoop_spec usedTiles (highWaterMark c) (entries c)
                (disposed c) Hhwm) as (k & Hrun & Hgone & Hstop).
    exists k. unfold expireCache. rewrite Hrun.
    split; [done |]. split; [exact Hgone | exact Hstop].
  - eexists. split; [reflexivity |]. split; reflexivity.
Qed.

(** A frame that uses tile A: nothing can be evicted. *)
Definition usesA : gmap string TileRange := <["0" := mkTileRange 0 0 0 0]> ∅.

Lemma expireCache_least_recently_used_witness :
  ∃ k,
    expireCache usesA
      (mkCache 2 [("0/0/0", tileA); ("1/0/0", tileB); ("1/1/0", tileC)] [])
    = Return (mkCache 2
                (drop k [("0/0/0", tileA); ("1/0/0", tileB); ("1/1/0", tileC)])
                ([] ++ (take k [("0/0/0", tileA); ("1/0/0", tileB);
                                ("1/1/0", tileC)]).*2)).
Proof.
  destruct (proj1 expireCache_least_recently_used usesA
              (mkCache 2 [("0/0/0", tileA); ("1/0/0", tileB);
                          ("1/1/0", tileC)] []))
    as (k & Hrun & _).
  - simpl. lia.
  - by exists k.
Defined.

End TileCache.

(** ** ol/renderer/canvas/VectorTileLayer *)

Module VectorTile.
Import Js.

(** Modelled from the spec: [ol.TileState], which is not among the sources;
    "IDLE → LOADING → (LOADED | ERROR | ABORT)". *)
Inductive TileState : Type := IDLE | LOADING | LOADED | ERROR | ABORT.

Global Instance TileState_eq_dec : EqDecision TileState.
Proof. solve_decision. Defined.

(** [ol.layer.VectorTileRenderType]: 'image', 'hybrid', 'vector'. *)
Inductive VectorTileRenderType : Type := RENDER_IMAGE | RENDER_HYBRID | RENDER_VECTOR.

Global Instance VectorTileRenderType_eq_dec : EqDecision VectorTileRenderType.
Proof. solve_decision. Defined.

(** [ol.render.ReplayType] *)
Inductive ReplayType : Type :=
  | CIRCLE | DEFAULT | IMAGE | LINE_STRING | POLYGON | TEXT.

(** [ol.proj.Units], as far as the renderer asks. *)
Inductive Units : Type := DEGREES | METERS | PIXELS | TILE_PIXELS.

Global Instance Units_eq_dec : EqDecision Units.
Proof. solve_decision. Defined.

Definition TileCoord : Type := Z * Z * Z.
Definition Coordinate : Type := Q * Q.

(** [ol.Extent] of finite numbers: [minx, miny, maxx, maxy]. *)
Definition Extent : Type := Q * Q * Q * Q.

(** [tileCoord.toString()]: the numbers joined by commas. *)
Definition TileCoord_toString (c : TileCoord) : string :=
  let '(z, x, y) := c in pretty z +:+ "," +:+ pretty x +:+ "," +:+ pretty y.

Record Projection : Type := mkProjection {
  code : string;
  getUnits : Units;
  projExtent : option Extent;
  worldExtent : option Extent
}.

Definition setWorldExtent (p : Projection) (e : Extent) : Projection :=
  mkProjection (code p) (getUnits p) (projExtent p) (Some e).
Definition setExtent (p : Projection) (e : Extent) : Projection :=
  mkProjection (code p) (getUnits p) (Some e) (worldExtent p).

(** The four corners [getClipCoords] answers, as eight numbers. *)
Record ClipCoords : Type := mkClip {
  c0 : Q; c1 : Q; c2 : Q; c3 : Q; c4 : Q; c5 : Q; c6 : Q; c7 : Q
}.

Record ViewState : Type := mkViewState {
  projection : Projection;
  resolution : Q;
  rotation : Q;
  center : Q * Q
}.

Record FrameState : Type := mkFrameState {
  pixelRatio : Q;
  viewState : ViewState;
  size : Q * Q
}.

(** [Math.round(x)] *)
Definition Math_round (x : Q) : Q := inject_Z (Qfloor (x + (1 # 2))).

Section Renderer.

(** Geometries, styles and pixel transforms are the business of other
    modules; the renderer passes them on. *)
Variables Geometry Style Transform : Type.

(** What a style function answers: nothing, one style, or an array. *)
Inductive Styles : Type :=
  | NoStyles
  | OneStyle (s : Style)
  | StyleArray (l : list Style).

Record Feature : Type := mkFeature {
  getUid : N;
  getGeometry : Geometry;
  getStyleFunction : option (Q → Styles)
}.

(** A render-order function, told apart by its identity. *)
Record RenderOrder : Type := mkRenderOrder {
  ro_id : N;
  ro_compare : Feature → Feature → Z
}.

(** [a == b] and [a !== b] on render orders that may be [null]. *)
Definition sameOrder (a b : option RenderOrder) : bool :=
  match a, b with
  | None, None => true
  | Some x, Some y => (ro_id x =? ro_id y)%N
  | _, _ => false
  end.

(** Modelled from the spec: [ol.render.canvas.ReplayGroup], which is not
    among the sources; "keyed by an extent, resolution, pixel ratio, and
    overlaps flag", it records "per appended feature: a reference to the
    feature ... and style parameters" and is frozen by [finish()].
    [rg_id] is the identity of the instance. *)
Record ReplayGroup : Type := mkReplayGroup {
  rg_id : N;
  rg_extent : Extent;
  rg_resolution : Q;
  rg_pixelRatio : Q;
  rg_overlaps : bool;
  rg_declutter : bool;
  rg_renderBuffer : Q;
  rg_instructions : list (Feature * Style);
  rg_finished : bool
}.

Definition record (rg : ReplayGroup) (f : Feature) (s : Style) : ReplayGroup :=
  mkReplayGroup (rg_id rg) (rg_extent rg) (rg_resolution rg)
    (rg_pixelRatio rg) (rg_overlaps rg) (rg_declutter rg) (rg_renderBuffer rg)
    (rg_instructions rg ++ [(f, s)]) (rg_finished rg).

Definition finish (rg : ReplayGroup) : ReplayGroup :=
  mkReplayGroup (rg_id rg) (rg_extent rg) (rg_resolution rg)
    (rg_pixelRatio rg) (rg_overlaps rg) (rg_declutter rg) (rg_renderBuffer rg)
    (rg_instructions rg) true.

(** The collaborators the renderer calls: ol/extent, ol/proj, the geometry,
    the tile grids of the source, ol/renderer/vector, ol/render/replay, the
    replay group's queries, ol/transform and the parent renderer. *)
Class Collaborators : Type := {
  getIntersection : Extent → Extent → Extent;
  equals : Extent → Extent → bool;
  buffer : Extent → Q → Extent;
  intersects : Extent → Extent → bool;
  containsCoordinate : Extent → Coordinate → bool;
  equivalentProjection : Projection → Projection → bool;
  transformGeometry : Projection → Projection → Geometry → Geometry;
  geometryExtent : Geometry → Extent;
  sourceTileGrid_getTileCoordExtent : TileCoord → Extent;
  sourceTileGrid_getResolution : Z → Q;
  tileGrid_getResolution : Projection → Z → Q;
  tileGrid_getTileCoordExtent : Projection → TileCoord → Extent;
  getTilePixelSize : Z → Q → Projection → Q * Q;
  getSquaredRenderTolerance : Q → Q → Q;
  imageLoading : Style → bool;
  sort : (Feature → Feature → Z) → list Feature → list Feature;
  ORDER : list ReplayType;
  hasReplays : ReplayGroup → list ReplayType → bool;
  getClipCoords : ReplayGroup → Transform → ClipCoords;
  hitCandidates : ReplayGroup → Coordinate → Q → Q → Q → list Feature;
  resetTransform : Transform;
  scaleTransform : Transform → Q → Q → Transform;
  translateTransform : Transform → Q → Q → Transform;
  getTransform : FrameState → Q → Transform
}.

Context `{Collaborators}.

Definition IMAGE_REPLAYS (m : VectorTileRenderType) : option (list ReplayType) :=
  match m with
  | RENDER_IMAGE => Some [POLYGON; CIRCLE; LINE_STRING; IMAGE; TEXT]
  | RENDER_HYBRID => Some [POLYGON; LINE_STRING]
  | RENDER_VECTOR => None
  end.

Definition VECTOR_REPLAYS (m : VectorTileRenderType) : list ReplayType :=
  match m with
  | RENDER_IMAGE => [DEFAULT]
  | RENDER_HYBRID => [IMAGE; TEXT; DEFAULT]
  | RENDER_VECTOR => ORDER
  end.

(** The vector tile layer with its source, as the renderer reads them. *)
Record Layer : Type := mkLayer {
  layerUid : N;
  getRevision : Z;
  getRenderOrder : option RenderOrder;
  getRenderMode : VectorTileRenderType;
  getRenderBuffer : Q;
  getDeclutter : bool;
  layerStyleFunction : option (Feature → Q → Styles);
  getOverlaps : bool
}.

(** A source tile ([ol.VectorTile]); its replay groups are kept under
    "layer uid,tile coordinate". *)
Record SourceTile : Type := mkSourceTile {
  getState : TileState;
  tileCoord : TileCoord;
  getProjection : Projection;
  getFeatures : list Feature;
  getExtent : Extent;
  replayGroups_ : gmap string ReplayGroup
}.

Definition replayGroupKey (l : Layer) (key : string) : string :=
  pretty (layerUid l) +:+ "," +:+ key.

Definition getReplayGroup (t : SourceTile) (l : Layer) (key : string)
    : option ReplayGroup :=
  replayGroups_ t !! replayGroupKey l key.

Definition setReplayGroup (t : SourceTile) (l : Layer) (key : string)
    (rg : ReplayGroup) : SourceTile :=
  mkSourceTile (getState t) (tileCoord t) (getProjection t) (getFeatures t)
    (getExtent t) (<[replayGroupKey l key := rg]> (replayGroups_ t)).

Definition setProjection (t : SourceTile) (p : Projection) : SourceTile :=
  mkSourceTile (getState t) (tileCoord t) p (getFeatures t) (getExtent t)
    (replayGroups_ t).

Definition setFeatures (t : SourceTile) (fs : list Feature) : SourceTile :=
  mkSourceTile (getState t) (tileCoord t) (getProjection t) fs (getExtent t)
    (replayGroups_ t).

(** The replay state of a tile for a layer. *)
Record ReplayState : Type := mkReplayState {
  dirty : bool;
  renderedRenderOrder : option RenderOrder;
  renderedRevision : Z;
  renderedTileRevision : Z
}.

(** A drawing surface: what was asked of it, oldest first. *)
Inductive CanvasOp : Type :=
  | Save
  | Restore
  | SetGlobalAlpha (a : Q)
  | BeginPath
  | MoveTo (x y : Q)
  | LineTo (x y : Q)
  | Clip
  | RotateAtOffset (rotation x y : Q)
  | Replay (rg : ReplayGroup) (transform : Transform) (rotation : Q)
           (replayTypes : list ReplayType) (declutter : bool)
  | ReplayDeclutter (rotation : Q)
  | ClearDeclutterTree
  | ParentPostCompose.

Record Canvas : Type := mkCanvas {
  width : Q; height : Q; ops : list CanvasOp
}.

(** A composite tile ([ol.VectorImageTile]): the keys of the source tiles
    behind it, its replay states and its drawing contexts, per layer. *)
Record VectorImageTile : Type := mkTile {
  tileState : TileState;
  imageTileCoord : TileCoord;
  wrappedTileCoord : TileCoord;
  tileKeys : list string;
  replayState_ : gmap string ReplayState;
  context_ : gmap string Canvas
}.

(** Modelled from the spec: [getReplayState(layer)] of VectorImageTile, which
    is not among the sources; the state is "created lazily on first render
    attempt for a tile+layer pair", not dirty and with nothing rendered. *)
Definition getReplayState (t : VectorImageTile) (l : Layer) : ReplayState :=
  match replayState_ t !! pretty (layerUid l) with
  | Some rs => rs
  | None => mkReplayState false None (-1) (-1)
  end.

Definition setReplayState (t : VectorImageTile) (l : Layer) (rs : ReplayState)
    : VectorImageTile :=
  mkTile (tileState t) (imageTileCoord t) (wrappedTileCoord t) (tileKeys t)
    (<[pretty (layerUid l) := rs]> (replayState_ t)) (context_ t).

Definition setTileKeys (t : VectorImageTile) (keys : list string)
    : VectorImageTile :=
  mkTile (tileState t) (imageTileCoord t) (wrappedTileCoord t) keys
    (replayState_ t) (context_ t).

(** The renderer: its layer, whether it has a rasterizing context, its
    declutter tree (emptied or not), [dirty_], and the rendered tiles. *)
Record VectorTileLayerRenderer : Type := mkRenderer {
  getLayer : Layer;
  context : bool;
  dirty_ : bool;
  renderedLayerRevision_ : option Z;
  renderedTiles : list VectorImageTile
}.

Definition set_dirty_ (r : VectorTileLayerRenderer) (d : bool)
    : VectorTileLayerRenderer :=
  mkRenderer (getLayer r) (context r) d (renderedLayerRevision_ r)
    (renderedTiles r).

(** The objects shared between tiles: the source tiles by key, and the
    number of replay groups constructed so far, which names the next. *)
Record World : Type := mkWorld {
  sourceTiles : gmap string SourceTile;
  replayGroupsBuilt : N
}.

(** *** [createReplayGroup_] *)

(** Modelled from the spec: [renderFeature] of ol/renderer/vector, which is
    not among the sources; it "appends one or more draw instructions" and
    "returns whether any asynchronous resource (e.g., a point icon image)
    is still loading". *)
Definition vector_renderFeature (replayGroup : ReplayGroup) (feature : Feature)
    (style : Style) (squaredTolerance : Q) : bool * ReplayGroup :=
  (imageLoading style, record replayGroup feature style).

(** The loop of [renderFeature] over an array of styles. *)
Fixpoint renderStyles (replayGroup : ReplayGroup) (feature : Feature)
    (styles : list Style) (squaredTolerance : Q) (loading : bool)
    : bool * ReplayGroup :=
  match styles with
  | [] => (loading, replayGroup)
  | style :: rest =>
      let '(l, replayGroup) :=
        vector_renderFeature replayGroup feature style squaredTolerance in
      renderStyles replayGroup feature rest squaredTolerance (l || loading)
  end.

(** [this.renderFeature(feature, squaredTolerance, styles, replayGroup)] *)
Definition renderFeature (feature : Feature) (squaredTolerance : Q)
    (styles : Styles) (replayGroup : ReplayGroup) : bool * ReplayGroup :=
  match styles with
  | NoStyles => (false, replayGroup)
  | StyleArray l => renderStyles replayGroup feature l squaredTolerance false
  | OneStyle style =>
      vector_renderFeature replayGroup feature style squaredTolerance
  end.

(** What the loops of [createReplayGroup_] carry: [this.dirty_], the
    replay state, and the replay group under construction. *)
Record Building : Type := mkBuilding {
  b_dirty_ : bool;
  b_replayState : ReplayState;
  b_replayGroup : ReplayGroup
}.

Definition set_dirty (rs : ReplayState) (d : bool) : ReplayState :=
  mkReplayState d (renderedRenderOrder rs) (renderedRevision rs)
    (renderedTileRevision rs).

(** The inner function [render]. *)
Definition render (l : Layer) (resolution squaredTolerance : Q)
    (feature : Feature) (b : Building) : Building :=
  let styleFunction :=
    match getStyleFunction feature with
    | Some f => Some f
    | None =>
        match layerStyleFunction l with
        | Some g => Some (g feature)
        | None => None
        end
    end in
  let styles :=
    match styleFunction with
    | Some f => f resolution
    | None => NoStyles
    end in
  match styles with
  | NoStyles => b
  | _ =>
      let '(d, replayGroup) :=
        renderFeature feature squaredTolerance styles (b_replayGroup b) in
      mkBuilding (b_dirty_ b || d)
        (set_dirty (b_replayState b) (dirty (b_replayState b) || d))
        replayGroup
  end.

Definition setGeometry (f : Feature) (g : Geometry) : Feature :=
  mkFeature (getUid f) g (getStyleFunction f).

(** The loop over the features of a source tile.  A reprojected geometry
    is changed in place, so the features are handed back. *)
Fixpoint featureLoop (l : Layer) (resolution squaredTolerance : Q)
    (reproject : bool) (tileProjection viewProjection : Projection)
    (sourceTileExtent tilePixelExtent : Extent)
    (bufferedExtent : option Extent)
    (features : list Feature) (b : Building) : list Feature * Building :=
  match features with
  | [] => ([], b)
  | feature :: rest =>
      let tileProjection :=
        if reproject && bool_decide (getUnits tileProjection = TILE_PIXELS)
        then setExtent (setWorldExtent tileProjection sourceTileExtent)
               tilePixelExtent
        else tileProjection in
      let feature :=
        if reproject
        then setGeometry feature
               (transformGeometry tileProjection viewProjection
                  (getGeometry feature))
        else feature in
      let b :=
        if match bufferedExtent with
           | None => true
           | Some e => intersects e (geometryExtent (getGeometry feature))
           end
        then render l resolution squaredTolerance feature b
        else b in
      let '(rest, b) :=
        featureLoop l resolution squaredTolerance reproject tileProjection
          viewProjection sourceTileExtent tilePixelExtent bufferedExtent
          rest b in
      (feature :: rest, b)
  end.

(** What the loop over the tile keys carries. *)
Record Progress : Type := mkProgress {
  p_dirty_ : bool;
  p_replayState : ReplayState;
  p_world : World
}.

(** The body of the loop over [tile.tileKeys], for a source tile that is
    not in ERROR state. *)
Definition buildSourceTile (this : VectorTileLayerRenderer)
    (tile : VectorImageTile) (frameState : FrameState)
    (resolution : Q) (tileExtent : Extent)
    (renderOrder : option RenderOrder) (renderedBefore : option RenderOrder)
    (key : string) (sourceTile : SourceTile) (p : Progress) : Progress :=
  let l := getLayer this in
  let viewProjection := projection (viewState frameState) in
  let sourceTileCoord := tileCoord sourceTile in
  let sourceTileExtent := sourceTileGrid_getTileCoordExtent sourceTileCoord in
  let sharedExtent := getIntersection tileExtent sourceTileExtent in
  let bufferedExtent :=
    if equals sourceTileExtent sharedExtent then None
    else Some (buffer sharedExtent (getRenderBuffer l * resolution)%Q) in
  let tileProjection := getProjection sourceTile in
  let reproject := negb (equivalentProjection viewProjection tileProjection) in
  let sourceTile :=
    if reproject then setProjection sourceTile viewProjection
    else sourceTile in
  let replayState := set_dirty (p_replayState p) false in
  let replayGroup :=
    mkReplayGroup (replayGroupsBuilt (p_world p)) sharedExtent resolution
      (pixelRatio frameState) (getOverlaps l) (getDeclutter l)
      (getRenderBuffer l) [] false in
  let squaredTolerance :=
    getSquaredRenderTolerance resolution (pixelRatio frameState) in
  let features := getFeatures sourceTile in
  let features :=
    match renderOrder with
    | Some order =>
        if negb (sameOrder renderOrder renderedBefore)
        then sort (ro_compare order) features
        else features
    | None => features
    end in
  let '(features, b) :=
    featureLoop l resolution squaredTolerance reproject tileProjection
      viewProjection sourceTileExtent (getExtent sourceTile) bufferedExtent
      features (mkBuilding (p_dirty_ p) replayState replayGroup) in
  let replayGroup := finish (b_replayGroup b) in
  let sourceTile :=
    setReplayGroup (setFeatures sourceTile features) l
      (TileCoord_toString (imageTileCoord tile)) replayGroup in
  mkProgress (b_dirty_ b) (b_replayState b)
    (mkWorld (<[key := sourceTile]> (sourceTiles (p_world p)))
       (N.succ (replayGroupsBuilt (p_world p)))).

(** The loop over [tile.tileKeys]. *)
Fixpoint sourceTileLoop (this : VectorTileLayerRenderer)
    (tile : VectorImageTile) (frameState : FrameState)
    (resolution : Q) (tileExtent : Extent)
    (renderOrder renderedBefore : option RenderOrder)
    (keys : list string) (p : Progress) : outcome Progress :=
  match keys with
  | [] => Return p
  | key :: rest =>
      match sourceTiles (p_world p) !! key with
      | None => Throws "TypeError"
      | Some sourceTile =>
          if bool_decide (getState sourceTile = ERROR) then
            sourceTileLoop this tile frameState resolution tileExtent
              renderOrder renderedBefore rest p
          else
            sourceTileLoop this tile frameState resolution tileExtent
              renderOrder renderedBefore rest
              (buildSourceTile this tile frameState resolution tileExtent
                 renderOrder renderedBefore key sourceTile p)
      end
  end.

Definition set_rendered (rs : ReplayState) (revision : Z)
    (renderOrder : option RenderOrder) : ReplayState :=
  mkReplayState (dirty rs) renderOrder revision (renderedTileRevision rs).

(** The test at the top of [createReplayGroup_]. *)
Definition clean (rs : ReplayState) (l : Layer) : bool :=
  negb (dirty rs) && bool_decide (renderedRevision rs = getRevision l)
  && sameOrder (renderedRenderOrder rs) (getRenderOrder l).

Definition createReplayGroup_ (this : VectorTileLayerRenderer)
    (tile : VectorImageTile) (frameState : FrameState) (w : World)
    : outcome (VectorTileLayerRenderer * VectorImageTile * World) :=
  let l := getLayer this in
  let viewProjection := projection (viewState frameState) in
  let revision := getRevision l in
  let renderOrder := getRenderOrder l in
  let replayState := getReplayState tile l in
  let tile := setReplayState tile l replayState in
  if clean replayState l then Return (this, tile, w)
  else
    let resolution :=
      tileGrid_getResolution viewProjection (imageTileCoord tile).1.1 in
    let tileExtent :=
      tileGrid_getTileCoordExtent viewProjection (wrappedTileCoord tile) in
    match sourceTileLoop this tile frameState resolution tileExtent
            renderOrder (renderedRenderOrder replayState) (tileKeys tile)
            (mkProgress (dirty_ this) replayState w) with
    | Throws msg => Throws msg
    | Return p =>
        Return (set_dirty_ this (p_dirty_ p),
                setReplayState tile l
                  (set_rendered (p_replayState p) revision renderOrder),
                p_world p)
    end.

(** *** [renderTileImage_] and [drawTileImage] *)

Definition set_renderedTileRevision (rs : ReplayState) (revision : Z)
    : ReplayState :=
  mkReplayState (dirty rs) (renderedRenderOrder rs) (renderedRevision rs)
    revision.

Definition setContext (t : VectorImageTile) (l : Layer) (c : Canvas)
    : VectorImageTile :=
  mkTile (tileState t) (imageTileCoord t) (wrappedTileCoord t) (tileKeys t)
    (replayState_ t) (<[pretty (layerUid l) := c]> (context_ t)).

(** The loop of [renderTileImage_] over [tile.tileKeys]: each source tile
    that is not in ERROR state has its replay group replayed into the
    tile's own context. *)
Fixpoint rasterLoop (l : Layer) (tile : VectorImageTile)
    (frameState : FrameState) (resolution : Q) (tileExtent : Extent)
    (replays : list ReplayType) (w : World)
    (keys : list string) (drawn : list CanvasOp) : outcome (list CanvasOp) :=
  match keys with
  | [] => Return drawn
  | key :: rest =>
      match sourceTiles w !! key with
      | None => Throws "TypeError"
      | Some sourceTile =>
          if bool_decide (getState sourceTile = ERROR) then
            rasterLoop l tile frameState resolution tileExtent replays w
              rest drawn
          else
            let pixelScale := (pixelRatio frameState / resolution)%Q in
            let transform := resetTransform in
            let transform := scaleTransform transform pixelScale (- pixelScale)%Q in
            let '(minx, _, _, maxy) := tileExtent in
            let transform := translateTransform transform (- minx)%Q (- maxy)%Q in
            match getReplayGroup sourceTile l
                    (TileCoord_toString (imageTileCoord tile)) with
            | None => Throws "TypeError"
            | Some replayGroup =>
                rasterLoop l tile frameState resolution tileExtent replays w
                  rest (drawn ++ [Replay replayGroup transform 0 replays false])
            end
      end
  end.

Definition renderTileImage_ (this : VectorTileLayerRenderer)
    (tile : VectorImageTile) (frameState : FrameState) (w : World)
    : outcome VectorImageTile :=
  let l := getLayer this in
  let replayState := getReplayState tile l in
  let tile := setReplayState tile l replayState in
  let revision := getRevision l in
  match IMAGE_REPLAYS (getRenderMode l) with
  | Some replays =>
      if bool_decide (renderedTileRevision replayState ≠ revision) then
        let tile :=
          setReplayState tile l (set_renderedTileRevision replayState revision) in
        let tileCoord := wrappedTileCoord tile in
        let z := tileCoord.1.1 in
        let viewProjection := projection (viewState frameState) in
        let resolution := tileGrid_getResolution viewProjection z in
        let size := getTilePixelSize z (pixelRatio frameState) viewProjection in
        let tileExtent := tileGrid_getTileCoordExtent viewProjection tileCoord in
        (* setting the size of a canvas empties it *)
        match rasterLoop l tile frameState resolution tileExtent replays w
                (tileKeys tile) [] with
        | Throws msg => Throws msg
        | Return drawn => Return (setContext tile l (mkCanvas size.1 size.2 drawn))
        end
      else Return tile
  | None => Return tile
  end.

(** [drawTileImage]: the replay group, then the rasterized tile when the
    renderer has a context (the parent's part is not modelled). *)
Definition drawTileImage (this : VectorTileLayerRenderer)
    (tile : VectorImageTile) (frameState : FrameState) (w : World)
    : outcome (VectorTileLayerRenderer * VectorImageTile * World) :=
  match createReplayGroup_ this tile frameState w with
  | Throws msg => Throws msg
  | Return (this, tile, w) =>
      if context this then
        match renderTileImage_ this tile frameState w with
        | Throws msg => Throws msg
        | Return tile => Return (this, tile, w)
        end
      else Return (this, tile, w)
  end.

(** *** [forEachFeatureAtCoordinate] *)

Section HitTest.

(** The caller's callback may keep a state of its own. *)
Variable CallbackState : Type.
Variable callback : Feature → Layer → CallbackState → jsval * CallbackState.

(** What the hit-test carries: the [features] object (the keys seen), the
    callback's state, and the features the callback was called with. *)
Record Hits : Type := mkHits {
  features : gset string;
  callbackState : CallbackState;
  calls : list Feature
}.

(** The function handed to the replay group. *)
Definition onlyOnce (l : Layer) (feature : Feature) (h : Hits) : jsval * Hits :=
  let key := pretty (getUid feature) in
  if bool_decide (key ∈ features h) then (JUndefined, h)
  else
    let '(v, s) := callback feature l (callbackState h) in
    (v, mkHits ({[key]} ∪ features h) s (calls h ++ [feature])).

(** Modelled from the spec: [forEachFeatureAtCoordinate] of the replay group,
    which is not among the sources; it "invokes callback(feature) for each
    hit until a truthy result is returned, short-circuiting the search". *)
Fixpoint replayGroup_forEachFeatureAtCoordinate (hit : list Feature)
    (cb : Feature → Hits → jsval * Hits) (h : Hits) : jsval * Hits :=
  match hit with
  | [] => (JUndefined, h)
  | feature :: rest =>
      let '(v, h) := cb feature h in
      if truthy v then (v, h)
      else replayGroup_forEachFeatureAtCoordinate rest cb h
  end.

(** The loop over [tile.tileKeys]. *)
Fixpoint hitKeyLoop (l : Layer) (tile : VectorImageTile) (w : World)
    (coordinate : Coordinate) (resolution rotation hitTolerance : Q)
    (keys : list string) (found : jsval) (h : Hits) : outcome jsval * Hits :=
  match keys with
  | [] => (Return found, h)
  | key :: rest =>
      match sourceTiles w !! key with
      | None => (Throws "TypeError", h)
      | Some sourceTile =>
          if bool_decide (getState sourceTile = ERROR) then
            hitKeyLoop l tile w coordinate resolution rotation hitTolerance
              rest found h
          else if truthy found then
            (* [found || ...]: the replay group is not asked *)
            hitKeyLoop l tile w coordinate resolution rotation hitTolerance
              rest found h
          else
            match getReplayGroup sourceTile l
                    (TileCoord_toString (imageTileCoord tile)) with
            | None => (Throws "TypeError", h)
            | Some replayGroup =>
                let '(found, h) :=
                  replayGroup_forEachFeatureAtCoordinate
                    (hitCandidates replayGroup coordinate resolution
                       rotation hitTolerance)
                    (onlyOnce l) h in
                hitKeyLoop l tile w coordinate resolution rotation
                  hitTolerance rest found h
            end
      end
  end.

(** The loop over [this.renderedTiles]. *)
Fixpoint hitTileLoop (l : Layer) (w : World) (frameState : FrameState)
    (coordinate : Coordinate) (hitTolerance : Q)
    (tiles : list VectorImageTile) (found : jsval) (h : Hits)
    : outcome jsval * Hits :=
  match tiles with
  | [] => (Return found, h)
  | tile :: rest =>
      let resolution := resolution (viewState frameState) in
      let tileExtent :=
        tileGrid_getTileCoordExtent (projection (viewState frameState))
          (wrappedTileCoord tile) in
      let bufferedExtent := buffer tileExtent (hitTolerance * resolution)%Q in
      if negb (containsCoordinate bufferedExtent coordinate) then
        hitTileLoop l w frameState coordinate hitTolerance rest found h
      else
        match hitKeyLoop l tile w coordinate resolution
                (rotation (viewState frameState)) hitTolerance
                (tileKeys tile) found h with
        | (Throws msg, h) => (Throws msg, h)
        | (Return found, h) =>
            hitTileLoop l w frameState coordinate hitTolerance rest found h
        end
  end.

Definition forEachFeatureAtCoordinate (this : VectorTileLayerRenderer)
    (w : World) (coordinate : Coordinate) (frameState : FrameState)
    (hitTolerance : option Q) (s : CallbackState) : outcome jsval * Hits :=
  let hitTolerance := match hitTolerance with None => 0%Q | Some t => t end in
  hitTileLoop (getLayer this) w frameState coordinate hitTolerance
    (renderedTiles this) JUndefined (mkHits ∅ s []).

End HitTest.

(** *** [postCompose] *)

(** The loop over the clips pushed so far: a compound path for each one
    at a higher z than the current tile. *)
Fixpoint clipLoop (currentZ : Z) (currentClip : ClipCoords)
    (clips : list ClipCoords) (zs : list Z) : list CanvasOp :=
  match clips with
  | [] => []
  | clip :: clips' =>
      (if match zs with
          | z :: _ => bool_decide (currentZ < z)%Z
          | [] => false
          end
       then [BeginPath;
             (* counter-clockwise (outer ring) for current tile *)
             MoveTo (c0 currentClip) (c1 currentClip);
             LineTo (c2 currentClip) (c3 currentClip);
             LineTo (c4 currentClip) (c5 currentClip);
             LineTo (c6 currentClip) (c7 currentClip);
             (* clockwise (inner ring) for higher resolution tile *)
             MoveTo (c6 clip) (c7 clip);
             LineTo (c4 clip) (c5 clip);
             LineTo (c2 clip) (c3 clip);
             LineTo (c0 clip) (c1 clip);
             Clip]
       else [])
      ++ clipLoop currentZ currentClip clips' (tail zs)
  end.

(** What the compositing pass carries: the drawing context, [clips] and
    [zs]. *)
Record Pass : Type := mkPass {
  surface : list CanvasOp;
  clips : list ClipCoords;
  zs : list Z
}.

(** The loop of [postCompose] over [tile.tileKeys]. *)
Fixpoint composeKeyLoop (l : Layer) (tile : VectorImageTile)
    (frameState : FrameState) (opacity worldOffset : Q)
    (declutter : bool) (w : World) (keys : list string) (p : Pass)
    : outcome Pass :=
  match keys with
  | [] => Return p
  | key :: rest =>
      match sourceTiles w !! key with
      | None => Throws "TypeError"
      | Some sourceTile =>
          if bool_decide (getState sourceTile = ERROR) then
            composeKeyLoop l tile frameState opacity worldOffset declutter w
              rest p
          else
            match getReplayGroup sourceTile l
                    (TileCoord_toString (imageTileCoord tile)) with
            | None => Throws "TypeError"
            | Some replayGroup =>
                let replayTypes := VECTOR_REPLAYS (getRenderMode l) in
                if bool_decide (getRenderMode l ≠ RENDER_VECTOR)
                   && negb (hasReplays replayGroup replayTypes) then
                  composeKeyLoop l tile frameState opacity worldOffset
                    declutter w rest p
                else
                  let transform := getTransform frameState worldOffset in
                  let currentZ := (tileCoord sourceTile).1.1 in
                  let currentClip := getClipCoords replayGroup transform in
                  let drawn :=
                    surface p ++ [Save; SetGlobalAlpha opacity]
                    ++ clipLoop currentZ currentClip (clips p) (zs p)
                    ++ [Replay replayGroup transform
                          (rotation (viewState frameState)) replayTypes
                          declutter;
                        Restore] in
                  composeKeyLoop l tile frameState opacity worldOffset
                    declutter w rest
                    (mkPass drawn (clips p ++ [currentClip])
                       (zs p ++ [currentZ]))
            end
      end
  end.

(** The loop [for (let i = tiles.length - 1; i >= 0; --i)], entered with
    [n = i + 1]. *)
Fixpoint composeTileLoop (l : Layer) (frameState : FrameState) (opacity : Q)
    (declutter : bool) (w : World) (tiles : list VectorImageTile)
    (n : nat) (p : Pass) : outcome Pass :=
  match n with
  | O => Return p
  | S i =>
      match tiles !! i with
      | None => Throws "TypeError"
      | Some tile =>
          if bool_decide (tileState tile = ABORT) then
            composeTileLoop l frameState opacity declutter w tiles i p
          else
            let viewProjection := projection (viewState frameState) in
            let worldOffset :=
              ((tileGrid_getTileCoordExtent viewProjection
                  (imageTileCoord tile)).1.1.1
               - (tileGrid_getTileCoordExtent viewProjection
                    (wrappedTileCoord tile)).1.1.1)%Q in
            match composeKeyLoop l tile frameState opacity worldOffset
                    declutter w (tileKeys tile) p with
            | Throws msg => Throws msg
            | Return p =>
                composeTileLoop l frameState opacity declutter w tiles i p
            end
      end
  end.

(** [postCompose(context, frameState, layerState)]: what the context is
    asked to do, in order, and the clips and z levels at the end. *)
Definition postCompose (this : VectorTileLayerRenderer) (w : World)
    (context0 : list CanvasOp) (frameState : FrameState) (opacity : Q)
    : outcome Pass :=
  let l := getLayer this in
  let declutter := getDeclutter l in
  let rotation := rotation (viewState frameState) in
  let offsetX := Math_round (pixelRatio frameState * (size frameState).1 / 2)%Q in
  let offsetY := Math_round (pixelRatio frameState * (size frameState).2 / 2)%Q in
  let turned := negb (Qeq_bool rotation 0) in
  let drawn :=
    context0
    ++ (if turned then [RotateAtOffset (- rotation)%Q offsetX offsetY] else [])
    ++ (if declutter then [ClearDeclutterTree] else []) in
  match composeTileLoop l frameState opacity declutter w (renderedTiles this)
          (length (renderedTiles this)) (mkPass drawn [] []) with
  | Throws msg => Throws msg
  | Return p =>
      Return (mkPass
                (surface p
                 ++ (if declutter then [ReplayDeclutter rotation] else [])
                 ++ (if turned then [RotateAtOffset rotation offsetX offsetY]
                     else [])
                 ++ [ParentPostCompose])
                (clips p) (zs p))
  end.

(** A source tile that takes part: any state but ERROR. *)
Definition notError (w : World) (key : string) : bool :=
  match sourceTiles w !! key with
  | Some sourceTile => bool_decide (getState sourceTile ≠ ERROR)
  | None => true
  end.

(** A tile with the keys of its ERROR source tiles left out. *)
Definition withoutErrors (w : World) (tile : VectorImageTile)
    : VectorImageTile :=
  setTileKeys tile (filter (λ k, notError w k = true) (tileKeys tile)).

(** The source tile under [key] holds, for this layer and tile, a finished
    replay group constructed after the first [c0]. *)
Definition built (l : Layer) (tile : VectorImageTile) (c0 : N) (w : World)
    (key : string) : Prop :=
  ∃ sourceTile rg,
    sourceTiles w !! key = Some sourceTile ∧
    getReplayGroup sourceTile l (TileCoord_toString (imageTileCoord tile))
      = Some rg ∧
    (c0 ≤ rg_id rg)%N ∧ (rg_id rg < replayGroupsBuilt w)%N ∧
    rg_finished rg = true.

(** Two worlds with the same source tiles in the same states. *)
Definition sameStates (w1 w2 : World) : Prop :=
  ∀ k, getState <$> (sourceTiles w1 !! k) = getState <$> (sourceTiles w2 !! k).

Definition sameRendered (a b : ReplayState) : Prop :=
  renderedRenderOrder a = renderedRenderOrder b ∧
  renderedRevision a = renderedRevision b ∧
  renderedTileRevision a = renderedTileRevision b.

(** The tile loop of [postCompose] over the tiles it will meet, last
    rendered first. *)
Fixpoint composeScan (l : Layer) (frameState : FrameState) (opacity : Q)
    (declutter : bool) (w : World) (tiles : list VectorImageTile) (p : Pass)
    : outcome Pass :=
  match tiles with
  | [] => Return p
  | tile :: rest =>
      if bool_decide (tileState tile = ABORT) then
        composeScan l frameState opacity declutter w rest p
      else
        let viewProjection := projection (viewState frameState) in
        let worldOffset :=
          ((tileGrid_getTileCoordExtent viewProjection
              (imageTileCoord tile)).1.1.1
           - (tileGrid_getTileCoordExtent viewProjection
                (wrappedTileCoord tile)).1.1.1)%Q in
        match composeKeyLoop l tile frameState opacity worldOffset
                declutter w (tileKeys tile) p with
        | Throws msg => Throws msg
        | Return p => composeScan l frameState opacity declutter w rest p
        end
  end.

Definition setRenderedTiles (r : VectorTileLayerRenderer)
    (tiles : list VectorImageTile) : VectorTileLayerRenderer :=
  mkRenderer (getLayer r) (context r) (dirty_ r) (renderedLayerRevision_ r)
    tiles.

Definition outcome_map {A B} (f : A → B) (o : outcome A) : outcome B :=
  match o with Return a => Return (f a) | Throws msg => Throws msg end.

(** A source tile replayed during a pass: its z, its clip, its replay
    group and the transform it was replayed under. *)
Record DrawnTile : Type := mkDrawn {
  d_z : Z;
  d_clip : ClipCoords;
  d_replayGroup : ReplayGroup;
  d_transform : Transform
}.

Definition worldOffsetOf (frameState : FrameState) (tile : VectorImageTile) : Q :=
  ((tileGrid_getTileCoordExtent (projection (viewState frameState))
      (imageTileCoord tile)).1.1.1
   - (tileGrid_getTileCoordExtent (projection (viewState frameState))
        (wrappedTileCoord tile)).1.1.1)%Q.

(** What a key of a tile contributes to the pass: nothing for a source
    tile in ERROR state or, outside vector mode, without replays of the
    wanted types. *)
Definition drawnOfKey (l : Layer) (frameState : FrameState) (w : World)
    (tile : VectorImageTile) (key : string) : option DrawnTile :=
  sourceTile ← sourceTiles w !! key;
  if bool_decide (getState sourceTile = ERROR) then None
  else
    rg ← getReplayGroup sourceTile l (TileCoord_toString (imageTileCoord tile));
    if bool_decide (getRenderMode l ≠ RENDER_VECTOR)
       && negb (hasReplays rg (VECTOR_REPLAYS (getRenderMode l)))
    then None
    else
      let transform := getTransform frameState (worldOffsetOf frameState tile) in
      Some (mkDrawn (tileCoord sourceTile).1.1 (getClipCoords rg transform)
              rg transform).

(** The source tiles replayed by [postCompose], in the order they are
    replayed: rendered tiles from the last to the first, ABORT tiles left
    out, keys in order. *)
Definition drawnTiles (this : VectorTileLayerRenderer) (w : World)
    (frameState : FrameState) : list DrawnTile :=
  mbind (λ tile, omap (drawnOfKey (getLayer this) frameState w tile)
                      (tileKeys tile))
    (filter (λ tile, tileState tile ≠ ABORT) (reverse (renderedTiles this))).

(** The compound clip path: the current tile's corners one way round, the
    other tile's the other way. *)
Definition compoundClip (current other : ClipCoords) : list CanvasOp :=
  [BeginPath;
   MoveTo (c0 current) (c1 current);
   LineTo (c2 current) (c3 current);
   LineTo (c4 current) (c5 current);
   LineTo (c6 current) (c7 current);
   MoveTo (c6 other) (c7 other);
   LineTo (c4 other) (c5 other);
   LineTo (c2 other) (c3 other);
   LineTo (c0 other) (c1 other);
   Clip].

(** The clip exclusions for a tile: one for each tile drawn before it at a
    higher z. *)
Definition exclusions (d : DrawnTile) (before : list DrawnTile) : list CanvasOp :=
  mbind (λ b, compoundClip (d_clip d) (d_clip b))
    (filter (λ b, (d_z d < d_z b)%Z) before).

(** What drawing one tile asks of the context. *)
Definition replayOf (l : Layer) (frameState : FrameState) (opacity : Q)
    (before : list DrawnTile) (d : DrawnTile) : list CanvasOp :=
  [Save; SetGlobalAlpha opacity] ++ exclusions d before
  ++ [Replay (d_replayGroup d) (d_transform d)
        (rotation (viewState frameState)) (VECTOR_REPLAYS (getRenderMode l))
        (getDeclutter l);
      Restore].

Fixpoint passOf (l : Layer) (frameState : FrameState) (opacity : Q)
    (before ds : list DrawnTile) : list CanvasOp :=
  match ds with
  | [] => []
  | d :: rest =>
      replayOf l frameState opacity before d
      ++ passOf l frameState opacity (before ++ [d]) rest
  end.

(** The rendered tiles can be composited: the keys of every tile that is
    not in ABORT state name source tiles, and those not in ERROR state hold
    a replay group for this layer and tile. *)
Definition prepared (this : VectorTileLayerRenderer) (w : World) : Prop :=
  ∀ tile, tile ∈ renderedTiles this → tileState tile ≠ ABORT →
  ∀ key, key ∈ tileKeys tile →
    ∃ sourceTile,
      sourceTiles w !! key = Some sourceTile ∧
      (getState sourceTile ≠ ERROR →
       is_Some (getReplayGroup sourceTile (getLayer this)
                  (TileCoord_toString (imageTileCoord tile)))).

(** *** Building keeps identities and what was rendered before *)

Lemma renderStyles_id rg feature styles tol loading :
  rg_id (renderStyles rg feature styles tol loading).2 = rg_id rg.
Proof.
  revert rg loading. induction styles as [|st rest IH]; intros rg loading;
    simpl; [done |]. by rewrite IH.
Qed.

Lemma renderFeature_id feature tol styles rg :
  rg_id (renderFeature feature tol styles rg).2 = rg_id rg.
Proof. destruct styles; simpl; [done | done | apply renderStyles_id]. Qed.

Lemma render_keeps l res tol feature b :
  rg_id (b_replayGroup (render l res tol feature b)) = rg_id (b_replayGroup b) ∧
  sameRendered (b_replayState (render l res tol feature b)) (b_replayState b).
Proof.
  unfold render.
  set (styles := match match getStyleFunction feature with
                       | Some f => Some f
                       | None => _
                       end with
                 | Some f => f res
                 | None => NoStyles
                 end).
  pose proof (renderFeature_id feature tol styles (b_replayGroup b)) as Hid.
  destruct (renderFeature feature tol styles (b_replayGroup b)) as [d rg].
  destruct styles; simpl in *; by repeat split.
Qed.

Lemma featureLoop_keeps l res tol reproject vp ste tpe be features :
  ∀ tp b,
  rg_id (b_replayGroup
           (featureLoop l res tol reproject tp vp ste tpe be features b).2)
    = rg_id (b_replayGroup b) ∧
  sameRendered
    (b_replayState
       (featureLoop l res tol reproject tp vp ste tpe be features b).2)
    (b_replayState b).
Proof.
  induction features as [|feature rest IH]; intros tp b; simpl;
    [by repeat split |].
  match goal with
  | |- context [featureLoop l res tol reproject ?tp' vp ste tpe be rest ?b'] =>
      destruct (IH tp' b') as [Hid Hsame];
      destruct (featureLoop l res tol reproject tp' vp ste tpe be rest b')
        as [fs b1] eqn:Hloop;
      assert (Hb' : rg_id (b_replayGroup b') = rg_id (b_replayGroup b) ∧
                    sameRendered (b_replayState b') (b_replayState b))
  end.
  { destruct (match be with
              | Some e => intersects e _
              | None => true
              end); [apply render_keeps | by repeat split]. }
  simpl in *. destruct Hb' as [Hid' Hsame']. split; [congruence |].
  destruct Hsame as (? & ? & ?), Hsame' as (? & ? & ?).
  repeat split; congruence.
Qed.

Lemma buildSourceTile_spec this tile fs res te ro rb key sourceTile p :
  let p1 := buildSourceTile this tile fs res te ro rb key sourceTile p in
  ∃ sourceTile' rg,
    sourceTiles (p_world p1)
      = <[key := sourceTile']> (sourceTiles (p_world p)) ∧
    getState sourceTile' = getState sourceTile ∧
    getReplayGroup sourceTile' (getLayer this)
      (TileCoord_toString (imageTileCoord tile)) = Some rg ∧
    rg_id rg = replayGroupsBuilt (p_world p) ∧
    rg_finished rg = true ∧
    replayGroupsBuilt (p_world p1) = N.succ (replayGroupsBuilt (p_world p)) ∧
    sameRendered (p_replayState p1) (p_replayState p).
Proof.
  unfold buildSourceTile.
  match goal with
  | |- context [featureLoop ?a1 ?a2 ?a3 ?a4 ?a5 ?a6 ?a7 ?a8 ?a9 ?a10 ?a11] =>
      destruct (featureLoop_keeps a1 a2 a3 a4 a6 a7 a8 a9 a10 a5 a11)
        as [Hid Hsame];
      destruct (featureLoop a1 a2 a3 a4 a5 a6 a7 a8 a9 a10 a11)
        as [features b]
  end.
  simpl in *. eexists _, _. split; [reflexivity |].
  split; [by destruct (negb _) |].
  split; [unfold getReplayGroup; simpl; apply lookup_insert_eq |].
  split; [done |]. split; [done |]. split; [done |].
  destruct Hsame as (? & ? & ?). by repeat split.
Qed.

Lemma sameStates_refl w : sameStates w w.
Proof. by intros k. Qed.

Lemma sameStates_trans w1 w2 w3 :
  sameStates w1 w2 → sameStates w2 w3 → sameStates w1 w3.
Proof. intros H12 H23 k. by rewrite H12. Qed.

Lemma notError_sameStates w1 w2 k :
  sameStates w1 w2 → notError w1 k = notError w2 k.
Proof.
  intros Hs. unfold notError. specialize (Hs k).
  destruct (sourceTiles w1 !! k) as [s1|], (sourceTiles w2 !! k) as [s2|];
    simpl in Hs; try done.
  injection Hs as Hs. by rewrite Hs.
Qed.

Lemma buildSourceTile_sameStates this tile fs res te ro rb key sourceTile p :
  sourceTiles (p_world p) !! key = Some sourceTile →
  sameStates
    (p_world (buildSourceTile this tile fs res te ro rb key sourceTile p))
    (p_world p).
Proof.
  intros Hk k.
  destruct (buildSourceTile_spec this tile fs res te ro rb key sourceTile p)
    as (st' & rg & Hw & Hst & _). rewrite Hw.
  destruct (decide (key = k)) as [<-|Hne].
  - by rewrite lookup_insert_eq, Hk; simpl; rewrite Hst.
  - by rewrite lookup_insert_ne.
Qed.

Lemma built_after_build this tile fs res te ro rb key sourceTile p c0 k :
  sourceTiles (p_world p) !! key = Some sourceTile →
  built (getLayer this) tile c0 (p_world p) k →
  built (getLayer this) tile c0
    (p_world (buildSourceTile this tile fs res te ro rb key sourceTile p)) k.
Proof.
  intros Hk (st & rg & Hst & Hrg & Hlo & Hhi & Hfin).
  destruct (buildSourceTile_spec this tile fs res te ro rb key sourceTile p)
    as (st' & rg' & Hw & _ & Hrg' & Hid & Hfin' & Hcount & _).
  unfold built. rewrite Hw, Hcount.
  destruct (decide (key = k)) as [<-|Hne].
  - rewrite lookup_insert_eq. exists st', rg'.
    repeat split; try done; lia.
  - rewrite lookup_insert_ne by done. exists st, rg.
    repeat split; try done; lia.
Qed.

Lemma built_by_build this tile fs res te ro rb key sourceTile p :
  built (getLayer this) tile (replayGroupsBuilt (p_world p))
    (p_world (buildSourceTile this tile fs res te ro rb key sourceTile p)) key.
Proof.
  destruct (buildSourceTile_spec this tile fs res te ro rb key sourceTile p)
    as (st' & rg' & Hw & _ & Hrg' & Hid & Hfin' & Hcount & _).
  unfold built. rewrite Hw, Hcount, lookup_insert_eq. exists st', rg'.
  repeat split; try done; lia.
Qed.

Lemma built_weaken l tile c0 c1 w k :
  (c0 ≤ c1)%N → built l tile c1 w k → built l tile c0 w k.
Proof.
  intros Hle (st & rg & ? & ? & ? & ? & ?). exists st, rg.
  repeat split; try done; lia.
Qed.

Lemma sourceTileLoop_returns this tile fs res te ro rb keys : ∀ p p',
  sourceTileLoop this tile fs res te ro rb keys p = Return p' →
  sameStates (p_world p') (p_world p) ∧
  (∀ k st, sourceTiles (p_world p) !! k = Some st → getState st = ERROR →
           sourceTiles (p_world p') !! k = Some st) ∧
  replayGroupsBuilt (p_world p')
    = (replayGroupsBuilt (p_world p)
       + N.of_nat (length (filter (λ k, notError (p_world p) k = true) keys)))%N ∧
  (∀ c0 k, built (getLayer this) tile c0 (p_world p) k →
           built (getLayer this) tile c0 (p_world p') k) ∧
  (∀ k, k ∈ keys → notError (p_world p) k = true →
        built (getLayer this) tile (replayGroupsBuilt (p_world p))
          (p_world p') k) ∧
  sameRendered (p_replayState p') (p_replayState p).
Proof.
  induction keys as [|key rest IH]; intros p p'; simpl.
  - intros [= <-]. split; [apply sameStates_refl |]. split; [done |].
    split; [lia |]. split; [done |].
    split; [intros k Hk; by apply elem_of_nil in Hk | by repeat split].
  - destruct (sourceTiles (p_world p) !! key) as [sourceTile|] eqn:Hk; [| done].
    case_bool_decide as Herr; intros Hloop.
    + destruct (IH _ _ Hloop) as (Hs & Hun & Hc & Hb & Hnew & Hr).
      split; [done |]. split; [done |]. split.
      { rewrite filter_cons_False; [done |].
        unfold notError. rewrite Hk. by rewrite bool_decide_eq_false_2 by auto. }
      split; [done |]. split; [| done].
      intros k [->|Hin]%elem_of_cons Hne; [| by apply Hnew].
      unfold notError in Hne. rewrite Hk in Hne.
      by apply bool_decide_eq_true in Hne.
    + set (p1 := buildSourceTile this tile fs res te ro rb key sourceTile p)
        in *.
      destruct (IH _ _ Hloop) as (Hs & Hun & Hc & Hb & Hnew & Hr).
      pose proof (buildSourceTile_sameStates this tile fs res te ro rb key
                    sourceTile p Hk) as Hs1. fold p1 in Hs1.
      destruct (buildSourceTile_spec this tile fs res te ro rb key sourceTile p)
        as (st' & rg' & Hw & Hst' & _ & _ & _ & Hcount & Hr1). fold p1 in Hw, Hcount, Hr1.
      split; [by eapply sameStates_trans |]. split.
      { intros k st Hkst He. apply Hun; [| done]. rewrite Hw.
        rewrite lookup_insert_ne; [done |]. intros <-. congruence. }
      split.
      { rewrite Hc, Hcount, filter_cons_True.
        - rewrite (list_filter_iff _ (λ k, notError (p_world p) k = true)).
          + simpl. lia.
          + intros k. by rewrite (notError_sameStates _ _ k Hs1).
        - unfold notError. rewrite Hk. by apply bool_decide_eq_true. }
      split.
      { intros c0 k Hbuilt. apply Hb. by apply built_after_build. }
      split.
      { intros k [->|Hin]%elem_of_cons Hne.
        - apply Hb. apply built_by_build.
        - eapply built_weaken; [| apply Hnew; [done |]].
          + rewrite Hcount. lia.
          + by rewrite (notError_sameStates _ _ k Hs1). }
      destruct Hr as (? & ? & ?), Hr1 as (? & ? & ?).
      repeat split; congruence.
Qed.


Lemma sourceTileLoop_prune this tile tile' fs res te ro rb w0 keys : ∀ p,
  imageTileCoord tile' = imageTileCoord tile →
  sameStates (p_world p) w0 →
  sourceTileLoop this tile fs res te ro rb keys p
  = sourceTileLoop this tile' fs res te ro rb
      (filter (λ k, notError w0 k = true) keys) p.
Proof.
  intros p Htc. revert p.
  induction keys as [|key rest IH]; intros p Hs; [done |].
  rewrite filter_cons.
  rewrite <- (notError_sameStates _ _ key Hs). unfold notError.
  simpl. destruct (sourceTiles (p_world p) !! key) as [sourceTile|] eqn:Hk.
  - case_bool_decide as Herr.
    + rewrite bool_decide_eq_false_2 by auto.
      rewrite decide_False by done. by apply IH.
    + rewrite bool_decide_eq_true_2 by done.
      rewrite decide_True by done. simpl. rewrite Hk.
      rewrite bool_decide_eq_false_2 by done.
      assert (Hb : buildSourceTile this tile fs res te ro rb key sourceTile p
                   = buildSourceTile this tile' fs res te ro rb key sourceTile p).
      { unfold buildSourceTile. by rewrite Htc. }
      rewrite <- Hb. apply IH.
      eapply sameStates_trans; [| exact Hs].
      by apply buildSourceTile_sameStates.
  - rewrite decide_True by done. simpl. by rewrite Hk.
Qed.

Lemma sameOrder_refl o : sameOrder o o = true.
Proof. destruct o; simpl; [apply N.eqb_refl | done]. Qed.

Lemma setReplayState_id tile l rs :
  replayState_ tile !! pretty (layerUid l) = Some rs →
  setReplayState tile l rs = tile.
Proof.
  intros Hrs. destruct tile. unfold setReplayState. simpl in *.
  f_equal. by apply insert_id.
Qed.

Lemma createReplayGroup_clean this tile frameState w rs :
  replayState_ tile !! pretty (layerUid (getLayer this)) = Some rs →
  clean rs (getLayer this) = true →
  createReplayGroup_ this tile frameState w = Return (this, tile, w).
Proof.
  intros Hrs Hclean. unfold createReplayGroup_, getReplayState.
  rewrite Hrs, Hclean. by rewrite setReplayState_id.
Qed.


(** *** Source tiles in ERROR state are passed over *)

Lemma rasterLoop_prune l tile tile' fs res te replays w keys : ∀ drawn,
  imageTileCoord tile' = imageTileCoord tile →
  rasterLoop l tile fs res te replays w keys drawn
  = rasterLoop l tile' fs res te replays w
      (filter (λ k, notError w k = true) keys) drawn.
Proof.
  intros drawn Htc. revert drawn.
  induction keys as [|key rest IH]; intros drawn; [done |].
  rewrite filter_cons. unfold notError. simpl.
  destruct (sourceTiles w !! key) as [sourceTile|] eqn:Hk.
  - case_bool_decide as Herr.
    + rewrite bool_decide_eq_false_2 by auto.
      rewrite decide_False by done. apply IH.
    + rewrite bool_decide_eq_true_2 by done.
      rewrite decide_True by done. simpl. rewrite Hk.
      rewrite bool_decide_eq_false_2 by done.
      destruct te as [[[minx miny] maxx] maxy]. rewrite Htc.
      destruct (getReplayGroup _ _ _); [apply IH | done].
  - rewrite decide_True by done. simpl. by rewrite Hk.
Qed.

Lemma composeKeyLoop_prune l tile tile' fs op wo dec w keys : ∀ p,
  imageTileCoord tile' = imageTileCoord tile →
  composeKeyLoop l tile fs op wo dec w keys p
  = composeKeyLoop l tile' fs op wo dec w
      (filter (λ k, notError w k = true) keys) p.
Proof.
  intros p Htc. revert p.
  induction keys as [|key rest IH]; intros p; [done |].
  rewrite filter_cons. unfold notError. simpl.
  destruct (sourceTiles w !! key) as [sourceTile|] eqn:Hk.
  - case_bool_decide as Herr.
    + rewrite (bool_decide_eq_false_2 (getState sourceTile ≠ ERROR)) by auto.
      rewrite decide_False by done. apply IH.
    + rewrite (bool_decide_eq_true_2 (getState sourceTile ≠ ERROR)) by done.
      rewrite decide_True by done. simpl. rewrite Hk.
      rewrite (bool_decide_eq_false_2 (getState sourceTile = ERROR)) by done.
      rewrite Htc.
      destruct (getReplayGroup _ _ _); [| done].
      destruct (_ && _); apply IH.
  - rewrite decide_True by done. simpl. by rewrite Hk.
Qed.

Lemma composeTileLoop_unfold l fs op dec w tiles i p tile :
  tiles !! i = Some tile →
  composeTileLoop l fs op dec w tiles (S i) p
  = if bool_decide (tileState tile = ABORT)
    then composeTileLoop l fs op dec w tiles i p
    else match composeKeyLoop l tile fs op (worldOffsetOf fs tile) dec w
                 (tileKeys tile) p with
         | Throws msg => Throws msg
         | Return p => composeTileLoop l fs op dec w tiles i p
         end.
Proof. intros Ht. simpl. by rewrite Ht. Qed.

Lemma composeTileLoop_scan l fs op dec w tiles n : ∀ p,
  (n ≤ length tiles)%nat →
  composeTileLoop l fs op dec w tiles n p
  = composeScan l fs op dec w (reverse (take n tiles)) p.
Proof.
  induction n as [|n IH]; intros p Hn.
  - by rewrite take_0.
  - destruct (lookup_lt_is_Some_2 tiles n) as [tile Ht]; [lia |].
    rewrite (composeTileLoop_unfold _ _ _ _ _ _ _ _ _ Ht).
    rewrite (take_S_r _ _ _ Ht), reverse_snoc. simpl.
    case_bool_decide; [apply IH; lia |].
    unfold worldOffsetOf.
    destruct (composeKeyLoop _ _ _ _ _ _ _ _ _); [apply IH; lia | done].
Qed.

Lemma composeScan_prune l fs op dec w tiles : ∀ p,
  composeScan l fs op dec w tiles p
  = composeScan l fs op dec w
      (withoutErrors w <$> filter (λ t, tileState t ≠ ABORT) tiles) p.
Proof.
  induction tiles as [|tile rest IH]; intros p; [done |].
  rewrite filter_cons. simpl. case_bool_decide as Hab.
  - rewrite decide_False by auto. apply IH.
  - rewrite decide_True by done. rewrite fmap_cons. simpl.
    rewrite bool_decide_eq_false_2 by done.
    rewrite (composeKeyLoop_prune l tile (withoutErrors w tile)) by done.
    destruct (composeKeyLoop _ _ _ _ _ _ _ _ _); [apply IH | done].
Qed.

Lemma postCompose_prune this w context0 fs op :
  postCompose this w context0 fs op
  = postCompose
      (setRenderedTiles this
         (withoutErrors w
            <$> filter (λ t, tileState t ≠ ABORT) (renderedTiles this)))
      w context0 fs op.
Proof.
  unfold postCompose. simpl.
  rewrite !composeTileLoop_scan, !firstn_all by done.
  rewrite composeScan_prune.
  by rewrite filter_reverse, fmap_reverse.
Qed.

Lemma createReplayGroup_prune this tile fs w :
  createReplayGroup_ this tile fs w
  = outcome_map (λ r, (r.1.1, setTileKeys r.1.2 (tileKeys tile), r.2))
      (createReplayGroup_ this (withoutErrors w tile) fs w).
Proof.
  unfold createReplayGroup_.
  replace (getReplayState (withoutErrors w tile) (getLayer this))
    with (getReplayState tile (getLayer this)) by done.
  destruct (clean _ _); [by destruct tile |].
  simpl.
  rewrite (sourceTileLoop_prune this _
             (setReplayState (withoutErrors w tile) (getLayer this)
                (getReplayState tile (getLayer this)))
             _ _ _ _ _ w); [| done | apply sameStates_refl].
  simpl. destruct (sourceTileLoop _ _ _ _ _ _ _ _ _); [| done].
  by destruct tile.
Qed.

Lemma createReplayGroup_keeps_errors this tile fs w this' tile' w' :
  createReplayGroup_ this tile fs w = Return (this', tile', w') →
  ∀ key sourceTile,
    sourceTiles w !! key = Some sourceTile →
    getState sourceTile = ERROR →
    sourceTiles w' !! key = Some sourceTile.
Proof.
  unfold createReplayGroup_. destruct (clean _ _).
  - by intros [= <- <- <-].
  - destruct (sourceTileLoop _ _ _ _ _ _ _ _ _) as [p'|] eqn:Hloop; [| done].
    intros [= <- <- <-].
    by apply sourceTileLoop_returns in Hloop as (_ & Hun & _).
Qed.

Lemma renderTileImage_prune this tile fs w :
  renderTileImage_ this tile fs w
  = outcome_map (λ t, setTileKeys t (tileKeys tile))
      (renderTileImage_ this (withoutErrors w tile) fs w).
Proof.
  unfold renderTileImage_.
  replace (getReplayState (withoutErrors w tile) (getLayer this))
    with (getReplayState tile (getLayer this)) by done.
  destruct (IMAGE_REPLAYS _) as [replays|]; [| by destruct tile].
  case_bool_decide; [| by destruct tile].
  simpl.
  rewrite (rasterLoop_prune _ _
             (setReplayState
                (setReplayState (withoutErrors w tile) (getLayer this)
                   (getReplayState tile (getLayer this)))
                (getLayer this)
                (set_renderedTileRevision
                   (getReplayState tile (getLayer this))
                   (getRevision (getLayer this))))); [| done].
  simpl. destruct (rasterLoop _ _ _ _ _ _ _ _ _); [| done].
  by destruct tile.
Qed.

(** *** The compositing pass *)

Lemma clipLoop_exclusions d before :
  clipLoop (d_z d) (d_clip d) (d_clip <$> before) (d_z <$> before)
  = exclusions d before.
Proof.
  unfold exclusions. induction before as [|b rest IH]; [done |].
  rewrite !fmap_cons, filter_cons. simpl. rewrite IH.
  case_bool_decide; [by rewrite decide_True | by rewrite decide_False].
Qed.

Lemma passOf_app l fs op ds1 : ∀ before ds2,
  passOf l fs op before (ds1 ++ ds2)
  = passOf l fs op before ds1 ++ passOf l fs op (before ++ ds1) ds2.
Proof.
  induction ds1 as [|d rest IH]; intros before ds2; simpl.
  - by rewrite app_nil_r.
  - rewrite IH. rewrite <- (app_assoc before [d] rest). simpl.
    do 2 f_equal. by rewrite <- !app_assoc.
Qed.

Lemma composeKeyLoop_step l tile fs op w key rest p sourceTile :
  sourceTiles w !! key = Some sourceTile →
  (getState sourceTile ≠ ERROR →
   is_Some (getReplayGroup sourceTile l
              (TileCoord_toString (imageTileCoord tile)))) →
  composeKeyLoop l tile fs op (worldOffsetOf fs tile) (getDeclutter l) w
    (key :: rest) p
  = composeKeyLoop l tile fs op (worldOffsetOf fs tile) (getDeclutter l) w
      rest
      (match drawnOfKey l fs w tile key with
       | None => p
       | Some d =>
           mkPass
             (surface p ++ [Save; SetGlobalAlpha op]
              ++ clipLoop (d_z d) (d_clip d) (clips p) (zs p)
              ++ [Replay (d_replayGroup d) (d_transform d)
                    (rotation (viewState fs))
                    (VECTOR_REPLAYS (getRenderMode l)) (getDeclutter l);
                  Restore])
             (clips p ++ [d_clip d]) (zs p ++ [d_z d])
       end).
Proof.
  intros Hk Hrg. simpl. unfold drawnOfKey. rewrite Hk. simpl.
  case_bool_decide as Herr; [done |].
  destruct (Hrg Herr) as [rg Hg]. rewrite Hg. simpl.
  by destruct (bool_decide (getRenderMode l ≠ RENDER_VECTOR)
               && negb (hasReplays rg (VECTOR_REPLAYS (getRenderMode l)))).
Qed.

Lemma omap_cons_match {A B} (f : A → option B) x l :
  omap f (x :: l)
  = match f x with Some y => y :: omap f l | None => omap f l end.
Proof. done. Qed.

Lemma composeKeyLoop_char l tile fs op w keys : ∀ p before,
  clips p = d_clip <$> before →
  zs p = d_z <$> before →
  (∀ key, key ∈ keys →
     ∃ sourceTile,
       sourceTiles w !! key = Some sourceTile ∧
       (getState sourceTile ≠ ERROR →
        is_Some (getReplayGroup sourceTile l
                   (TileCoord_toString (imageTileCoord tile))))) →
  ∃ p',
    composeKeyLoop l tile fs op (worldOffsetOf fs tile) (getDeclutter l) w
      keys p = Return p' ∧
    surface p' = surface p
                 ++ passOf l fs op before (omap (drawnOfKey l fs w tile) keys) ∧
    clips p' = d_clip <$> (before ++ omap (drawnOfKey l fs w tile) keys) ∧
    zs p' = d_z <$> (before ++ omap (drawnOfKey l fs w tile) keys).
Proof.
  induction keys as [|key rest IH]; intros p before Hc Hz Hkeys.
  - exists p. simpl. by rewrite !app_nil_r.
  - destruct (Hkeys key) as (sourceTile & Hk & Hrg); [by left |].
    assert (Hrest : ∀ k, k ∈ rest →
              ∃ st, sourceTiles w !! k = Some st ∧
                (getState st ≠ ERROR →
                 is_Some (getReplayGroup st l
                            (TileCoord_toString (imageTileCoord tile))))).
    { intros k Hin. apply Hkeys. by right. }
    rewrite (composeKeyLoop_step _ _ _ _ _ _ _ _ _ Hk Hrg).
    rewrite omap_cons_match.
    destruct (drawnOfKey l fs w tile key) as [d|]; [| by apply IH].
    match goal with
    | |- ∃ p', composeKeyLoop _ _ _ _ _ _ _ _ ?p1 = _ ∧ _ =>
        destruct (IH p1 (before ++ [d])) as (p' & Hrun & Hs & Hc' & Hz')
    end.
    { simpl. by rewrite Hc, fmap_app. }
    { simpl. by rewrite Hz, fmap_app. }
    { done. }
    exists p'. split; [done |]. simpl in Hs.
    rewrite Hc, Hz, (clipLoop_exclusions d before) in Hs.
    split.
    + rewrite Hs. unfold replayOf. simpl. by rewrite <- app_assoc.
    + rewrite <- app_assoc in Hc', Hz'. by split.
Qed.

Lemma composeScan_char l fs op w tiles : ∀ p before,
  clips p = d_clip <$> before →
  zs p = d_z <$> before →
  (∀ tile, tile ∈ tiles → tileState tile ≠ ABORT →
   ∀ key, key ∈ tileKeys tile →
     ∃ sourceTile,
       sourceTiles w !! key = Some sourceTile ∧
       (getState sourceTile ≠ ERROR →
        is_Some (getReplayGroup sourceTile l
                   (TileCoord_toString (imageTileCoord tile))))) →
  let ds := mbind (λ tile, omap (drawnOfKey l fs w tile) (tileKeys tile))
              (filter (λ tile, tileState tile ≠ ABORT) tiles) in
  ∃ p',
    composeScan l fs op (getDeclutter l) w tiles p = Return p' ∧
    surface p' = surface p ++ passOf l fs op before ds ∧
    clips p' = d_clip <$> (before ++ ds) ∧
    zs p' = d_z <$> (before ++ ds).
Proof.
  induction tiles as [|tile rest IH]; intros p before Hc Hz Hprep.
  - exists p. simpl. by rewrite !app_nil_r.
  - assert (Hrest : ∀ t, t ∈ rest → tileState t ≠ ABORT →
              ∀ key, key ∈ tileKeys t →
                ∃ st, sourceTiles w !! key = Some st ∧
                  (getState st ≠ ERROR →
                   is_Some (getReplayGroup st l
                              (TileCoord_toString (imageTileCoord t))))).
    { intros t Hin. apply Hprep. by right. }
    simpl. rewrite filter_cons. case_bool_decide as Hab.
    + rewrite decide_False by auto. by apply IH.
    + rewrite decide_True by done.
      destruct (composeKeyLoop_char l tile fs op w (tileKeys tile) p before
                  Hc Hz) as (p1 & Hrun & Hs1 & Hc1 & Hz1).
      { apply Hprep; [by left | done]. }
      fold (worldOffsetOf fs tile). rewrite Hrun.
      destruct (IH p1 _ Hc1 Hz1 Hrest) as (p' & Hrun' & Hs' & Hc' & Hz').
      exists p'. split; [done |].
      rewrite bind_cons, passOf_app, !app_assoc.
      rewrite Hs', Hs1, <- !app_assoc in *. by repeat split.
Qed.

Lemma composeKeyLoop_grows l tile fs op wo dec w keys : ∀ p p',
  composeKeyLoop l tile fs op wo dec w keys p = Return p' →
  surface p `prefix_of` surface p' ∧
  clips p `prefix_of` clips p' ∧ zs p `prefix_of` zs p' ∧
  (length (clips p) = length (zs p) → length (clips p') = length (zs p')).
Proof.
  induction keys as [|key rest IH]; intros p p'; simpl.
  - by intros [= <-].
  - destruct (sourceTiles w !! key) as [sourceTile|]; [| done].
    case_bool_decide; [apply IH |].
    destruct (getReplayGroup _ _ _) as [rg|]; [| done].
    destruct (_ && _); [apply IH |].
    intros Hrun. apply IH in Hrun as (Hs & Hc & Hz & Hlen). simpl in *.
    split; [etrans; [by apply prefix_app_r | exact Hs] |].
    split; [etrans; [by apply prefix_app_r | exact Hc] |].
    split; [etrans; [by apply prefix_app_r | exact Hz] |].
    intros Hl. apply Hlen. rewrite !length_app. simpl. lia.
Qed.

Lemma composeTileLoop_grows l fs op dec w tiles n : ∀ p p',
  composeTileLoop l fs op dec w tiles n p = Return p' →
  surface p `prefix_of` surface p' ∧
  clips p `prefix_of` clips p' ∧ zs p `prefix_of` zs p' ∧
  (length (clips p) = length (zs p) → length (clips p') = length (zs p')).
Proof.
  induction n as [|n IH]; intros p p'; simpl.
  - by intros [= <-].
  - destruct (tiles !! n) as [tile|]; [| done].
    case_bool_decide; [apply IH |].
    destruct (composeKeyLoop _ _ _ _ _ _ _ _ _) as [p1|] eqn:Hk; [| done].
    intros Hrun. apply IH in Hrun as (Hs & Hc & Hz & Hlen).
    apply composeKeyLoop_grows in Hk as (Hs1 & Hc1 & Hz1 & Hlen1).
    split; [by etrans |]. split; [by etrans |]. split; [by etrans |].
    intros Hl. by apply Hlen, Hlen1.
Qed.

Lemma passOf_at l fs op ds i d :
  ds !! i = Some d →
  passOf l fs op [] ds
  = passOf l fs op [] (take i ds)
    ++ replayOf l fs op (take i ds) d
    ++ passOf l fs op (take (S i) ds) (drop (S i) ds).
Proof.
  intros Hd. rewrite <- (take_drop_middle ds i d Hd) at 1.
  rewrite passOf_app. simpl. rewrite (take_S_r _ _ _ Hd).
  do 3 f_equal; by rewrite <- ?app_assoc.
Qed.

Lemma exclusions_contains d before b :
  b ∈ before → (d_z d < d_z b)%Z →
  ∃ pre post,
    exclusions d before = pre ++ compoundClip (d_clip d) (d_clip b) ++ post.
Proof.
  intros Hb Hz. unfold exclusions.
  assert (Hin : b ∈ filter (λ b, (d_z d < d_z b)%Z) before).
  { by apply list_elem_of_filter. }
  apply list_elem_of_split in Hin as (l1 & l2 & ->).
  rewrite bind_app, bind_cons. by eexists _, _.
Qed.

Lemma exclusions_none d before :
  (∀ b, b ∈ before → (d_z b ≤ d_z d)%Z) → exclusions d before = [].
Proof.
  intros Hall. unfold exclusions.
  induction before as [|b rest IH]; [done |].
  rewrite filter_cons, decide_False.
  - apply IH. intros b' Hb'. apply Hall. by right.
  - assert (d_z b ≤ d_z d)%Z by (apply Hall; by left). lia.
Qed.

(** C2: when the rendered tiles can be composited, [postCompose] replays
    the source tiles in the order of [drawnTiles] (rendered tiles from the
    last to the first, ABORT tiles and ERROR source tiles left out).
    Between the save and the replay of each tile, the context receives one
    compound clip path for every tile replayed earlier in the pass at a
    higher z, and for no other: outer ring the current tile's clip corners
    in order, inner ring the earlier tile's in reverse order.  The earlier
    tiles are all those of the pass, across composite tiles: [clips] and
    [zs] are only ever appended to, they end with one entry per replayed
    tile, and over any stretch of the loop they grow by a suffix. *)
Theorem postCompose_clips_higher_resolution this w context0 frameState opacity :
  prepared this w →
  let l := getLayer this in
  let ds := drawnTiles this w frameState in
  let rotation := rotation (viewState frameState) in
  let offsetX :=
    Math_round (pixelRatio frameState * (size frameState).1 / 2)%Q in
  let offsetY :=
    Math_round (pixelRatio frameState * (size frameState).2 / 2)%Q in
  let turned := negb (Qeq_bool rotation 0) in
  let before :=
    (if turned then [RotateAtOffset (- rotation)%Q offsetX offsetY] else [])
    ++ (if getDeclutter l then [ClearDeclutterTree] else []) in
  let after :=
    (if getDeclutter l then [ReplayDeclutter rotation] else [])
    ++ (if turned then [RotateAtOffset rotation offsetX offsetY] else [])
    ++ [ParentPostCompose] in
  ∃ p,
    postCompose this w context0 frameState opacity = Return p ∧
    surface p
      = context0 ++ before ++ passOf l frameState opacity [] ds ++ after ∧
    clips p = d_clip <$> ds ∧
    zs p = d_z <$> ds ∧
    (∀ i d, ds !! i = Some d →
       surface p
       = (context0 ++ before ++ passOf l frameState opacity [] (take i ds))
         ++ [Save; SetGlobalAlpha opacity]
         ++ exclusions d (take i ds)
         ++ [Replay (d_replayGroup d) (d_transform d) rotation
               (VECTOR_REPLAYS (getRenderMode l)) (getDeclutter l);
             Restore]
         ++ passOf l frameState opacity (take (S i) ds) (drop (S i) ds)
         ++ after) ∧
    (∀ i j d b, ds !! i = Some d → ds !! j = Some b → (j < i)%nat →
       (d_z d < d_z b)%Z →
       ∃ pre post,
         exclusions d (take i ds)
         = pre ++ compoundClip (d_clip d) (d_clip b) ++ post) ∧
    (∀ i d, ds !! i = Some d →
       (∀ j b, (j < i)%nat → ds !! j = Some b → (d_z b ≤ d_z d)%Z) →
       exclusions d (take i ds) = []) ∧
    (∀ n p0 p1,
       composeTileLoop l frameState opacity (getDeclutter l) w
         (renderedTiles this) n p0 = Return p1 →
       clips p0 `prefix_of` clips p1 ∧ zs p0 `prefix_of` zs p1).
Proof.
  intros Hprep l ds rot offsetX offsetY turned before after.
  destruct (composeScan_char l frameState opacity w
              (reverse (renderedTiles this))
              (mkPass (context0 ++ before) [] []) [])
    as (p' & Hrun & Hs & Hc & Hz); [done | done | |].
  { intros tile Hin. apply Hprep. by apply elem_of_reverse. }
  simpl in Hs, Hc, Hz. fold ds in Hs, Hc, Hz.
  exists (mkPass (surface p' ++ after) (clips p') (zs p')).
  assert (Hsurf : surface p' ++ after
            = context0 ++ before ++ passOf l frameState opacity [] ds ++ after).
  { rewrite Hs. by rewrite <- !app_assoc. }
  split.
  { unfold postCompose. fold l.
    rewrite composeTileLoop_scan, firstn_all by done.
    fold rot turned offsetX offsetY before.
    by rewrite Hrun. }
  split; [exact Hsurf |]. split; [done |]. split; [done |]. split.
  { intros i d Hd. simpl. rewrite Hsurf.
    rewrite (passOf_at l frameState opacity ds i d Hd).
    unfold replayOf. rewrite <- !app_assoc. done. }
  split.
  { intros i j d b Hd Hb Hji Hz'. apply exclusions_contains; [| done].
    apply elem_of_take. by exists j. }
  split.
  { intros i d Hd Hall. apply exclusions_none.
    intros b [j [Hb Hj]]%elem_of_take. by apply (Hall j). }
  intros n p0 p1 Hloop.
  apply composeTileLoop_grows in Hloop as (_ & ? & ? & _). by split.
Qed.

(** *** The callback is reached once per feature *)

(** *** The callback is reached once per feature *)

Section Once.

Variable CallbackState : Type.
Variable callback : Feature → Layer → CallbackState → jsval * CallbackState.

(** The features the callback was called with have distinct uids, and the
    key of each is in the [features] object. *)
Definition eachOnce (h : Hits CallbackState) : Prop :=
  NoDup (getUid <$> calls _ h) ∧
  ∀ f, f ∈ calls _ h → pretty (getUid f) ∈ features _ h.

Lemma onlyOnce_eachOnce l feature h :
  eachOnce h → eachOnce (onlyOnce _ callback l feature h).2.
Proof.
  intros [Hnd Hin]. unfold onlyOnce. case_bool_decide as Hseen; [done |].
  destruct (callback feature l (callbackState _ h)) as [v s]. simpl.
  split; simpl.
  - rewrite fmap_app. apply NoDup_app. split; [done |]. split.
    + intros u Hu Hu'. apply list_elem_of_singleton in Hu'. subst u.
      apply list_elem_of_fmap in Hu as (f & Hf & Hfin).
      apply Hseen. rewrite Hf. by apply Hin.
    + apply NoDup_singleton.
  - intros f [Hf|Hf]%elem_of_app.
    + apply elem_of_union_r. by apply Hin.
    + apply list_elem_of_singleton in Hf as ->. set_solver.
Qed.

Lemma replayGroup_forEach_eachOnce l hit : ∀ h,
  eachOnce h →
  eachOnce (replayGroup_forEachFeatureAtCoordinate _ hit
              (onlyOnce _ callback l) h).2.
Proof.
  induction hit as [|feature rest IH]; intros h Hh; simpl; [done |].
  pose proof (onlyOnce_eachOnce l feature h Hh) as Hstep.
  destruct (onlyOnce _ callback l feature h) as [v h1].
  destruct (truthy v); [done | by apply IH].
Qed.

Lemma hitKeyLoop_eachOnce l tile w c res rot tol keys : ∀ found h,
  eachOnce h →
  eachOnce (hitKeyLoop _ callback l tile w c res rot tol keys found h).2.
Proof.
  induction keys as [|key rest IH]; intros found h Hh; simpl; [done |].
  destruct (sourceTiles w !! key) as [sourceTile|]; [| done].
  case_bool_decide; [by apply IH |].
  destruct (truthy found); [by apply IH |].
  destruct (getReplayGroup _ _ _) as [rg|]; [| done].
  pose proof (replayGroup_forEach_eachOnce l
                (hitCandidates rg c res rot tol) h Hh) as Hstep.
  destruct (replayGroup_forEachFeatureAtCoordinate _ _ _ h) as [v h1].
  by apply IH.
Qed.

Lemma hitTileLoop_eachOnce l w fs c tol tiles : ∀ found h,
  eachOnce h →
  eachOnce (hitTileLoop _ callback l w fs c tol tiles found h).2.
Proof.
  induction tiles as [|tile rest IH]; intros found h Hh; simpl; [done |].
  destruct (negb _); [by apply IH |].
  pose proof (hitKeyLoop_eachOnce l tile w c (resolution (viewState fs))
                (rotation (viewState fs)) tol (tileKeys tile) found h Hh)
    as Hstep.
  destruct (hitKeyLoop _ _ _ _ _ _ _ _ _ _ _ _) as [[v|msg] h1];
    [by apply IH | done].
Qed.

Lemma NoDup_fmap_filter_le {A B} `{EqDecision B} (f : A → B) (l : list A) u :
  NoDup (f <$> l) → (length (filter (λ x, f x = u) l) ≤ 1)%nat.
Proof.
  induction l as [|x l IH]; intros Hnd; simpl; [lia |].
  rewrite fmap_cons in Hnd. apply NoDup_cons in Hnd as [Hx Hnd].
  rewrite filter_cons. case_decide as Hfx; [| by apply IH].
  simpl. destruct (filter (λ y, f y = u) l) as [|y ys] eqn:E; [simpl; lia |].
  exfalso. apply Hx.
  assert (Hy : y ∈ filter (λ y, f y = u) l) by (rewrite E; left).
  apply list_elem_of_filter in Hy as [Hfy Hy].
  rewrite Hfx, <- Hfy. by apply list_elem_of_fmap_2.
Qed.

(** C10: within one call of the renderer's [forEachFeatureAtCoordinate] the
    callback is called at most once for any feature uid, however many
    replay groups of rendered tiles or source tiles report the feature, and
    whether the call returns or throws: the uids of the features it was
    called with are pairwise distinct, each is recorded in the [features]
    object, and no uid occurs twice among the calls. *)
Theorem forEachFeatureAtCoordinate_once_per_feature
    this w coordinate frameState hitTolerance s :
  let h := (forEachFeatureAtCoordinate _ callback this w coordinate
              frameState hitTolerance s).2 in
  NoDup (getUid <$> calls _ h) ∧
  (∀ f, f ∈ calls _ h → pretty (getUid f) ∈ features _ h) ∧
  (∀ uid, (length (filter (λ f, getUid f = uid) (calls _ h)) ≤ 1)%nat).
Proof.
  simpl. unfold forEachFeatureAtCoordinate.
  pose proof (hitTileLoop_eachOnce (getLayer this) w frameState coordinate
                (match hitTolerance with None => 0%Q | Some t => t end)
                (renderedTiles this) JUndefined (mkHits _ ∅ s []))
    as [Hnd Hin].
  { split; [constructor | intros f Hf; by apply elem_of_nil in Hf]. }
  split; [done |]. split; [done |].
  intros uid. by apply NoDup_fmap_filter_le.
Qed.

Lemma hitKeyLoop_prune l tile tile' w c res rot tol keys : ∀ found h,
  imageTileCoord tile' = imageTileCoord tile →
  hitKeyLoop _ callback l tile w c res rot tol keys found h
  = hitKeyLoop _ callback l tile' w c res rot tol
      (filter (λ k, notError w k = true) keys) found h.
Proof.
  intros found h Htc. revert found h.
  induction keys as [|key rest IH]; intros found h; [done |].
  rewrite filter_cons. unfold notError. simpl.
  destruct (sourceTiles w !! key) as [sourceTile|] eqn:Hk.
  - case_bool_decide as Herr.
    + rewrite bool_decide_eq_false_2 by auto.
      rewrite decide_False by done. apply IH.
    + rewrite bool_decide_eq_true_2 by done.
      rewrite decide_True by done. simpl. rewrite Hk.
      rewrite bool_decide_eq_false_2 by done. rewrite Htc.
      destruct (truthy found); [apply IH |].
      destruct (getReplayGroup _ _ _); [| done].
      destruct (replayGroup_forEachFeatureAtCoordinate _ _ _ _). apply IH.
  - rewrite decide_True by done. simpl. by rewrite Hk.
Qed.

Lemma hitTileLoop_prune l w fs c tol tiles : ∀ found h,
  hitTileLoop _ callback l w fs c tol tiles found h
  = hitTileLoop _ callback l w fs c tol (withoutErrors w <$> tiles) found h.
Proof.
  induction tiles as [|tile rest IH]; intros found h; [done |].
  rewrite fmap_cons. simpl. destruct (negb _); [apply IH |].
  rewrite (hitKeyLoop_prune l tile (withoutErrors w tile)) by done.
  destruct (hitKeyLoop _ _ _ _ _ _ _ _ _ _ _ _) as [[v|msg] h1];
    [apply IH | done].
Qed.

(** C4: source tiles in ERROR state are passed over.  Building the replay
    groups of a tile, rasterizing it, compositing the rendered tiles and
    hit-testing them each give exactly what they give once the keys of the
    ERROR source tiles are taken out of the tiles (and, for compositing, the
    ABORT tiles out of the rendered tiles): nothing of an ERROR tile is
    read, replayed or asked, and the tiles that remain are processed as if
    it were not there.  Building leaves the ERROR source tiles themselves
    as they were. *)
Theorem error_tiles_skipped
    this tile w frameState context0 opacity coordinate hitTolerance s :
  createReplayGroup_ this tile frameState w
  = outcome_map (λ r, (r.1.1, setTileKeys r.1.2 (tileKeys tile), r.2))
      (createReplayGroup_ this (withoutErrors w tile) frameState w) ∧
  (∀ this' tile' w',
     createReplayGroup_ this tile frameState w = Return (this', tile', w') →
     ∀ key sourceTile,
       sourceTiles w !! key = Some sourceTile →
       getState sourceTile = ERROR →
       sourceTiles w' !! key = Some sourceTile) ∧
  renderTileImage_ this tile frameState w
  = outcome_map (λ t, setTileKeys t (tileKeys tile))
      (renderTileImage_ this (withoutErrors w tile) frameState w) ∧
  postCompose this w context0 frameState opacity
  = postCompose
      (setRenderedTiles this
         (withoutErrors w
            <$> filter (λ t, tileState t ≠ ABORT) (renderedTiles this)))
      w context0 frameState opacity ∧
  forEachFeatureAtCoordinate _ callback this w coordinate frameState
    hitTolerance s
  = forEachFeatureAtCoordinate _ callback
      (setRenderedTiles this (withoutErrors w <$> renderedTiles this))
      w coordinate frameState hitTolerance s.
Proof.
  split; [apply createReplayGroup_prune |].
  split; [apply createReplayGroup_keeps_errors |].
  split; [apply renderTileImage_prune |].
  split; [apply postCompose_prune |].
  unfold forEachFeatureAtCoordinate. simpl. apply hitTileLoop_prune.
Qed.

End Once.

(** *** A tile drawn twice *)

Lemma createReplayGroup_state this tile frameState w this' tile' w' :
  createReplayGroup_ this tile frameState w = Return (this', tile', w') →
  getLayer this' = getLayer this ∧ context this' = context this ∧
  context_ tile' = context_ tile ∧
  ∃ rs, replayState_ tile' !! pretty (layerUid (getLayer this)) = Some rs ∧
        (dirty rs = false → clean rs (getLayer this) = true).
Proof.
  unfold createReplayGroup_.
  destruct (clean (getReplayState tile (getLayer this)) (getLayer this))
    eqn:Hclean.
  - intros [= <- <- <-]. split; [done |]. split; [done |]. split; [done |].
    eexists. split; [apply lookup_insert_eq | done].
  - destruct (sourceTileLoop _ _ _ _ _ _ _ _ _) as [p|msg]; [| done].
    intros [= <- <- <-]. split; [done |]. split; [done |]. split; [done |].
    eexists. split; [apply lookup_insert_eq |].
    intros Hd. unfold clean, set_rendered in *. simpl in *. rewrite Hd.
    simpl. rewrite bool_decide_eq_true_2 by done. apply sameOrder_refl.
Qed.

Lemma renderTileImage__state this tile frameState w tile' rs :
  replayState_ tile !! pretty (layerUid (getLayer this)) = Some rs →
  renderTileImage_ this tile frameState w = Return tile' →
  ∃ rs', replayState_ tile' !! pretty (layerUid (getLayer this)) = Some rs' ∧
         dirty rs' = dirty rs ∧
         renderedRevision rs' = renderedRevision rs ∧
         renderedRenderOrder rs' = renderedRenderOrder rs ∧
         (is_Some (IMAGE_REPLAYS (getRenderMode (getLayer this))) →
          renderedTileRevision rs' = getRevision (getLayer this)).
Proof.
  intros Hrs. unfold renderTileImage_, getReplayState. rewrite Hrs.
  rewrite (setReplayState_id _ _ _ Hrs).
  destruct (IMAGE_REPLAYS _) as [replays|].
  - case_bool_decide as Hrev.
    + destruct (rasterLoop _ _ _ _ _ _ _ _ _) as [drawn|msg]; [| done].
      intros [= <-]. eexists. split; [apply lookup_insert_eq |]. by repeat split.
    + intros [= <-]. exists rs. split; [done |]. repeat split; try done.
      all: intros _; destruct (decide (renderedTileRevision rs
                                  = getRevision (getLayer this))); [done |];
        by exfalso.
  - intros [= <-]. exists rs. split; [done |]. repeat split; try done.
    all: by intros [? ?].
Qed.

Lemma renderTileImage__done this tile frameState w rs :
  replayState_ tile !! pretty (layerUid (getLayer this)) = Some rs →
  (is_Some (IMAGE_REPLAYS (getRenderMode (getLayer this))) →
   renderedTileRevision rs = getRevision (getLayer this)) →
  renderTileImage_ this tile frameState w = Return tile.
Proof.
  intros Hrs Hrev. unfold renderTileImage_, getReplayState. rewrite Hrs.
  rewrite (setReplayState_id _ _ _ Hrs).
  destruct (IMAGE_REPLAYS _) as [replays|]; [| done].
  rewrite bool_decide_eq_false_2; [done |].
  intros Hne. apply Hne, Hrev. by eexists.
Qed.

(** X17: drawing a tile a second time costs nothing.  When [drawTileImage]
    has returned and left the tile's replay state not dirty (no image was
    still loading), [drawTileImage] again, on what the first call left,
    returns the same renderer, tile and source tiles: no replay group is
    built and nothing is rasterized.  A renderer without a context (pure
    vector rendering) never touches the drawing contexts of the tile. *)
Theorem drawTileImage_again_changes_nothing
    this tile frameState w this1 tile1 w1 :
  drawTileImage this tile frameState w = Return (this1, tile1, w1) →
  (context this = false → context_ tile1 = context_ tile) ∧
  (dirty (getReplayState tile1 (getLayer this)) = false →
   createReplayGroup_ this1 tile1 frameState w1 = Return (this1, tile1, w1) ∧
   drawTileImage this1 tile1 frameState w1 = Return (this1, tile1, w1)).
Proof.
  unfold drawTileImage at 1.
  destruct (createReplayGroup_ this tile frameState w)
    as [[[this0 tile0] w0]|msg] eqn:Hfirst; [| done].
  destruct (createReplayGroup_state _ _ _ _ _ _ _ Hfirst)
    as (Hl & Hc & Hctx & rs & Hrs & Hclean).
  rewrite Hc. destruct (context this) eqn:Hcontext.
  - destruct (renderTileImage_ this0 tile0 frameState w0) as [tile'|msg]
      eqn:Hraster; [| done].
    intros [= <- <- <-]. split; [done |].
    rewrite <- Hl in Hrs.
    destruct (renderTileImage__state _ _ _ _ _ _ Hrs Hraster)
      as (rs' & Hrs' & Hd & Hrev & Hord & Htile).
    rewrite Hl in Hrs'. unfold getReplayState. rewrite Hrs'. intros Hdirty.
    assert (Hclean' : clean rs' (getLayer this0) = true).
    { rewrite Hl. rewrite Hd in Hdirty. specialize (Hclean Hdirty).
      unfold clean in *. by rewrite Hd, Hrev, Hord. }
    rewrite <- Hl in Hrs'.
    assert (Hagain : createReplayGroup_ this0 tile' frameState w0
                     = Return (this0, tile', w0))
      by by eapply createReplayGroup_clean.
    split; [done |]. unfold drawTileImage. rewrite Hagain, Hc.
    by rewrite (renderTileImage__done _ _ _ _ _ Hrs' Htile).
  - intros [= <- <- <-]. split; [done |].
    unfold getReplayState. rewrite Hrs. intros Hdirty.
    rewrite <- Hl in Hrs, Hclean.
    assert (Hagain : createReplayGroup_ this0 tile0 frameState w0
                     = Return (this0, tile0, w0))
      by (eapply createReplayGroup_clean; eauto).
    split; [done |]. unfold drawTileImage. by rewrite Hagain, Hc.
Qed.

(** *** The answers of the callback during a hit-test *)

Section Answers.

Variable CallbackState : Type.
Variable callback : Feature → Layer → CallbackState → jsval * CallbackState.

(** What the callback answered, call by call, and the state it was left
    in: its calls replayed from the caller's state. *)
Fixpoint answers (l : Layer) (called : list Feature) (s : CallbackState)
    : list jsval * CallbackState :=
  match called with
  | [] => ([], s)
  | feature :: rest =>
      let '(v, s) := callback feature l s in
      let '(vs, s) := answers l rest s in
      (v :: vs, s)
  end.

(** The hit-test so far: every answer was falsy and nothing was found, or
    the last answer was truthy and that is what was found. *)
Definition upTo (l : Layer) (s0 : CallbackState) (found : jsval)
    (h : Hits CallbackState) : Prop :=
  callbackState _ h = (answers l (calls _ h) s0).2 ∧
  ((found = JUndefined ∧
    Forall (λ v, truthy v = false) (answers l (calls _ h) s0).1) ∨
   (truthy found = true ∧
    ∃ before, (answers l (calls _ h) s0).1 = before ++ [found] ∧
              Forall (λ v, truthy v = false) before)).

Lemma answers_snoc l called feature s :
  answers l (called ++ [feature]) s
  = let '(vs, s1) := answers l called s in
    let '(v, s2) := callback feature l s1 in
    (vs ++ [v], s2).
Proof.
  revert s. induction called as [|f rest IH]; intros s; simpl.
  - by destruct (callback feature l s).
  - destruct (callback f l s) as [v s1]. rewrite IH.
    destruct (answers l rest s1) as [vs s2].
    by destruct (callback feature l s2).
Qed.

Lemma onlyOnce_upTo l s0 feature h :
  upTo l s0 JUndefined h →
  upTo l s0
    (let v := (onlyOnce _ callback l feature h).1 in
     if truthy v then v else JUndefined)
    (onlyOnce _ callback l feature h).2.
Proof.
  intros [Hs Hcase]. unfold onlyOnce. case_bool_decide; [by split |].
  destruct Hcase as [[_ Hall]|[Ht _]]; [| done].
  destruct (callback feature l (callbackState _ h)) as [v s] eqn:Hcb.
  unfold upTo. simpl. rewrite answers_snoc.
  destruct (answers l (calls _ h) s0) as [vs s1]. simpl in *. subst s1.
  rewrite Hcb. simpl. split; [done |].
  destruct (truthy v) eqn:Hv.
  - right. split; [done |]. by exists vs.
  - left. split; [done |]. apply Forall_app. split; [done |].
    by constructor.
Qed.

Lemma replayGroup_forEach_upTo l s0 hit : ∀ h,
  upTo l s0 JUndefined h →
  upTo l s0
    (replayGroup_forEachFeatureAtCoordinate _ hit (onlyOnce _ callback l) h).1
    (replayGroup_forEachFeatureAtCoordinate _ hit (onlyOnce _ callback l) h).2.
Proof.
  induction hit as [|feature rest IH]; intros h Hh; simpl; [done |].
  pose proof (onlyOnce_upTo l s0 feature h Hh) as Hstep. simpl in Hstep.
  destruct (onlyOnce _ callback l feature h) as [v h1]. simpl in Hstep.
  destruct (truthy v); [done | by apply IH].
Qed.

(** The state of the hit-test whatever way it ends. *)
Definition outcomeUpTo (l : Layer) (s0 : CallbackState)
    (r : outcome jsval * Hits CallbackState) : Prop :=
  match r.1 with
  | Return found => upTo l s0 found r.2
  | Throws _ => ∃ found, upTo l s0 found r.2
  end.

Lemma hitKeyLoop_upTo l s0 tile w c res rot tol keys : ∀ found h,
  upTo l s0 found h →
  outcomeUpTo l s0
    (hitKeyLoop _ callback l tile w c res rot tol keys found h).
Proof.
  induction keys as [|key rest IH]; intros found h Hh; simpl; [done |].
  destruct (sourceTiles w !! key) as [sourceTile|]; [| by exists found].
  case_bool_decide; [by apply IH |].
  destruct (truthy found) eqn:Hfound; [by apply IH |].
  destruct (getReplayGroup _ _ _) as [rg|]; [| by exists found].
  assert (Hu : upTo l s0 JUndefined h).
  { destruct Hh as [Hs [[-> Hall]|[Ht _]]];
      [split; [done | by left] | congruence]. }
  pose proof (replayGroup_forEach_upTo l s0
                (hitCandidates rg c res rot tol) h Hu) as Hstep.
  destruct (replayGroup_forEachFeatureAtCoordinate _ _ _ h) as [v h1].
  by apply IH.
Qed.

Lemma hitTileLoop_upTo l s0 w fs c tol tiles : ∀ found h,
  upTo l s0 found h →
  outcomeUpTo l s0 (hitTileLoop _ callback l w fs c tol tiles found h).
Proof.
  induction tiles as [|tile rest IH]; intros found h Hh; simpl; [done |].
  destruct (negb _); [by apply IH |].
  pose proof (hitKeyLoop_upTo l s0 tile w c (resolution (viewState fs))
                (rotation (viewState fs)) tol (tileKeys tile) found h Hh)
    as Hstep.
  destruct (hitKeyLoop _ _ _ _ _ _ _ _ _ _ _ _) as [[v|msg] h1];
    [by apply IH | done].
Qed.

(** X18: the hit-test stops asking at the first truthy answer.  In one call
    of the renderer's [forEachFeatureAtCoordinate], whether it returns or
    throws, every answer of the callback but the last one was falsy; when
    the call returns, it returns [undefined] with all answers falsy, or the
    truthy answer of the last call of the callback.  The callback's state
    is the one its calls left, in their order. *)
Theorem forEachFeatureAtCoordinate_stops_at_truthy
    this w coordinate frameState hitTolerance s :
  let r := forEachFeatureAtCoordinate _ callback this w coordinate
             frameState hitTolerance s in
  let given := answers (getLayer this) (calls _ r.2) s in
  callbackState _ r.2 = given.2 ∧
  (∀ i v, given.1 !! i = Some v → (S i < length given.1)%nat →
          truthy v = false) ∧
  (∀ found, r.1 = Return found →
     (found = JUndefined ∧ Forall (λ v, truthy v = false) given.1) ∨
     (truthy found = true ∧ last given.1 = Some found)).
Proof.
  intros r given.
  assert (Hr : outcomeUpTo (getLayer this) s r).
  { unfold r, forEachFeatureAtCoordinate. apply hitTileLoop_upTo.
    split; [done |]. left. split; [done | constructor]. }
  assert (Hany : ∃ found, upTo (getLayer this) s found r.2).
  { unfold outcomeUpTo in Hr. destruct r.1; [by eexists | done]. }
  destruct Hany as (found0 & Hs & Hcase). fold given in Hs, Hcase.
  split; [done |]. split.
  - intros i v Hi Hlt.
    destruct Hcase as [[_ Hall]|(_ & before & Hvs & Hall)].
    + by apply (proj1 (Forall_lookup _ _) Hall i v).
    + rewrite Hvs in Hi, Hlt. rewrite length_app in Hlt. simpl in Hlt.
      rewrite lookup_app_l in Hi by lia.
      by apply (proj1 (Forall_lookup _ _) Hall i v).
  - intros found Hfound. unfold outcomeUpTo in Hr. rewrite Hfound in Hr.
    destruct Hr as [_ [[-> Hall]|(Ht & before & Hvs & Hall)]].
    + by left.
    + right. split; [done |]. fold given in Hvs. rewrite Hvs.
      apply last_snoc.
Qed.

End Answers.

End Renderer.

Arguments mkFeature {Geometry Style}.
Arguments mkLayer {Geometry Style}.
Arguments mkSourceTile {Geometry Style}.
Arguments mkTile {Geometry Style Transform}.
Arguments mkRenderer {Geometry Style Transform}.
Arguments mkWorld {Geometry Style}.
Arguments mkReplayState {Geometry Style}.
Arguments rg_id {Geometry Style}.
Arguments rg_instructions {Geometry Style}.
Arguments OneStyle {Style}.

(** *** Two tiles over the same ground *)

(** In the examples a geometry is its extent, a style says whether its
    image is still loading, and a transform is the world offset. *)
#[local] Instance exampleCollaborators : Collaborators Extent bool Q := {|
  getIntersection a b := a;
  equals a b := true;
  buffer e d := e;
  intersects a b := true;
  containsCoordinate e c := true;
  equivalentProjection p q := String.eqb (code p) (code q);
  transformGeometry p q g := g;
  geometryExtent g := g;
  sourceTileGrid_getTileCoordExtent c := (0, 0, 1, 1)%Q;
  sourceTileGrid_getResolution z := 1%Q;
  tileGrid_getResolution p z := 1%Q;
  tileGrid_getTileCoordExtent p c := (0, 0, 1, 1)%Q;
  getTilePixelSize z r p := (256, 256)%Q;
  getSquaredRenderTolerance r p := 1%Q;
  imageLoading s := s;
  sort cmp l := l;
  ORDER := [POLYGON; CIRCLE; LINE_STRING; IMAGE; TEXT; DEFAULT];
  hasReplays rg types := true;
  getClipCoords rg t :=
    let k := inject_Z (Z.of_N (rg_id rg)) in mkClip k k k k k k k k;
  hitCandidates rg c res rot tol := (rg_instructions rg).*1;
  resetTransform := 0%Q;
  scaleTransform t x y := t;
  translateTransform t x y := t;
  getTransform fs offset := offset
|}.

Definition webMercator : Projection := mkProjection "EPSG:3857" METERS None None.

Definition plainLayer : Layer Extent bool :=
  mkLayer 1 3 None RENDER_VECTOR 100 false (Some (λ f res, OneStyle false)) true.

Definition river : Feature Extent bool := mkFeature 10 (0, 0, 1, 1)%Q None.
Definition road : Feature Extent bool := mkFeature 11 (0, 0, 1, 1)%Q None.

Definition loadedTile (z : Z) (fs : list (Feature Extent bool)) : SourceTile Extent bool :=
  mkSourceTile LOADED (z, 0, 0)%Z webMercator fs (0, 0, 1, 1)%Q ∅.
Definition failedTile (z : Z) : SourceTile Extent bool :=
  mkSourceTile ERROR (z, 0, 0)%Z webMercator [road] (0, 0, 1, 1)%Q ∅.

Definition freshWorld : World Extent bool :=
  mkWorld (<["fine" := loadedTile 6 [river]]>
             (<["broken" := failedTile 6]>
                (<["coarse" := loadedTile 5 [river; road]]> ∅))) 0.

Definition fineTile : VectorImageTile Extent bool Q :=
  mkTile LOADED (6, 0, 0)%Z (6, 0, 0)%Z ["fine"; "broken"] ∅ ∅.
Definition coarseTile : VectorImageTile Extent bool Q :=
  mkTile LOADED (5, 0, 0)%Z (5, 0, 0)%Z ["coarse"] ∅ ∅.

Definition aFrame : FrameState :=
  mkFrameState 1 (mkViewState webMercator 1 0 (0, 0)%Q) (512, 512)%Q.

Definition idleRenderer : VectorTileLayerRenderer Extent bool Q :=
  mkRenderer plainLayer false false None [].

Arguments createReplayGroup_ {Geometry Style Transform H}.
Arguments postCompose {Geometry Style Transform H}.
Arguments forEachFeatureAtCoordinate {Geometry Style Transform H CallbackState}.
Arguments replayGroupsBuilt {Geometry Style}.
Arguments renderedRevision {Geometry Style}.
Arguments zs {Geometry Style Transform}.
Arguments calls {Geometry Style CallbackState}.


(** The world once both tiles have had their replay groups built. *)
Definition builtWorld : World Extent bool :=
  match createReplayGroup_ idleRenderer fineTile aFrame freshWorld with
  | Return (_, _, w) =>
      match createReplayGroup_ idleRenderer coarseTile aFrame w with
      | Return (_, _, w) => w
      | Throws _ => w
      end
  | Throws _ => freshWorld
  end.

Definition busyRenderer : VectorTileLayerRenderer Extent bool Q :=
  mkRenderer plainLayer false false (Some 3%Z) [coarseTile; fineTile].

(** A callback that takes note of the uid and asks for more. *)
Definition noteUid (f : Feature Extent bool) (l : Layer Extent bool)
    (seen : list N) : jsval * list N :=
  (JUndefined, seen ++ [getUid _ _ f]).


Lemma postCompose_clips_higher_resolution_witness :
  ∃ p, postCompose busyRenderer builtWorld [] aFrame 1 = Return p ∧
       zs p = [6; 5]%Z.
Proof.
  destruct (postCompose_clips_higher_resolution _ _ _ busyRenderer builtWorld
              [] aFrame 1) as (p & Hrun & _ & _ & Hz & _).
  - intros tile Hin _ key Hkey. simpl in Hin. set_unfold.
    destruct Hin as [->|[->|[]]]; simpl in Hkey; set_unfold.
    + destruct Hkey as [->|[]]. eexists. split; [vm_compute; reflexivity |].
      intros _. vm_compute. eauto.
    + destruct Hkey as [->|[->|[]]].
      * eexists. split; [vm_compute; reflexivity |]. intros _. vm_compute. eauto.
      * eexists. split; [vm_compute; reflexivity |]. intros Hne.
        exfalso. by apply Hne.
  - exists p. split; [done |]. rewrite Hz. reflexivity.
Defined.

(** The river is in the replay groups of both tiles; the callback hears of
    it once. *)
Example river_reported_once :
  calls (forEachFeatureAtCoordinate noteUid busyRenderer builtWorld
           (0, 0)%Q aFrame None []).2 = [river; road].
Proof. vm_compute. reflexivity. Qed.

(** The source tile that failed to load was left alone. *)
Example broken_tile_untouched :
  sourceTiles _ _ builtWorld !! "broken" = Some (failedTile 6).
Proof. vm_compute. reflexivity. Qed.

Lemma forEachFeatureAtCoordinate_once_per_feature_witness :
  (length (filter (λ f, getUid _ _ f = 10%N)
             (calls (forEachFeatureAtCoordinate noteUid busyRenderer
                       builtWorld (0, 0)%Q aFrame None []).2)) ≤ 1)%nat.
Proof.
  apply (proj2 (proj2 (forEachFeatureAtCoordinate_once_per_feature
                         Extent bool Q (list N) noteUid busyRenderer
                         builtWorld (0, 0)%Q aFrame None [])) 10%N).
Defined.

Lemma error_tiles_skipped_witness :
  ∃ this' tile' w',
    createReplayGroup_ idleRenderer fineTile aFrame freshWorld
      = Return (this', tile', w') ∧
    sourceTiles _ _ w' !! "broken" = Some (failedTile 6).
Proof.
  destruct (createReplayGroup_ idleRenderer fineTile aFrame freshWorld)
    as [[[this' tile'] w']|msg] eqn:Hrun.
  - exists this', tile', w'. split; [done |].
    apply (proj1 (proj2 (error_tiles_skipped Extent bool Q (list N) noteUid
                           idleRenderer fineTile freshWorld aFrame [] 1
                           (0, 0)%Q None []))
             this' tile' w' Hrun "broken" (failedTile 6)); reflexivity.
  - vm_compute in Hrun. discriminate.
Defined.

Lemma drawTileImage_again_changes_nothing_witness :
  ∃ this1 tile1 w1,
    drawTileImage Extent bool Q idleRenderer fineTile aFrame freshWorld
    = Return (this1, tile1, w1) ∧
    drawTileImage Extent bool Q this1 tile1 aFrame w1
    = Return (this1, tile1, w1).
Proof.
  destruct (drawTileImage Extent bool Q idleRenderer fineTile aFrame
              freshWorld) as [[[this1 tile1] w1]|msg] eqn:Hrun.
  - exists this1, tile1, w1. split; [done |].
    apply (drawTileImage_again_changes_nothing Extent bool Q idleRenderer
             fineTile aFrame freshWorld this1 tile1 w1 Hrun).
    vm_compute in Hrun. injection Hrun as <- <- <-. reflexivity.
  - vm_compute in Hrun. discriminate.
Defined.

Lemma forEachFeatureAtCoordinate_stops_at_truthy_witness :
  (forEachFeatureAtCoordinate noteUid busyRenderer builtWorld (0, 0)%Q
     aFrame None []).1 = Return JUndefined ∧
  Forall (λ v, truthy v = false)
    (answers Extent bool (list N) noteUid plainLayer [river; road] []).1.
Proof.
  split; [by vm_compute |].
  destruct (proj2 (proj2 (forEachFeatureAtCoordinate_stops_at_truthy
                            Extent bool Q (list N) noteUid busyRenderer
                            builtWorld (0, 0)%Q aFrame None []))
              JUndefined) as [[_ Hall]|[Ht _]].
  - by vm_compute.
  - exact Hall.
  - discriminate.
Defined.

End VectorTile.

(** ** ol/source/Tile and ol/source/UrlTile: the users of the tile cache *)

Module TileSource.
Import Js TileCache.

(** [ol.source.TileEventType] *)
Inductive TileEventType : Type :=
  | TILELOADSTART
  | TILELOADEND
  | TILELOADERROR.

Global Instance TileEventType_eq_dec : EqDecision TileEventType.
Proof. solve_decision. Defined.

(** Modelled from the spec: [containsKey(key)] of ol/structs/LRUCache,
    which is not among the sources; the cache is "an LRU structure mapping a
    z/x/y key to a Tile". *)
Definition containsKey (key : string) (c : Cache) : bool :=
  bool_decide (key ∈ (entries c).*1).

(** The tile a cache holds under a key. *)
Definition tileAt (c : Cache) (key : string) : option Tile :=
  (list_to_map (entries c) : gmap string Tile) !! key.

Section Source.

Variable Projection : Type.

(** [equivalent(projection1, projection2)] of ol/proj.js. *)
Variable equivalent : Projection → Projection → bool.

(** [tile.getState()] *)
Variable getState : Tile → VectorTile.TileState.

(** A tile source: the projection of [ol.source.Source] (which may be
    null) and the tile cache. *)
Record TileSource : Type := mkTileSource {
  getProjection : option Projection;
  tileCache : Cache
}.

Definition getTileCacheForProjection (this : TileSource)
    (projection : Projection) : option Cache :=
  match getProjection this with
  | Some thisProj =>
      if negb (equivalent thisProj projection) then None
      else Some (tileCache this)
  | None => Some (tileCache this)
  end.

(** [canExpireCache()] *)
Definition source_canExpireCache (this : TileSource) : bool :=
  canExpireCache (tileCache this).


(** The values of [x] in [for (let x = lo; x <= hi; ++x)]. *)
Definition upTo (lo hi : Z) : list Z := seqZ lo (hi - lo + 1).

(** [v !== false] *)
Definition not_false (v : jsval) : bool :=
  match v with JBool false => false | _ => true end.

(** What [forEachLoadedTile] has in hand inside the loops: [covered], the
    cache, and the tiles the callback was called with, oldest first. *)
Record Sweep : Type := mkSweep {
  covered : bool;
  cache : Cache;
  calls : list Tile
}.

(** The body of the inner loop. *)
Definition visit (callback : Tile → jsval) (z x y : Z) (s : Sweep)
    : outcome Sweep :=
  let tileCoordKey := getKey (z, x, y) in
  if containsKey tileCoordKey (cache s) then
    match get tileCoordKey (cache s) with
    | Throws msg => Throws msg
    | Return (tile, c) =>
        if bool_decide (getState tile = VectorTile.LOADED) then
          let loaded := not_false (callback tile) in
          Return (mkSweep (if loaded then covered s else false) c
                    (calls s ++ [tile]))
        else Return (mkSweep false c (calls s))
    end
  else Return (mkSweep false (cache s) (calls s)).

Fixpoint columnLoop (callback : Tile → jsval) (z x : Z) (ys : list Z)
    (s : Sweep) : outcome Sweep :=
  match ys with
  | [] => Return s
  | y :: rest =>
      match visit callback z x y s with
      | Return s => columnLoop callback z x rest s
      | Throws msg => Throws msg
      end
  end.

Fixpoint rowLoop (callback : Tile → jsval) (z : Z) (xs ys : list Z)
    (s : Sweep) : outcome Sweep :=
  match xs with
  | [] => Return s
  | x :: rest =>
      match columnLoop callback z x ys s with
      | Return s => rowLoop callback z rest ys s
      | Throws msg => Throws msg
      end
  end.

(** [forEachLoadedTile(projection, z, tileRange, callback)]: the answer,
    the source with its cache as the calls of [get] left it, and the tiles
    the callback was called with. *)
Definition forEachLoadedTile (this : TileSource) (projection : Projection)
    (z : Z) (tileRange : TileRange) (callback : Tile → jsval)
    : outcome (bool * TileSource * list Tile) :=
  match getTileCacheForProjection this projection with
  | None => Return (false, this, [])
  | Some tileCache =>
      match rowLoop callback z
              (upTo (minX tileRange) (maxX tileRange))
              (upTo (minY tileRange) (maxY tileRange))
              (mkSweep true tileCache []) with
      | Return s =>
          Return (covered s, mkTileSource (getProjection this) (cache s),
                  calls s)
      | Throws msg => Throws msg
      end
  end.


(** The coordinates of a range in the order the loops meet them. *)
Definition coordsOf (tileRange : TileRange) : list (Z * Z) :=
  x ← upTo (minX tileRange) (maxX tileRange);
  y ← upTo (minY tileRange) (maxY tileRange);
  [(x, y)].

(** The tile of the cache that is loaded at a coordinate, if any. *)
Definition loadedAt (c : Cache) (z : Z) (xy : Z * Z) : option Tile :=
  tile ← tileAt c (getKey (z, xy.1, xy.2));
  if bool_decide (getState tile = VectorTile.LOADED) then Some tile else None.

(** *** [get] keeps what the cache holds *)

Lemma get_spec key c :
  NoDup (entries c).*1 →
  key ∈ (entries c).*1 →
  ∃ tile c',
    get key c = Return (tile, c') ∧
    tileAt c key = Some tile ∧
    entries c' ≡ₚ entries c ∧
    highWaterMark c' = highWaterMark c ∧
    disposed c' = disposed c ∧
    (∃ older, entries c' = older ++ [(key, tile)]).
Proof.
  intros Hnd Hin. unfold get.
  apply list_elem_of_fmap in Hin as ([k tile] & -> & Hin).
  destruct (list_find (λ e, e.1 = (k, tile).1) (entries c))
    as [[i e]|] eqn:Hfind.
  - apply list_find_Some in Hfind as (Hi & He & _).
    destruct e as [k' tile']. simpl in He. subst k'.
    assert (Htile : tileAt c k = Some tile').
    { unfold tileAt. apply elem_of_list_to_map; [done |].
      by eapply list_elem_of_lookup_2. }
    exists tile', (mkCache (highWaterMark c)
                     (delete i (entries c) ++ [(k, tile')]) (disposed c)).
    simpl. split; [done |]. split; [done |]. split.
    + rewrite (delete_Permutation _ _ _ Hi) at 2.
      by rewrite Permutation_app_comm.
    + split; [done |]. split; [done |]. by eexists.
  - exfalso. apply list_find_None in Hfind.
    by apply (proj1 (Forall_forall _ _) Hfind (k, tile) Hin).
Qed.

Lemma tileAt_perm c c' key :
  NoDup (entries c).*1 → entries c' ≡ₚ entries c →
  tileAt c' key = tileAt c key.
Proof.
  intros Hnd Hp. unfold tileAt.
  rewrite (list_to_map_proper (entries c') (entries c)); [done | | done].
  by rewrite Hp.
Qed.

Lemma containsKey_tileAt c key :
  containsKey key c = true ↔ is_Some (tileAt c key).
Proof.
  unfold containsKey, tileAt. rewrite bool_decide_eq_true.
  rewrite <- elem_of_dom, dom_list_to_map_L. set_solver.
Qed.

(** *** The sweep of [forEachLoadedTile] *)

(** A coordinate counts as loaded: the cache has a LOADED tile there and
    the callback did not answer [false]. *)
Definition accepted (callback : Tile → jsval) (c : Cache) (z : Z)
    (xy : Z * Z) : bool :=
  match loadedAt c z xy with
  | Some tile => not_false (callback tile)
  | None => false
  end.

(** The sweep is still on the cache [c0], as far as its content goes. *)
Definition sameContent (c0 c : Cache) : Prop :=
  entries c ≡ₚ entries c0 ∧
  highWaterMark c = highWaterMark c0 ∧
  disposed c = disposed c0.

Lemma visit_spec callback z x y s c0 :
  NoDup (entries c0).*1 →
  sameContent c0 (cache s) →
  ∃ s',
    visit callback z x y s = Return s' ∧
    sameContent c0 (cache s') ∧
    calls s' = calls s ++ option_list (loadedAt c0 z (x, y)) ∧
    covered s' = covered s && accepted callback c0 z (x, y).
Proof.
  intros Hnd (Hp & Hh & Hd). unfold visit, accepted, loadedAt.
  cbv zeta. cbn [fst snd].
  assert (Hnd' : NoDup (entries (cache s)).*1) by by rewrite Hp.
  destruct (containsKey (getKey (z, x, y)) (cache s)) eqn:Hc.
  - apply bool_decide_eq_true in Hc.
    destruct (get_spec _ _ Hnd' Hc)
      as (tile & c' & Hget & Htile & Hp' & Hh' & Hd' & _).
    rewrite Hget. rewrite (tileAt_perm c0) in Htile by done.
    rewrite Htile. simpl.
    assert (Hsame : sameContent c0 c').
    { split; [by rewrite Hp' |]. split; congruence. }
    case_bool_decide.
    + eexists. split; [reflexivity |]. simpl. split; [done |].
      split; [done |]. destruct (not_false _), (covered s); done.
    + eexists. split; [reflexivity |]. simpl. split; [done |].
      rewrite app_nil_r. split; [done |]. by rewrite andb_false_r.
  - assert (Hnone : tileAt c0 (getKey (z, x, y)) = None).
    { rewrite <- (tileAt_perm c0 (cache s)) by done.
      apply eq_None_not_Some. intros Hs.
      apply containsKey_tileAt in Hs. congruence. }
    rewrite Hnone. simpl. eexists. split; [reflexivity |]. simpl.
    split; [done |]. rewrite app_nil_r. split; [done |].
    by rewrite andb_false_r.
Qed.

Lemma columnLoop_spec callback z x c0 ys : ∀ s,
  NoDup (entries c0).*1 →
  sameContent c0 (cache s) →
  ∃ s',
    columnLoop callback z x ys s = Return s' ∧
    sameContent c0 (cache s') ∧
    calls s' = calls s ++ omap (loadedAt c0 z) ((λ y, (x, y)) <$> ys) ∧
    covered s'
    = covered s && forallb (accepted callback c0 z) ((λ y, (x, y)) <$> ys).
Proof.
  induction ys as [|y rest IH]; intros s Hnd Hsame.
  - exists s. simpl. rewrite app_nil_r, andb_true_r.
    split; [done |]. split; [done |]. by split.
  - destruct (visit_spec callback z x y s c0 Hnd Hsame)
      as (s1 & Hv & Hsame1 & Hcalls1 & Hcov1).
    destruct (IH s1 Hnd Hsame1) as (s' & Hrun & Hsame' & Hcalls & Hcov).
    exists s'. simpl columnLoop. rewrite Hv. split; [done |].
    split; [done |]. split.
    + rewrite Hcalls, Hcalls1, <- app_assoc. f_equal.
      rewrite fmap_cons. simpl omap.
      by destruct (loadedAt c0 z (x, y)).
    + rewrite Hcov, Hcov1, fmap_cons. simpl forallb.
      by rewrite andb_assoc.
Qed.

Lemma rowLoop_spec callback z c0 ys xs : ∀ s,
  NoDup (entries c0).*1 →
  sameContent c0 (cache s) →
  ∃ s',
    rowLoop callback z xs ys s = Return s' ∧
    sameContent c0 (cache s') ∧
    calls s' = calls s ++
      omap (loadedAt c0 z) (x ← xs; y ← ys; [(x, y)]) ∧
    covered s'
    = covered s &&
      forallb (accepted callback c0 z) (x ← xs; y ← ys; [(x, y)]).
Proof.
  induction xs as [|x rest IH]; intros s Hnd Hsame.
  - exists s. simpl. rewrite app_nil_r, andb_true_r.
    split; [done |]. split; [done |]. by split.
  - destruct (columnLoop_spec callback z x c0 ys s Hnd Hsame)
      as (s1 & Hv & Hsame1 & Hcalls1 & Hcov1).
    destruct (IH s1 Hnd Hsame1) as (s' & Hrun & Hsame' & Hcalls & Hcov).
    exists s'. simpl rowLoop. rewrite Hv. split; [done |].
    split; [done |].
    assert (Hcol : (y ← ys; [(x, y)]) = (λ y, (x, y)) <$> ys).
    { clear. induction ys as [|y ys IH]; [done |].
      rewrite bind_cons, fmap_cons, IH. done. }
    rewrite bind_cons, Hcol. split.
    + by rewrite Hcalls, Hcalls1, <- app_assoc, omap_app.
    + rewrite Hcov, Hcov1, forallb_app. by rewrite andb_assoc.
Qed.

Lemma elem_of_coordsOf tileRange x y :
  (x, y) ∈ coordsOf tileRange ↔
  (minX tileRange ≤ x ≤ maxX tileRange ∧
   minY tileRange ≤ y ≤ maxY tileRange)%Z.
Proof.
  unfold coordsOf, upTo. rewrite list_elem_of_bind. split.
  - intros (x' & Hy & Hx). apply list_elem_of_bind in Hy as (y' & Hxy & Hy).
    apply list_elem_of_singleton in Hxy. injection Hxy as -> ->.
    apply elem_of_seqZ in Hx, Hy. lia.
  - intros [Hx Hy]. exists x. split; [| apply elem_of_seqZ; lia].
    apply list_elem_of_bind. exists y.
    split; [by apply list_elem_of_singleton | apply elem_of_seqZ; lia].
Qed.

(** X19: on the cache of a source with the asked projection,
    [forEachLoadedTile] returns [true] exactly when every coordinate of the
    range has a cached tile in state LOADED for which the callback did not
    answer [false]; an empty range is covered.  The callback is called with
    the cached LOADED tiles of the range and no others, column by column.
    The cache holds the same tiles afterwards and nothing was disposed.  On a
    source of another projection the answer is [false] and nothing is
    touched. *)
Theorem forEachLoadedTile_covers_range this projection z tileRange callback :
  NoDup (entries (tileCache this)).*1 →
  (getTileCacheForProjection this projection = None →
   forEachLoadedTile this projection z tileRange callback
   = Return (false, this, [])) ∧
  (getTileCacheForProjection this projection = Some (tileCache this) →
   ∃ answer this',
     forEachLoadedTile this projection z tileRange callback
     = Return (answer, this',
               omap (loadedAt (tileCache this) z) (coordsOf tileRange)) ∧
     (answer = true ↔
      ∀ x y, (minX tileRange ≤ x ≤ maxX tileRange)%Z →
             (minY tileRange ≤ y ≤ maxY tileRange)%Z →
        ∃ tile, tileAt (tileCache this) (getKey (z, x, y)) = Some tile ∧
                getState tile = VectorTile.LOADED ∧
                callback tile ≠ JBool false) ∧
     getProjection this' = getProjection this ∧
     entries (tileCache this') ≡ₚ entries (tileCache this) ∧
     highWaterMark (tileCache this') = highWaterMark (tileCache this) ∧
     disposed (tileCache this') = disposed (tileCache this)).
Proof.
  intros Hnd. unfold forEachLoadedTile. split.
  - by intros ->.
  - intros ->.
    destruct (rowLoop_spec callback z (tileCache this)
                (upTo (minY tileRange) (maxY tileRange))
                (upTo (minX tileRange) (maxX tileRange))
                (mkSweep true (tileCache this) []) Hnd)
      as (s' & Hrun & (Hp & Hh & Hd) & Hcalls & Hcov).
    { by split. }
    rewrite Hrun. simpl in Hcalls, Hcov. fold (coordsOf tileRange) in *.
    eexists _, _. split; [by rewrite Hcalls |].
    cbn [tileCache getProjection].
    split; [| by repeat split].
    rewrite Hcov. cbn [andb]. rewrite forallb_forall. split.
    + intros Hall x y Hx Hy.
      assert (Hin : (x, y) ∈ coordsOf tileRange) by by apply elem_of_coordsOf.
      apply list_elem_of_In in Hin.
      specialize (Hall _ Hin). unfold accepted, loadedAt in Hall.
      cbn [fst snd] in Hall.
      destruct (tileAt (tileCache this) (getKey (z, x, y))) as [tile|];
        [| done]. simpl in Hall.
      case_bool_decide as Hst; [| done]. exists tile.
      split; [done |]. split; [done |]. intros Hf. by rewrite Hf in Hall.
    + intros Hall [x y] Hin. apply list_elem_of_In in Hin.
      apply elem_of_coordsOf in Hin as [Hx Hy].
      destruct (Hall x y Hx Hy) as (tile & Ht & Hst & Hcb).
      unfold accepted, loadedAt. cbn [fst snd]. rewrite Ht. simpl.
      rewrite bool_decide_eq_true_2 by done.
      destruct (callback tile) as [| |[|]| | |]; done.
Qed.


End Source.

(** *** [pruneExceptNewestZ] *)

(** Modelled from the spec: [peekFirstKey()], [remove(key)] and
    [forEach(f)] of ol/structs/LRUCache, which is not among the sources; "an
    LRU structure mapping a z/x/y key to a Tile".  The first key is that of
    the newest entry; [remove] asserts that the key is there; [forEach]
    calls [f] on the entries it holds when called, oldest first. *)
Definition peekFirstKey (c : Cache) : option string :=
  fst <$> last (entries c).

Definition remove (key : string) (c : Cache) : outcome (Tile * Cache) :=
  match list_find (λ e, e.1 = key) (entries c) with
  | Some (i, e) =>
      Return (e.2, mkCache (highWaterMark c) (delete i (entries c))
                     (disposed c))
  | None => Throws "AssertionError"
  end.

Section Prune.

(** [fromKey(key)] of ol/tilecoord.js: the coordinate a key was made of. *)
Variable fromKey : string → TileCoord.

(** The function handed to [forEach], over the entries it is called on. *)
Fixpoint pruneLoop (z : Z) (visited : list (string * Tile)) (c : Cache)
    : outcome Cache :=
  match visited with
  | [] => Return c
  | (_, tile) :: rest =>
      if bool_decide ((tileCoord tile).1.1 ≠ z) then
        match remove (getKey (tileCoord tile)) c with
        | Return (_, c) =>
            pruneLoop z rest
              (mkCache (highWaterMark c) (entries c) (disposed c ++ [tile]))
        | Throws msg => Throws msg
        end
      else pruneLoop z rest c
  end.

Definition pruneExceptNewestZ (c : Cache) : outcome Cache :=
  if bool_decide (getCount c = 0)%Z then Return c
  else
    match peekFirstKey c with
    | Some key =>
        let tileCoord := fromKey key in
        let z := tileCoord.1.1 in
        pruneLoop z (entries c) c
    | None => Throws "AssertionError"
    end.

(** Every tile is cached under the key of its own coordinate. *)
Definition keyed (c : Cache) : Prop :=
  ∀ key tile, (key, tile) ∈ entries c → key = getKey (tileCoord tile).

Lemma list_find_unique (es1 es2 : list (string * Tile)) key tile :
  NoDup (es1 ++ (key, tile) :: es2).*1 →
  list_find (λ e, e.1 = key) (es1 ++ (key, tile) :: es2)
  = Some (length es1, (key, tile)).
Proof.
  intros Hnd. apply list_find_Some. split; [| split; [done |]].
  - by rewrite lookup_app_r, Nat.sub_diag.
  - intros j [k t] Hj Hlt. simpl. intros ->.
    rewrite lookup_app_l in Hj by done.
    rewrite fmap_app, fmap_cons in Hnd.
    apply NoDup_app in Hnd as (_ & Hdisj & _).
    apply (Hdisj key).
    + apply list_elem_of_fmap. exists (key, t).
      split; [done | by eapply list_elem_of_lookup_2].
    + by left.
Qed.

Lemma pruneLoop_spec z visited : ∀ kept c,
  entries c = kept ++ visited →
  NoDup (entries c).*1 →
  keyed c →
  pruneLoop z visited c
  = Return (mkCache (highWaterMark c)
              (kept ++ filter (λ e, (tileCoord e.2).1.1 = z) visited)
              (disposed c ++
               (filter (λ e, (tileCoord e.2).1.1 ≠ z) visited).*2)).
Proof.
  induction visited as [|[key tile] rest IH]; intros kept c He Hnd Hkeyed.
  - rewrite app_nil_r in He. cbn [pruneLoop]. rewrite !filter_nil.
    cbn [fmap list_fmap]. rewrite !app_nil_r, <- He. by destruct c.
  - simpl pruneLoop. rewrite !filter_cons. simpl.
    assert (Hkey : key = getKey (tileCoord tile)).
    { apply Hkeyed. rewrite He. apply elem_of_app. right. by left. }
    case_bool_decide as Hz.
    + rewrite decide_False by done. rewrite decide_True by done.
      unfold remove. rewrite <- Hkey. rewrite He at 1.
      rewrite He in Hnd.
      rewrite (list_find_unique _ _ _ _ Hnd). cbn [snd].
      rewrite (IH kept).
      * cbn [highWaterMark disposed entries]. rewrite fmap_cons.
        by rewrite <- app_assoc.
      * cbn [entries]. rewrite He.
        rewrite delete_middle. done.
      * cbn [entries]. rewrite He, delete_middle.
        rewrite fmap_app, fmap_cons in Hnd. rewrite fmap_app.
        apply NoDup_app in Hnd as (H1 & H2 & H3).
        apply NoDup_cons in H3 as [_ H3]. apply NoDup_app.
        split; [done |]. split; [| done].
        intros k Hk Hk'. apply (H2 k Hk). by right.
      * intros k t. cbn [entries]. rewrite He, delete_middle.
        intros Hin. apply Hkeyed. rewrite He.
        apply elem_of_app in Hin as [Hin|Hin]; apply elem_of_app;
          [by left | right; by right].
    + assert (Hzeq : (tileCoord tile).1.1 = z).
      { destruct (decide ((tileCoord tile).1.1 = z)); [done |].
        by exfalso. }
      rewrite decide_True by done. rewrite decide_False by (intros ?; done).
      rewrite (IH (kept ++ [(key, tile)])).
      * by rewrite <- app_assoc.
      * by rewrite <- app_assoc.
      * done.
      * done.
Qed.

(** X21: [pruneExceptNewestZ] on a cache whose tiles sit under the keys of
    their coordinates returns; an empty cache is left as it is; otherwise
    the cache keeps, in their order, exactly the tiles whose z is the z read
    off the newest entry's key, and every other tile was removed and
    disposed, oldest first.  When that key is the key of the newest tile's
    own coordinate, the newest tile stays, and all that stay share its z. *)
Theorem pruneExceptNewestZ_keeps_newest_z c :
  NoDup (entries c).*1 →
  keyed c →
  (entries c = [] → pruneExceptNewestZ c = Return c) ∧
  (∀ older key tile,
     entries c = older ++ [(key, tile)] →
     let z := (fromKey key).1.1 in
     ∃ c',
       pruneExceptNewestZ c = Return c' ∧
       highWaterMark c' = highWaterMark c ∧
       entries c' = filter (λ e, (tileCoord e.2).1.1 = z) (entries c) ∧
       disposed c'
       = disposed c ++ (filter (λ e, (tileCoord e.2).1.1 ≠ z) (entries c)).*2 ∧
       (fromKey key = tileCoord tile →
        last (entries c') = Some (key, tile) ∧
        ∀ e, e ∈ entries c' → (tileCoord e.2).1.1 = (tileCoord tile).1.1)).
Proof.
  intros Hnd Hkeyed. unfold pruneExceptNewestZ, getCount, peekFirstKey. split.
  - intros He. rewrite He. reflexivity.
  - intros older key tile He. cbv zeta. set (z := (fromKey key).1.1).
    rewrite bool_decide_eq_false_2.
    2:{ rewrite He, length_app. simpl. lia. }
    assert (Hlast : fst <$> last (entries c) = Some key)
      by by rewrite He, last_snoc.
    rewrite Hlast. fold z. rewrite (pruneLoop_spec z (entries c) [] c eq_refl Hnd Hkeyed).
    eexists. split; [reflexivity |]. simpl.
    split; [done |]. split; [done |]. split; [done |].
    intros Hz. unfold z. rewrite Hz. split.
    + rewrite He, filter_app, filter_cons, decide_True by done.
      rewrite filter_nil. by rewrite last_snoc.
    + intros e He'. by apply list_elem_of_filter in He' as [He' _].
Qed.

End Prune.

(** *** The load events of a URL tile source *)

(** A URL tile source, as [handleTileChange] sees it: the dictionary of
    tiles that are loading, keyed by uid, and the events dispatched so far,
    each with the uid of its tile. *)
Record UrlTile : Type := mkUrlTile {
  tileLoadingKeys_ : gset string;
  dispatched : list (TileEventType * N)
}.

(** [handleTileChange(event)], on the tile's uid and state. *)
Definition handleTileChange (uid : N) (tileState : VectorTile.TileState)
    (this : UrlTile) : UrlTile :=
  if bool_decide (tileState = VectorTile.LOADING) then
    mkUrlTile ({[pretty uid]} ∪ tileLoadingKeys_ this)
      (dispatched this ++ [(TILELOADSTART, uid)])
  else if bool_decide (pretty uid ∈ tileLoadingKeys_ this) then
    mkUrlTile (tileLoadingKeys_ this ∖ {[pretty uid]})
      (dispatched this ++
       match tileState with
       | VectorTile.ERROR => [(TILELOADERROR, uid)]
       | VectorTile.LOADED | VectorTile.ABORT => [(TILELOADEND, uid)]
       | _ => []
       end)
  else this.

(** The source after a run of tile changes. *)
Definition afterChanges (changes : list (N * VectorTile.TileState))
    (this : UrlTile) : UrlTile :=
  foldl (λ this change, handleTileChange change.1 change.2 this) this changes.

Definition starts (uid : N) (events : list (TileEventType * N)) : nat :=
  length (filter (λ e, e = (TILELOADSTART, uid)) events).

Definition ends (uid : N) (events : list (TileEventType * N)) : nat :=
  length (filter (λ e, e.2 = uid ∧ e.1 ≠ TILELOADSTART) events).

(** At every moment a tile has had at least as many starts as ends, and
    more when it is among the loading keys. *)
Definition balanced (this : UrlTile) : Prop :=
  ∀ uid,
    (∀ pre, pre `prefix_of` dispatched this →
            (ends uid pre ≤ starts uid pre)%nat) ∧
    (pretty uid ∈ tileLoadingKeys_ this →
     (ends uid (dispatched this) < starts uid (dispatched this))%nat).

Lemma prefix_self {A} (l : list A) : l `prefix_of` l.
Proof. done. Qed.

Lemma prefix_snoc_inv {A} (pre l : list A) x :
  pre `prefix_of` l ++ [x] → pre `prefix_of` l ∨ pre = l ++ [x].
Proof.
  intros [post Hpost].
  destruct (decide (post = [])) as [->|Hne].
  - right. by rewrite app_nil_r in Hpost.
  - left. destruct (exists_last Hne) as (post' & y & ->).
    rewrite app_assoc in Hpost. apply app_inj_tail in Hpost as [-> _].
    by exists post'.
Qed.

Lemma starts_snoc uid events e :
  starts uid (events ++ [e])
  = (starts uid events + if decide (e = (TILELOADSTART, uid)) then 1 else 0)%nat.
Proof.
  unfold starts. rewrite filter_app, length_app, filter_cons, filter_nil.
  by destruct (decide _).
Qed.

Lemma ends_snoc uid events e :
  ends uid (events ++ [e])
  = (ends uid events +
     if decide (e.2 = uid ∧ e.1 ≠ TILELOADSTART) then 1 else 0)%nat.
Proof.
  unfold ends. rewrite filter_app, length_app, filter_cons, filter_nil.
  by destruct (decide _).
Qed.

Lemma balanced_start this (uid : N) :
  balanced this →
  balanced (mkUrlTile ({[pretty uid]} ∪ tileLoadingKeys_ this)
              (dispatched this ++ [(TILELOADSTART, uid)])).
Proof.
  intros Hb u. destruct (Hb u) as [Hpre Hkey].
  cbn [tileLoadingKeys_ dispatched].
  pose proof (Hpre _ (prefix_self _)) as Hall.
  assert (Hends : ends u (dispatched this ++ [(TILELOADSTART, uid)])
                  = ends u (dispatched this)).
  { rewrite ends_snoc, decide_False; [lia | naive_solver]. }
  split.
  - intros pre [Hp| ->]%prefix_snoc_inv; [by apply Hpre |].
    rewrite Hends, starts_snoc. lia.
  - intros Hin. rewrite Hends, starts_snoc.
    destruct (decide (u = uid)) as [->|Hne].
    + rewrite decide_True by done. lia.
    + apply elem_of_union in Hin as [Hin|Hin].
      * apply elem_of_singleton in Hin. by apply (inj pretty) in Hin.
      * specialize (Hkey Hin). lia.
Qed.

Lemma balanced_forget this (uid : N) :
  balanced this →
  balanced (mkUrlTile (tileLoadingKeys_ this ∖ {[pretty uid]})
              (dispatched this ++ [])).
Proof.
  intros Hb u. destruct (Hb u) as [Hpre Hkey].
  cbn [tileLoadingKeys_ dispatched]. rewrite app_nil_r.
  split; [done |]. intros Hin. apply Hkey. set_solver.
Qed.

Lemma balanced_end this (uid : N) ty :
  ty ≠ TILELOADSTART →
  pretty uid ∈ tileLoadingKeys_ this →
  balanced this →
  balanced (mkUrlTile (tileLoadingKeys_ this ∖ {[pretty uid]})
              (dispatched this ++ [(ty, uid)])).
Proof.
  intros Hty Hloading Hb u. destruct (Hb u) as [Hpre Hkey].
  cbn [tileLoadingKeys_ dispatched].
  pose proof (Hpre _ (prefix_self _)) as Hall.
  assert (Hstarts : starts u (dispatched this ++ [(ty, uid)])
                    = starts u (dispatched this)).
  { rewrite starts_snoc, decide_False; [lia | congruence]. }
  destruct (decide (u = uid)) as [->|Hne].
  - specialize (Hkey Hloading). split; [| set_solver].
    intros pre [Hp| ->]%prefix_snoc_inv; [by apply Hpre |].
    rewrite Hstarts, ends_snoc. destruct (decide _); lia.
  - assert (Hends : ends u (dispatched this ++ [(ty, uid)])
                    = ends u (dispatched this)).
    { rewrite ends_snoc, decide_False; [lia |]. simpl. naive_solver. }
    split.
    + intros pre [Hp| ->]%prefix_snoc_inv; [by apply Hpre |].
      rewrite Hstarts, Hends. lia.
    + intros Hin. rewrite Hstarts, Hends. apply Hkey. set_solver.
Qed.

Lemma balanced_handleTileChange uid tileState this :
  balanced this → balanced (handleTileChange uid tileState this).
Proof.
  intros Hb. unfold handleTileChange.
  case_bool_decide as Hloading; [by apply balanced_start |].
  case_bool_decide as Hin; [| done].
  destruct tileState; try done;
    first [by apply balanced_forget | by apply balanced_end].
Qed.

(** X22: whatever tile changes a URL tile source is told of, from its
    construction on, it never reports the end (or the failure) of a load it
    did not report the start of: at every point of the event sequence each
    tile has at least as many TILELOADSTART events as TILELOADEND and
    TILELOADERROR events together, and strictly more while it is among the
    loading keys.  A change to a state other than LOADING for a tile that is
    not loading dispatches nothing. *)
Theorem handleTileChange_never_ends_unstarted changes :
  let this := afterChanges changes (mkUrlTile ∅ []) in
  (∀ uid pre, pre `prefix_of` dispatched this →
              (ends uid pre ≤ starts uid pre)%nat) ∧
  (∀ uid, pretty uid ∈ tileLoadingKeys_ this →
          (ends uid (dispatched this) < starts uid (dispatched this))%nat) ∧
  (∀ uid tileState,
     tileState ≠ VectorTile.LOADING →
     pretty uid ∉ tileLoadingKeys_ this →
     handleTileChange uid tileState this = this).
Proof.
  intros this.
  assert (Hb : balanced this).
  { unfold this, afterChanges.
    assert (Hgen : ∀ s, balanced s →
              balanced (foldl (λ this change,
                          handleTileChange change.1 change.2 this) s changes)).
    { induction changes as [|[uid st] rest IH]; intros s Hs; [done |].
      simpl. apply IH. by apply balanced_handleTileChange. }
    apply Hgen. intros uid. split.
    - intros pre Hpre. apply prefix_nil_inv in Hpre. by subst.
    - set_solver. }
  split; [intros uid; apply Hb |]. split; [intros uid; apply Hb |].
  intros uid tileState Hst Hnot. unfold handleTileChange.
  rewrite bool_decide_eq_false_2 by done.
  by rewrite bool_decide_eq_false_2.
Qed.

(** *** A source with the three tiles of the cache *)

(** Tile B failed to load; the others are loaded. *)
Definition stateOf (t : Tile) : VectorTile.TileState :=
  if String.eqb (name t) "B" then VectorTile.ERROR else VectorTile.LOADED.

Definition threeTiles : Cache :=
  mkCache 2 [("0/0/0", tileA); ("1/0/0", tileB); ("1/1/0", tileC)] [].

Definition threeTileSource : TileSource unit := mkTileSource unit None threeTiles.

Definition keepAll (t : Tile) : jsval := JUndefined.

Lemma threeTiles_NoDup : NoDup (entries threeTiles).*1.
Proof. apply (bool_decide_unpack _). by vm_compute. Qed.

Lemma threeTiles_keyed : keyed threeTiles.
Proof.
  intros key tile Hin. unfold threeTiles in Hin. simpl in Hin. set_unfold.
  destruct Hin as [[= -> ->]|[[= -> ->]|[[= -> ->]|[]]]]; reflexivity.
Qed.

Lemma forEachLoadedTile_covers_range_witness :
  ∃ answer this',
    forEachLoadedTile unit (λ _ _, true) stateOf threeTileSource tt 1
      (mkTileRange 0 1 0 0) keepAll
    = Return (answer, this', [tileC]).
Proof.
  destruct (proj2 (forEachLoadedTile_covers_range unit (λ _ _, true) stateOf
                     threeTileSource tt 1 (mkTileRange 0 1 0 0) keepAll
                     threeTiles_NoDup) eq_refl)
    as (answer & this' & Hrun & _).
  by exists answer, this'.
Defined.


Lemma pruneExceptNewestZ_keeps_newest_z_witness :
  ∃ c',
    pruneExceptNewestZ (λ _, (1, 1, 0)%Z) threeTiles = Return c' ∧
    (entries c').*2 = [tileB; tileC] ∧
    disposed c' = [tileA].
Proof.
  destruct (proj2 (pruneExceptNewestZ_keeps_newest_z (λ _, (1, 1, 0)%Z)
                     threeTiles threeTiles_NoDup threeTiles_keyed)
              [("0/0/0", tileA); ("1/0/0", tileB)] "1/1/0" tileC eq_refl)
    as (c' & Hrun & _ & He & Hd & _).
  exists c'. split; [done |]. rewrite He, Hd. split; reflexivity.
Defined.

Lemma handleTileChange_never_ends_unstarted_witness :
  dispatched
    (afterChanges [(1%N, VectorTile.LOADED); (1%N, VectorTile.LOADING);
                   (1%N, VectorTile.LOADED); (1%N, VectorTile.LOADED)]
       (mkUrlTile ∅ []))
  = [(TILELOADSTART, 1%N); (TILELOADEND, 1%N)] ∧
  (ends 1 [(TILELOADSTART, 1%N); (TILELOADEND, 1%N)]
   ≤ starts 1 [(TILELOADSTART, 1%N); (TILELOADEND, 1%N)])%nat.
Proof.
  split; [by vm_compute |].
  apply (proj1 (handleTileChange_never_ends_unstarted
                  [(1%N, VectorTile.LOADED); (1%N, VectorTile.LOADING);
                   (1%N, VectorTile.LOADED); (1%N, VectorTile.LOADED)]) 1%N).
  exists []. by vm_compute.
Defined.

End TileSource.
